(** * Two-pass resonance scanner: sweep controller, target selector and
      harmonic classifier of [Ultrasonic_Transducer_Scanner_Version2.ino]

    The sketch targets a 32-bit board: [unsigned int] and [unsigned long]
    are 32-bit words with wrap-around, [int] is a 32-bit two's complement
    word and [float] is IEEE-754 binary32.  Integers are embedded as [Z]
    with the wrap-around written out, floats as [spec_float] at precision
    24 and exponent bound 128.  The global variables of the sketch form
    the record [State]; every function of the sketch is a function on
    [State].  The two hardware collaborators are explicit: the commands
    sent to the PWM generator are logged in the state, and the current
    sensor is a function [adc] of the programmed frequency and of the
    number of conversions done so far.  The OLED display and the serial
    log are output-only and are left out. *)

From Stdlib Require Import ZArith Lia Bool List Sorting.Sorted.
From Stdlib Require Import Floats.SpecFloat.
From stdpp Require Import base list.

Open Scope Z_scope.

(** ** Machine integers *)

Module Word.

(** [unsigned int] arithmetic: results are reduced modulo 2^32. *)
Definition u32 (z : Z) : Z := z mod 2 ^ 32.

(** [int] arithmetic and the cast [(int)x]: two's complement wrap. *)
Definition i32 (z : Z) : Z := (z + 2 ^ 31) mod 2 ^ 32 - 2 ^ 31.

(** [abs(x)] on an [int]. *)
Definition abs_int (x : Z) : Z := if x >? 0 then x else i32 (- x).

Definition INT_MAX : Z := 2 ^ 31 - 1.
Definition INT_MIN : Z := - 2 ^ 31.

(** Saturation at the bounds of [int], for float to [int] casts. *)
Definition sat_int (z : Z) : Z :=
  if z >? INT_MAX then INT_MAX else if z <? INT_MIN then INT_MIN else z.

End Word.
Import Word.

(** ** binary32 floats *)

Module F32.

Definition float : Type := spec_float.

Definition prec : Z := 24.
Definition emax : Z := 128.

Definition fzero : float := S754_zero false.

(** Conversion of an integer: round to nearest, ties to even. *)
Definition of_Z (z : Z) : float := binary_normalize prec emax z 0 false.

Definition fadd : float -> float -> float := SFadd prec emax.
Definition fsub : float -> float -> float := SFsub prec emax.
Definition fmul : float -> float -> float := SFmul prec emax.
Definition fdiv : float -> float -> float := SFdiv prec emax.
Definition fabs : float -> float := SFabs.

(** The comparisons of C: all are false on a NaN. *)
Definition flt (x y : float) : bool := SFltb x y.
Definition fle (x y : float) : bool := SFleb x y.
Definition fgt (x y : float) : bool := SFltb y x.
Definition fge (x y : float) : bool := SFleb y x.

(** A decimal literal [n/d] with the suffix [f]: the binary32 number
    nearest to it.  [n] and [d] are below 2^24, so both convert
    exactly and the correctly rounded quotient is that number. *)
Definition lit (n d : Z) : float := fdiv (of_Z n) (of_Z d).

(** Magnitude of [m * 2^e] rounded to the nearest integer, halves away
    from zero. *)
Definition round_mag (m : positive) (e : Z) : Z :=
  match e with
  | Z0 => Zpos m
  | Zpos p => Zpos m * 2 ^ Zpos p
  | Zneg p => (Zpos m + 2 ^ (Zpos p - 1)) / 2 ^ Zpos p
  end.

(** [(int)round(x)].  C leaves the cast undefined on a NaN and outside
    the range of [int]; the ARM run-time yields 0 and saturates. *)
Definition round_int (x : float) : Z :=
  match x with
  | S754_zero _ => 0
  | S754_nan => 0
  | S754_infinity s => if s then INT_MIN else INT_MAX
  | S754_finite s m e => sat_int (cond_Zopp s (round_mag m e))
  end.

#[global] Instance float_inhabited : Inhabited float := populate fzero.

End F32.
Import F32.

(** ** Constants of the sketch *)

Definition ADC_MAX : float := of_Z 4095.
Definition VREF : float := lit 33 10.
Definition ACS_SENSITIVITY : float := lit 66 1000.

Definition FREQ_STEP : Z := 50.
Definition SAMPLES_PER_FREQ : Z := 20.
Definition STABILIZE_DELAY : Z := 15.

Definition FINE_WINDOW : Z := 1000.
Definition FINE_STEP : Z := 10.
Definition FINE_SAMPLES_PER_FREQ : Z := 20.
Definition MAX_FINE_TARGETS : Z := 3.

Definition MAX_DATA_POINTS : Z := 70.

(** The three selectable bands, as (start, end) in Hz. *)
Definition bands : list (Z * Z) :=
  [(20000, 46000); (46000, 65000); (65000, 85000)].

(** ** Global state *)

Record FineTarget := mkFineTarget {
  center : Z;
  bestFreq : Z;
  bestAmp : float;
  used : bool
}.

Definition set_bestFreq (v : Z) (t : FineTarget) : FineTarget :=
  mkFineTarget (center t) v (bestAmp t) (used t).

Definition set_bestAmp (v : float) (t : FineTarget) : FineTarget :=
  mkFineTarget (center t) (bestFreq t) v (used t).

#[global] Instance FineTarget_inhabited : Inhabited FineTarget :=
  populate (mkFineTarget 0 0 fzero false).

(** A command received by the PWM generator: [setFrequency(f)] or
    [stopPWM()]. *)
Inductive GenCmd : Type :=
  | SetFreq (f : Z)
  | Stop.

(** The globals of the sketch, followed by the hardware: the frequency
    and duty last programmed, the log of generator commands (latest
    first) and the number of [analogRead] conversions done. *)
Record State := mkState {
  START_FREQ : Z;
  END_FREQ : Z;
  resonantFreq : Z;
  maxAmplitude : float;
  currAmplitude : float;
  resonantIpk : float;
  resonantIpp : float;
  testRunning : bool;
  testComplete : bool;
  freqs : list Z;
  amplitudes : list float;
  dataPoints : Z;
  totalSteps : Z;
  stepIndex : Z;
  storeEvery : Z;
  currentTestFreq : Z;
  bestHarmFreq : Z;
  bestHarmAmp : float;
  lastSampleTime : Z;
  coarsePhase : bool;
  finePhase : bool;
  fineTargets : list FineTarget;
  fineTargetCount : Z;
  currentFineIndex : Z;
  fineSweepFreq : Z;
  fineSweepEnd : Z;
  fineSweepStep : Z;
  fineLastSampleTime : Z;
  lastIpp : float;
  lastIpk : float;
  pwmFreq : Z;
  pwmDuty : Z;
  pwmLog : list GenCmd;
  adcReads : Z
}.

Definition set_resonantFreq (v : Z) (s : State) : State :=
  mkState (START_FREQ s) (END_FREQ s) v (maxAmplitude s) (currAmplitude s) (resonantIpk s)
    (resonantIpp s) (testRunning s) (testComplete s) (freqs s) (amplitudes s) (dataPoints s)
    (totalSteps s) (stepIndex s) (storeEvery s) (currentTestFreq s) (bestHarmFreq s)
    (bestHarmAmp s) (lastSampleTime s) (coarsePhase s) (finePhase s) (fineTargets s)
    (fineTargetCount s) (currentFineIndex s) (fineSweepFreq s) (fineSweepEnd s) (fineSweepStep
    s) (fineLastSampleTime s) (lastIpp s) (lastIpk s) (pwmFreq s) (pwmDuty s) (pwmLog s)
    (adcReads s).

Definition set_maxAmplitude (v : float) (s : State) : State :=
  mkState (START_FREQ s) (END_FREQ s) (resonantFreq s) v (currAmplitude s) (resonantIpk s)
    (resonantIpp s) (testRunning s) (testComplete s) (freqs s) (amplitudes s) (dataPoints s)
    (totalSteps s) (stepIndex s) (storeEvery s) (currentTestFreq s) (bestHarmFreq s)
    (bestHarmAmp s) (lastSampleTime s) (coarsePhase s) (finePhase s) (fineTargets s)
    (fineTargetCount s) (currentFineIndex s) (fineSweepFreq s) (fineSweepEnd s) (fineSweepStep
    s) (fineLastSampleTime s) (lastIpp s) (lastIpk s) (pwmFreq s) (pwmDuty s) (pwmLog s)
    (adcReads s).

Definition set_currAmplitude (v : float) (s : State) : State :=
  mkState (START_FREQ s) (END_FREQ s) (resonantFreq s) (maxAmplitude s) v (resonantIpk s)
    (resonantIpp s) (testRunning s) (testComplete s) (freqs s) (amplitudes s) (dataPoints s)
    (totalSteps s) (stepIndex s) (storeEvery s) (currentTestFreq s) (bestHarmFreq s)
    (bestHarmAmp s) (lastSampleTime s) (coarsePhase s) (finePhase s) (fineTargets s)
    (fineTargetCount s) (currentFineIndex s) (fineSweepFreq s) (fineSweepEnd s) (fineSweepStep
    s) (fineLastSampleTime s) (lastIpp s) (lastIpk s) (pwmFreq s) (pwmDuty s) (pwmLog s)
    (adcReads s).

Definition set_resonantIpk (v : float) (s : State) : State :=
  mkState (START_FREQ s) (END_FREQ s) (resonantFreq s) (maxAmplitude s) (currAmplitude s) v
    (resonantIpp s) (testRunning s) (testComplete s) (freqs s) (amplitudes s) (dataPoints s)
    (totalSteps s) (stepIndex s) (storeEvery s) (currentTestFreq s) (bestHarmFreq s)
    (bestHarmAmp s) (lastSampleTime s) (coarsePhase s) (finePhase s) (fineTargets s)
    (fineTargetCount s) (currentFineIndex s) (fineSweepFreq s) (fineSweepEnd s) (fineSweepStep
    s) (fineLastSampleTime s) (lastIpp s) (lastIpk s) (pwmFreq s) (pwmDuty s) (pwmLog s)
    (adcReads s).

Definition set_resonantIpp (v : float) (s : State) : State :=
  mkState (START_FREQ s) (END_FREQ s) (resonantFreq s) (maxAmplitude s) (currAmplitude s)
    (resonantIpk s) v (testRunning s) (testComplete s) (freqs s) (amplitudes s) (dataPoints s)
    (totalSteps s) (stepIndex s) (storeEvery s) (currentTestFreq s) (bestHarmFreq s)
    (bestHarmAmp s) (lastSampleTime s) (coarsePhase s) (finePhase s) (fineTargets s)
    (fineTargetCount s) (currentFineIndex s) (fineSweepFreq s) (fineSweepEnd s) (fineSweepStep
    s) (fineLastSampleTime s) (lastIpp s) (lastIpk s) (pwmFreq s) (pwmDuty s) (pwmLog s)
    (adcReads s).

Definition set_testRunning (v : bool) (s : State) : State :=
  mkState (START_FREQ s) (END_FREQ s) (resonantFreq s) (maxAmplitude s) (currAmplitude s)
    (resonantIpk s) (resonantIpp s) v (testComplete s) (freqs s) (amplitudes s) (dataPoints s)
    (totalSteps s) (stepIndex s) (storeEvery s) (currentTestFreq s) (bestHarmFreq s)
    (bestHarmAmp s) (lastSampleTime s) (coarsePhase s) (finePhase s) (fineTargets s)
    (fineTargetCount s) (currentFineIndex s) (fineSweepFreq s) (fineSweepEnd s) (fineSweepStep
    s) (fineLastSampleTime s) (lastIpp s) (lastIpk s) (pwmFreq s) (pwmDuty s) (pwmLog s)
    (adcReads s).

Definition set_testComplete (v : bool) (s : State) : State :=
  mkState (START_FREQ s) (END_FREQ s) (resonantFreq s) (maxAmplitude s) (currAmplitude s)
    (resonantIpk s) (resonantIpp s) (testRunning s) v (freqs s) (amplitudes s) (dataPoints s)
    (totalSteps s) (stepIndex s) (storeEvery s) (currentTestFreq s) (bestHarmFreq s)
    (bestHarmAmp s) (lastSampleTime s) (coarsePhase s) (finePhase s) (fineTargets s)
    (fineTargetCount s) (currentFineIndex s) (fineSweepFreq s) (fineSweepEnd s) (fineSweepStep
    s) (fineLastSampleTime s) (lastIpp s) (lastIpk s) (pwmFreq s) (pwmDuty s) (pwmLog s)
    (adcReads s).

Definition set_freqs (v : list Z) (s : State) : State :=
  mkState (START_FREQ s) (END_FREQ s) (resonantFreq s) (maxAmplitude s) (currAmplitude s)
    (resonantIpk s) (resonantIpp s) (testRunning s) (testComplete s) v (amplitudes s)
    (dataPoints s) (totalSteps s) (stepIndex s) (storeEvery s) (currentTestFreq s) (bestHarmFreq
    s) (bestHarmAmp s) (lastSampleTime s) (coarsePhase s) (finePhase s) (fineTargets s)
    (fineTargetCount s) (currentFineIndex s) (fineSweepFreq s) (fineSweepEnd s) (fineSweepStep
    s) (fineLastSampleTime s) (lastIpp s) (lastIpk s) (pwmFreq s) (pwmDuty s) (pwmLog s)
    (adcReads s).

Definition set_amplitudes (v : list float) (s : State) : State :=
  mkState (START_FREQ s) (END_FREQ s) (resonantFreq s) (maxAmplitude s) (currAmplitude s)
    (resonantIpk s) (resonantIpp s) (testRunning s) (testComplete s) (freqs s) v (dataPoints s)
    (totalSteps s) (stepIndex s) (storeEvery s) (currentTestFreq s) (bestHarmFreq s)
    (bestHarmAmp s) (lastSampleTime s) (coarsePhase s) (finePhase s) (fineTargets s)
    (fineTargetCount s) (currentFineIndex s) (fineSweepFreq s) (fineSweepEnd s) (fineSweepStep
    s) (fineLastSampleTime s) (lastIpp s) (lastIpk s) (pwmFreq s) (pwmDuty s) (pwmLog s)
    (adcReads s).

Definition set_dataPoints (v : Z) (s : State) : State :=
  mkState (START_FREQ s) (END_FREQ s) (resonantFreq s) (maxAmplitude s) (currAmplitude s)
    (resonantIpk s) (resonantIpp s) (testRunning s) (testComplete s) (freqs s) (amplitudes s) v
    (totalSteps s) (stepIndex s) (storeEvery s) (currentTestFreq s) (bestHarmFreq s)
    (bestHarmAmp s) (lastSampleTime s) (coarsePhase s) (finePhase s) (fineTargets s)
    (fineTargetCount s) (currentFineIndex s) (fineSweepFreq s) (fineSweepEnd s) (fineSweepStep
    s) (fineLastSampleTime s) (lastIpp s) (lastIpk s) (pwmFreq s) (pwmDuty s) (pwmLog s)
    (adcReads s).

Definition set_totalSteps (v : Z) (s : State) : State :=
  mkState (START_FREQ s) (END_FREQ s) (resonantFreq s) (maxAmplitude s) (currAmplitude s)
    (resonantIpk s) (resonantIpp s) (testRunning s) (testComplete s) (freqs s) (amplitudes s)
    (dataPoints s) v (stepIndex s) (storeEvery s) (currentTestFreq s) (bestHarmFreq s)
    (bestHarmAmp s) (lastSampleTime s) (coarsePhase s) (finePhase s) (fineTargets s)
    (fineTargetCount s) (currentFineIndex s) (fineSweepFreq s) (fineSweepEnd s) (fineSweepStep
    s) (fineLastSampleTime s) (lastIpp s) (lastIpk s) (pwmFreq s) (pwmDuty s) (pwmLog s)
    (adcReads s).

Definition set_stepIndex (v : Z) (s : State) : State :=
  mkState (START_FREQ s) (END_FREQ s) (resonantFreq s) (maxAmplitude s) (currAmplitude s)
    (resonantIpk s) (resonantIpp s) (testRunning s) (testComplete s) (freqs s) (amplitudes s)
    (dataPoints s) (totalSteps s) v (storeEvery s) (currentTestFreq s) (bestHarmFreq s)
    (bestHarmAmp s) (lastSampleTime s) (coarsePhase s) (finePhase s) (fineTargets s)
    (fineTargetCount s) (currentFineIndex s) (fineSweepFreq s) (fineSweepEnd s) (fineSweepStep
    s) (fineLastSampleTime s) (lastIpp s) (lastIpk s) (pwmFreq s) (pwmDuty s) (pwmLog s)
    (adcReads s).

Definition set_storeEvery (v : Z) (s : State) : State :=
  mkState (START_FREQ s) (END_FREQ s) (resonantFreq s) (maxAmplitude s) (currAmplitude s)
    (resonantIpk s) (resonantIpp s) (testRunning s) (testComplete s) (freqs s) (amplitudes s)
    (dataPoints s) (totalSteps s) (stepIndex s) v (currentTestFreq s) (bestHarmFreq s)
    (bestHarmAmp s) (lastSampleTime s) (coarsePhase s) (finePhase s) (fineTargets s)
    (fineTargetCount s) (currentFineIndex s) (fineSweepFreq s) (fineSweepEnd s) (fineSweepStep
    s) (fineLastSampleTime s) (lastIpp s) (lastIpk s) (pwmFreq s) (pwmDuty s) (pwmLog s)
    (adcReads s).

Definition set_currentTestFreq (v : Z) (s : State) : State :=
  mkState (START_FREQ s) (END_FREQ s) (resonantFreq s) (maxAmplitude s) (currAmplitude s)
    (resonantIpk s) (resonantIpp s) (testRunning s) (testComplete s) (freqs s) (amplitudes s)
    (dataPoints s) (totalSteps s) (stepIndex s) (storeEvery s) v (bestHarmFreq s) (bestHarmAmp
    s) (lastSampleTime s) (coarsePhase s) (finePhase s) (fineTargets s) (fineTargetCount s)
    (currentFineIndex s) (fineSweepFreq s) (fineSweepEnd s) (fineSweepStep s)
    (fineLastSampleTime s) (lastIpp s) (lastIpk s) (pwmFreq s) (pwmDuty s) (pwmLog s) (adcReads
    s).

Definition set_bestHarmFreq (v : Z) (s : State) : State :=
  mkState (START_FREQ s) (END_FREQ s) (resonantFreq s) (maxAmplitude s) (currAmplitude s)
    (resonantIpk s) (resonantIpp s) (testRunning s) (testComplete s) (freqs s) (amplitudes s)
    (dataPoints s) (totalSteps s) (stepIndex s) (storeEvery s) (currentTestFreq s) v
    (bestHarmAmp s) (lastSampleTime s) (coarsePhase s) (finePhase s) (fineTargets s)
    (fineTargetCount s) (currentFineIndex s) (fineSweepFreq s) (fineSweepEnd s) (fineSweepStep
    s) (fineLastSampleTime s) (lastIpp s) (lastIpk s) (pwmFreq s) (pwmDuty s) (pwmLog s)
    (adcReads s).

Definition set_bestHarmAmp (v : float) (s : State) : State :=
  mkState (START_FREQ s) (END_FREQ s) (resonantFreq s) (maxAmplitude s) (currAmplitude s)
    (resonantIpk s) (resonantIpp s) (testRunning s) (testComplete s) (freqs s) (amplitudes s)
    (dataPoints s) (totalSteps s) (stepIndex s) (storeEvery s) (currentTestFreq s) (bestHarmFreq
    s) v (lastSampleTime s) (coarsePhase s) (finePhase s) (fineTargets s) (fineTargetCount s)
    (currentFineIndex s) (fineSweepFreq s) (fineSweepEnd s) (fineSweepStep s)
    (fineLastSampleTime s) (lastIpp s) (lastIpk s) (pwmFreq s) (pwmDuty s) (pwmLog s) (adcReads
    s).

Definition set_lastSampleTime (v : Z) (s : State) : State :=
  mkState (START_FREQ s) (END_FREQ s) (resonantFreq s) (maxAmplitude s) (currAmplitude s)
    (resonantIpk s) (resonantIpp s) (testRunning s) (testComplete s) (freqs s) (amplitudes s)
    (dataPoints s) (totalSteps s) (stepIndex s) (storeEvery s) (currentTestFreq s) (bestHarmFreq
    s) (bestHarmAmp s) v (coarsePhase s) (finePhase s) (fineTargets s) (fineTargetCount s)
    (currentFineIndex s) (fineSweepFreq s) (fineSweepEnd s) (fineSweepStep s)
    (fineLastSampleTime s) (lastIpp s) (lastIpk s) (pwmFreq s) (pwmDuty s) (pwmLog s) (adcReads
    s).

Definition set_coarsePhase (v : bool) (s : State) : State :=
  mkState (START_FREQ s) (END_FREQ s) (resonantFreq s) (maxAmplitude s) (currAmplitude s)
    (resonantIpk s) (resonantIpp s) (testRunning s) (testComplete s) (freqs s) (amplitudes s)
    (dataPoints s) (totalSteps s) (stepIndex s) (storeEvery s) (currentTestFreq s) (bestHarmFreq
    s) (bestHarmAmp s) (lastSampleTime s) v (finePhase s) (fineTargets s) (fineTargetCount s)
    (currentFineIndex s) (fineSweepFreq s) (fineSweepEnd s) (fineSweepStep s)
    (fineLastSampleTime s) (lastIpp s) (lastIpk s) (pwmFreq s) (pwmDuty s) (pwmLog s) (adcReads
    s).

Definition set_finePhase (v : bool) (s : State) : State :=
  mkState (START_FREQ s) (END_FREQ s) (resonantFreq s) (maxAmplitude s) (currAmplitude s)
    (resonantIpk s) (resonantIpp s) (testRunning s) (testComplete s) (freqs s) (amplitudes s)
    (dataPoints s) (totalSteps s) (stepIndex s) (storeEvery s) (currentTestFreq s) (bestHarmFreq
    s) (bestHarmAmp s) (lastSampleTime s) (coarsePhase s) v (fineTargets s) (fineTargetCount s)
    (currentFineIndex s) (fineSweepFreq s) (fineSweepEnd s) (fineSweepStep s)
    (fineLastSampleTime s) (lastIpp s) (lastIpk s) (pwmFreq s) (pwmDuty s) (pwmLog s) (adcReads
    s).

Definition set_fineTargets (v : list FineTarget) (s : State) : State :=
  mkState (START_FREQ s) (END_FREQ s) (resonantFreq s) (maxAmplitude s) (currAmplitude s)
    (resonantIpk s) (resonantIpp s) (testRunning s) (testComplete s) (freqs s) (amplitudes s)
    (dataPoints s) (totalSteps s) (stepIndex s) (storeEvery s) (currentTestFreq s) (bestHarmFreq
    s) (bestHarmAmp s) (lastSampleTime s) (coarsePhase s) (finePhase s) v (fineTargetCount s)
    (currentFineIndex s) (fineSweepFreq s) (fineSweepEnd s) (fineSweepStep s)
    (fineLastSampleTime s) (lastIpp s) (lastIpk s) (pwmFreq s) (pwmDuty s) (pwmLog s) (adcReads
    s).

Definition set_fineTargetCount (v : Z) (s : State) : State :=
  mkState (START_FREQ s) (END_FREQ s) (resonantFreq s) (maxAmplitude s) (currAmplitude s)
    (resonantIpk s) (resonantIpp s) (testRunning s) (testComplete s) (freqs s) (amplitudes s)
    (dataPoints s) (totalSteps s) (stepIndex s) (storeEvery s) (currentTestFreq s) (bestHarmFreq
    s) (bestHarmAmp s) (lastSampleTime s) (coarsePhase s) (finePhase s) (fineTargets s) v
    (currentFineIndex s) (fineSweepFreq s) (fineSweepEnd s) (fineSweepStep s)
    (fineLastSampleTime s) (lastIpp s) (lastIpk s) (pwmFreq s) (pwmDuty s) (pwmLog s) (adcReads
    s).

Definition set_currentFineIndex (v : Z) (s : State) : State :=
  mkState (START_FREQ s) (END_FREQ s) (resonantFreq s) (maxAmplitude s) (currAmplitude s)
    (resonantIpk s) (resonantIpp s) (testRunning s) (testComplete s) (freqs s) (amplitudes s)
    (dataPoints s) (totalSteps s) (stepIndex s) (storeEvery s) (currentTestFreq s) (bestHarmFreq
    s) (bestHarmAmp s) (lastSampleTime s) (coarsePhase s) (finePhase s) (fineTargets s)
    (fineTargetCount s) v (fineSweepFreq s) (fineSweepEnd s) (fineSweepStep s)
    (fineLastSampleTime s) (lastIpp s) (lastIpk s) (pwmFreq s) (pwmDuty s) (pwmLog s) (adcReads
    s).

Definition set_fineSweepFreq (v : Z) (s : State) : State :=
  mkState (START_FREQ s) (END_FREQ s) (resonantFreq s) (maxAmplitude s) (currAmplitude s)
    (resonantIpk s) (resonantIpp s) (testRunning s) (testComplete s) (freqs s) (amplitudes s)
    (dataPoints s) (totalSteps s) (stepIndex s) (storeEvery s) (currentTestFreq s) (bestHarmFreq
    s) (bestHarmAmp s) (lastSampleTime s) (coarsePhase s) (finePhase s) (fineTargets s)
    (fineTargetCount s) (currentFineIndex s) v (fineSweepEnd s) (fineSweepStep s)
    (fineLastSampleTime s) (lastIpp s) (lastIpk s) (pwmFreq s) (pwmDuty s) (pwmLog s) (adcReads
    s).

Definition set_fineSweepEnd (v : Z) (s : State) : State :=
  mkState (START_FREQ s) (END_FREQ s) (resonantFreq s) (maxAmplitude s) (currAmplitude s)
    (resonantIpk s) (resonantIpp s) (testRunning s) (testComplete s) (freqs s) (amplitudes s)
    (dataPoints s) (totalSteps s) (stepIndex s) (storeEvery s) (currentTestFreq s) (bestHarmFreq
    s) (bestHarmAmp s) (lastSampleTime s) (coarsePhase s) (finePhase s) (fineTargets s)
    (fineTargetCount s) (currentFineIndex s) (fineSweepFreq s) v (fineSweepStep s)
    (fineLastSampleTime s) (lastIpp s) (lastIpk s) (pwmFreq s) (pwmDuty s) (pwmLog s) (adcReads
    s).

Definition set_fineSweepStep (v : Z) (s : State) : State :=
  mkState (START_FREQ s) (END_FREQ s) (resonantFreq s) (maxAmplitude s) (currAmplitude s)
    (resonantIpk s) (resonantIpp s) (testRunning s) (testComplete s) (freqs s) (amplitudes s)
    (dataPoints s) (totalSteps s) (stepIndex s) (storeEvery s) (currentTestFreq s) (bestHarmFreq
    s) (bestHarmAmp s) (lastSampleTime s) (coarsePhase s) (finePhase s) (fineTargets s)
    (fineTargetCount s) (currentFineIndex s) (fineSweepFreq s) (fineSweepEnd s) v
    (fineLastSampleTime s) (lastIpp s) (lastIpk s) (pwmFreq s) (pwmDuty s) (pwmLog s) (adcReads
    s).

Definition set_fineLastSampleTime (v : Z) (s : State) : State :=
  mkState (START_FREQ s) (END_FREQ s) (resonantFreq s) (maxAmplitude s) (currAmplitude s)
    (resonantIpk s) (resonantIpp s) (testRunning s) (testComplete s) (freqs s) (amplitudes s)
    (dataPoints s) (totalSteps s) (stepIndex s) (storeEvery s) (currentTestFreq s) (bestHarmFreq
    s) (bestHarmAmp s) (lastSampleTime s) (coarsePhase s) (finePhase s) (fineTargets s)
    (fineTargetCount s) (currentFineIndex s) (fineSweepFreq s) (fineSweepEnd s) (fineSweepStep
    s) v (lastIpp s) (lastIpk s) (pwmFreq s) (pwmDuty s) (pwmLog s) (adcReads s).

Definition set_lastIpp (v : float) (s : State) : State :=
  mkState (START_FREQ s) (END_FREQ s) (resonantFreq s) (maxAmplitude s) (currAmplitude s)
    (resonantIpk s) (resonantIpp s) (testRunning s) (testComplete s) (freqs s) (amplitudes s)
    (dataPoints s) (totalSteps s) (stepIndex s) (storeEvery s) (currentTestFreq s) (bestHarmFreq
    s) (bestHarmAmp s) (lastSampleTime s) (coarsePhase s) (finePhase s) (fineTargets s)
    (fineTargetCount s) (currentFineIndex s) (fineSweepFreq s) (fineSweepEnd s) (fineSweepStep
    s) (fineLastSampleTime s) v (lastIpk s) (pwmFreq s) (pwmDuty s) (pwmLog s) (adcReads s).

Definition set_lastIpk (v : float) (s : State) : State :=
  mkState (START_FREQ s) (END_FREQ s) (resonantFreq s) (maxAmplitude s) (currAmplitude s)
    (resonantIpk s) (resonantIpp s) (testRunning s) (testComplete s) (freqs s) (amplitudes s)
    (dataPoints s) (totalSteps s) (stepIndex s) (storeEvery s) (currentTestFreq s) (bestHarmFreq
    s) (bestHarmAmp s) (lastSampleTime s) (coarsePhase s) (finePhase s) (fineTargets s)
    (fineTargetCount s) (currentFineIndex s) (fineSweepFreq s) (fineSweepEnd s) (fineSweepStep
    s) (fineLastSampleTime s) (lastIpp s) v (pwmFreq s) (pwmDuty s) (pwmLog s) (adcReads s).

Definition set_pwmFreq (v : Z) (s : State) : State :=
  mkState (START_FREQ s) (END_FREQ s) (resonantFreq s) (maxAmplitude s) (currAmplitude s)
    (resonantIpk s) (resonantIpp s) (testRunning s) (testComplete s) (freqs s) (amplitudes s)
    (dataPoints s) (totalSteps s) (stepIndex s) (storeEvery s) (currentTestFreq s) (bestHarmFreq
    s) (bestHarmAmp s) (lastSampleTime s) (coarsePhase s) (finePhase s) (fineTargets s)
    (fineTargetCount s) (currentFineIndex s) (fineSweepFreq s) (fineSweepEnd s) (fineSweepStep
    s) (fineLastSampleTime s) (lastIpp s) (lastIpk s) v (pwmDuty s) (pwmLog s) (adcReads s).

Definition set_pwmDuty (v : Z) (s : State) : State :=
  mkState (START_FREQ s) (END_FREQ s) (resonantFreq s) (maxAmplitude s) (currAmplitude s)
    (resonantIpk s) (resonantIpp s) (testRunning s) (testComplete s) (freqs s) (amplitudes s)
    (dataPoints s) (totalSteps s) (stepIndex s) (storeEvery s) (currentTestFreq s) (bestHarmFreq
    s) (bestHarmAmp s) (lastSampleTime s) (coarsePhase s) (finePhase s) (fineTargets s)
    (fineTargetCount s) (currentFineIndex s) (fineSweepFreq s) (fineSweepEnd s) (fineSweepStep
    s) (fineLastSampleTime s) (lastIpp s) (lastIpk s) (pwmFreq s) v (pwmLog s) (adcReads s).

Definition set_pwmLog (v : list GenCmd) (s : State) : State :=
  mkState (START_FREQ s) (END_FREQ s) (resonantFreq s) (maxAmplitude s) (currAmplitude s)
    (resonantIpk s) (resonantIpp s) (testRunning s) (testComplete s) (freqs s) (amplitudes s)
    (dataPoints s) (totalSteps s) (stepIndex s) (storeEvery s) (currentTestFreq s) (bestHarmFreq
    s) (bestHarmAmp s) (lastSampleTime s) (coarsePhase s) (finePhase s) (fineTargets s)
    (fineTargetCount s) (currentFineIndex s) (fineSweepFreq s) (fineSweepEnd s) (fineSweepStep
    s) (fineLastSampleTime s) (lastIpp s) (lastIpk s) (pwmFreq s) (pwmDuty s) v (adcReads s).

Definition set_adcReads (v : Z) (s : State) : State :=
  mkState (START_FREQ s) (END_FREQ s) (resonantFreq s) (maxAmplitude s) (currAmplitude s)
    (resonantIpk s) (resonantIpp s) (testRunning s) (testComplete s) (freqs s) (amplitudes s)
    (dataPoints s) (totalSteps s) (stepIndex s) (storeEvery s) (currentTestFreq s) (bestHarmFreq
    s) (bestHarmAmp s) (lastSampleTime s) (coarsePhase s) (finePhase s) (fineTargets s)
    (fineTargetCount s) (currentFineIndex s) (fineSweepFreq s) (fineSweepEnd s) (fineSweepStep
    s) (fineLastSampleTime s) (lastIpp s) (lastIpk s) (pwmFreq s) (pwmDuty s) (pwmLog s) v.

(** Globals after [setup()] has copied the selected band. *)
Definition init_state (start_f end_f : Z) : State :=
  {| START_FREQ := start_f; END_FREQ := end_f;
     resonantFreq := 0; maxAmplitude := fzero; currAmplitude := fzero;
     resonantIpk := fzero; resonantIpp := fzero;
     testRunning := false; testComplete := false;
     freqs := replicate (Z.to_nat MAX_DATA_POINTS) 0;
     amplitudes := replicate (Z.to_nat MAX_DATA_POINTS) fzero;
     dataPoints := 0;
     totalSteps := 0; stepIndex := 0; storeEvery := 1; currentTestFreq := 0;
     bestHarmFreq := 0; bestHarmAmp := fzero;
     lastSampleTime := 0;
     coarsePhase := false; finePhase := false;
     fineTargets := replicate (Z.to_nat MAX_FINE_TARGETS) (mkFineTarget 0 0 fzero false);
     fineTargetCount := 0; currentFineIndex := 0;
     fineSweepFreq := 0; fineSweepEnd := 0; fineSweepStep := FINE_STEP;
     fineLastSampleTime := 0;
     lastIpp := fzero; lastIpk := fzero;
     pwmFreq := 0; pwmDuty := 0; pwmLog := [Stop]; adcReads := 0 |}.

(** The stored coarse curve: the first [dataPoints] cells of the arrays. *)
Definition curve_freqs (s : State) : list Z :=
  take (Z.to_nat (dataPoints s)) (freqs s).

Definition curve_amps (s : State) : list float :=
  take (Z.to_nat (dataPoints s)) (amplitudes s).

(** The prepared targets: the first [fineTargetCount] cells. *)
Definition targets (s : State) : list FineTarget :=
  take (Z.to_nat (fineTargetCount s)) (fineTargets s).

(** ** PWM control *)

Definition setFrequency (freq : Z) (s : State) : State :=
  let s := set_pwmFreq freq s in
  let s := set_pwmDuty 128 s in
  set_pwmLog (SetFreq freq :: pwmLog s) s.

Definition stopPWM (s : State) : State :=
  let s := set_pwmDuty 0 s in
  set_pwmLog (Stop :: pwmLog s) s.

(** The local [struct Peak] of [prepareFineTargets]. *)
Record Peak := mkPeak { peak_idx : Z; peak_amp : float; peak_f : Z }.

#[global] Instance Peak_inhabited : Inhabited Peak := populate (mkPeak 0 fzero 0).

(** ** The scanner *)

Section Scanner.

(** [adc f k]: the code returned by the [k]-th [analogRead] of the
    current sensor while the generator is programmed at [f] Hz. *)
Variable adc : Z -> Z -> Z.

(** *** Amplitude sampler *)

(** The reading loop of [measureCurrent]: [n] conversions, tracking the
    running maximum and minimum. *)
Fixpoint read_loop (n : nat) (f : Z) (k : Z) (imax imin : Z) : Z * Z * Z :=
  match n with
  | O => (imax, imin, k)
  | S n' =>
      let iraw := adc f k in
      let imax := if iraw >? imax then iraw else imax in
      let imin := if iraw <? imin then iraw else imin in
      read_loop n' f (k + 1) imax imin
  end.

Definition measureCurrent (s : State) : State :=
  let '(imax, imin, k) := read_loop 50 (pwmFreq s) (adcReads s) 0 4095 in
  let i_adc_vpp := fmul (fdiv (of_Z (i32 (imax - imin))) ADC_MAX) VREF in
  let i_peak := fdiv (fdiv i_adc_vpp (of_Z 2)) ACS_SENSITIVITY in
  let i_pp := fdiv i_adc_vpp ACS_SENSITIVITY in
  let s := set_adcReads k s in
  let s := set_lastIpp i_pp s in
  set_lastIpk i_peak s.

(** The averaging loop shared by both sweeps: [n] bursts, summing
    [lastIpk]. *)
Fixpoint burst_loop (n : nat) (s : State) (sum : float) : State * float :=
  match n with
  | O => (s, sum)
  | S n' =>
      let s := measureCurrent s in
      burst_loop n' s (fadd sum (lastIpk s))
  end.

(** *** Start of a sweep *)

Definition startTwoPassTest (now : Z) (s : State) : State :=
  let s := set_maxAmplitude fzero s in
  let s := set_resonantFreq 0 s in
  let s := set_resonantIpk fzero s in
  let s := set_resonantIpp fzero s in
  let s := set_bestHarmFreq 0 s in
  let s := set_bestHarmAmp fzero s in
  let s := set_dataPoints 0 s in
  let s := set_currentTestFreq (START_FREQ s) s in
  let s := set_totalSteps 0 s in
  let s :=
    if (END_FREQ s >? START_FREQ s) && (FREQ_STEP >? 0)
    then set_totalSteps (u32 (u32 (END_FREQ s - START_FREQ s) / FREQ_STEP + 1)) s
    else set_totalSteps 1 s in
  let s := set_stepIndex 0 s in
  let s := set_storeEvery (u32 (totalSteps s + (MAX_DATA_POINTS - 1)) / MAX_DATA_POINTS) s in
  let s := if storeEvery s <? 1 then set_storeEvery 1 s else s in
  let s := setFrequency (currentTestFreq s) s in
  let s := set_lastSampleTime now s in
  let s := set_coarsePhase true s in
  let s := set_finePhase false s in
  let s := set_fineTargetCount 0 s in
  set_currentFineIndex 0 s.

(** *** Peak/target selector *)

(** [amplitudes[i]] is a strict local maximum of at least [minPeakAmp]. *)
Definition is_peak (s : State) (minPeakAmp : float) (i : Z) : bool :=
  let a := amplitudes s !!! Z.to_nat i in
  fgt a (amplitudes s !!! Z.to_nat (i - 1))
  && fgt a (amplitudes s !!! Z.to_nat (i + 1))
  && fge a minPeakAmp.

(** The peak scan of [prepareFineTargets], [n] indices from [i] on; it
    stops when the local array is full. *)
Fixpoint find_peaks (n : nat) (i : Z) (s : State) (minPeakAmp : float)
    (peaks : list Peak) : list Peak :=
  match n with
  | O => peaks
  | S n' =>
      if is_peak s minPeakAmp i then
        let peaks :=
          peaks ++ [mkPeak i (amplitudes s !!! Z.to_nat i) (freqs s !!! Z.to_nat i)] in
        if Z.of_nat (length peaks) >=? MAX_DATA_POINTS then peaks
        else find_peaks n' (i + 1) s minPeakAmp peaks
      else find_peaks n' (i + 1) s minPeakAmp peaks
  end.

(** Selection sort by descending amplitude: the inner loop returns the
    index of the first largest amplitude among [j .. j+n-1] and [best]. *)
Fixpoint sort_best (n : nat) (j : nat) (peaks : list Peak) (best : nat) : nat :=
  match n with
  | O => best
  | S n' =>
      let best := if fgt (peak_amp (peaks !!! j)) (peak_amp (peaks !!! best)) then j else best in
      sort_best n' (S j) peaks best
  end.

Fixpoint sort_from (n : nat) (i : nat) (peaks : list Peak) : list Peak :=
  match n with
  | O => peaks
  | S n' =>
      let best := sort_best (length peaks - S i) (S i) peaks i in
      let peaks :=
        if Nat.eqb best i then peaks
        else
          let tmp := peaks !!! i in
          <[best := tmp]> (<[i := peaks !!! best]> peaks) in
      sort_from n' (S i) peaks
  end.

Definition sort_peaks (peaks : list Peak) : list Peak :=
  sort_from (length peaks - 1) 0 peaks.

(** The duplicate test: some target [t .. t+n-1] has its centre within
    [window] of [f]. *)
Fixpoint dup_loop (n : nat) (t : nat) (tg : list FineTarget) (f window : Z) : bool :=
  match n with
  | O => false
  | S n' =>
      if abs_int (i32 (i32 (center (tg !!! t)) - i32 f)) <=? i32 window then true
      else dup_loop n' (S t) tg f window
  end.

(** The body of the acceptance loop for one peak: the peak becomes the
    next target when it lies outside the window around the resonance
    and around every target accepted so far. *)
Definition accept_step (pk : Peak) (s : State) : State :=
  let f := peak_f pk in
  let window := u32 (FREQ_STEP * 4) in
  if (f >? u32 (resonantFreq s + window)) || (u32 (f + window) <? resonantFreq s)
  then
    let dup := dup_loop (Z.to_nat (fineTargetCount s)) 0 (fineTargets s) f window in
    if negb dup then
      let s :=
        set_fineTargets
          (<[Z.to_nat (fineTargetCount s) := mkFineTarget f f (peak_amp pk) true]>
             (fineTargets s)) s in
      set_fineTargetCount (i32 (fineTargetCount s + 1)) s
    else s
  else s.

(** The acceptance loop over the sorted peaks; it ends when the peaks
    are exhausted or [MAX_FINE_TARGETS] targets are collected. *)
Fixpoint accept_loop (peaks : list Peak) (s : State) : State :=
  match peaks with
  | [] => s
  | pk :: rest =>
      if fineTargetCount s <? MAX_FINE_TARGETS
      then accept_loop rest (accept_step pk s)
      else s
  end.

Definition prepareFineTargets (s : State) : State :=
  let s := set_fineTargetCount 0 s in
  if (resonantFreq s =? 0) || (dataPoints s <? 3) then s
  else
    let minPeakAmp := fmul (maxAmplitude s) (lit 8 100) in
    let minPeakAmp := if flt minPeakAmp (lit 1 100) then lit 1 100 else minPeakAmp in
    let peaks := find_peaks (Z.to_nat (dataPoints s - 2)) 1 s minPeakAmp [] in
    let peaks := sort_peaks peaks in
    let s :=
      set_fineTargets
        (<[0%nat := mkFineTarget (resonantFreq s) (resonantFreq s) (maxAmplitude s) true]>
           (fineTargets s)) s in
    let s := set_fineTargetCount 1 s in
    accept_loop peaks s.

(** *** Fine refiner *)

Definition startFineTarget (now : Z) (index : Z) (s : State) : State :=
  if (index <? 0) || (index >=? fineTargetCount s) then s
  else
    let center := center (fineTargets s !!! Z.to_nat index) in
    let startF := if center >? FINE_WINDOW then u32 (center - FINE_WINDOW) else START_FREQ s in
    let endF := u32 (center + FINE_WINDOW) in
    let endF := if endF >? END_FREQ s then END_FREQ s else endF in
    let s := set_fineSweepFreq startF s in
    let s := set_fineSweepEnd endF s in
    let s := set_fineSweepStep FINE_STEP s in
    let s := set_fineTargets (alter (set_bestFreq center) (Z.to_nat index) (fineTargets s)) s in
    let s := set_fineTargets (alter (set_bestAmp fzero) (Z.to_nat index) (fineTargets s)) s in
    let s := set_fineLastSampleTime now s in
    setFrequency (fineSweepFreq s) s.

(** *** Harmonic classifier *)

(** The ratio test on [ratio = num / den]: the nearest integer is at
    least 2 and the ratio is within [tol] of it. *)
Definition ratio_ok (tol num den : float) : bool :=
  let ratio := fdiv num den in
  let n := round_int ratio in
  (n >=? 2) && fle (fabs (fsub ratio (of_Z n))) tol.

(** The peak scan of [computeBestHarmonicFromCoarse]: indices only. *)
Fixpoint find_peak_indices (n : nat) (i : Z) (s : State) (minPeakAmp : float)
    (peakIndices : list Z) : list Z :=
  match n with
  | O => peakIndices
  | S n' =>
      if is_peak s minPeakAmp i then
        let peakIndices := peakIndices ++ [i] in
        if Z.of_nat (length peakIndices) >=? MAX_DATA_POINTS then peakIndices
        else find_peak_indices n' (i + 1) s minPeakAmp peakIndices
      else find_peak_indices n' (i + 1) s minPeakAmp peakIndices
  end.

(** One iteration of the ratio loop over the coarse peaks. *)
Definition coarse_ratio_step (tol : float) (s : State) (idx : Z) : State :=
  let a := amplitudes s !!! Z.to_nat idx in
  let fq := freqs s !!! Z.to_nat idx in
  let s :=
    if ratio_ok tol (of_Z fq) (of_Z (resonantFreq s)) && fgt a (bestHarmAmp s)
    then set_bestHarmFreq fq (set_bestHarmAmp a s)
    else s in
  if ratio_ok tol (of_Z (resonantFreq s)) (of_Z fq) && fgt a (bestHarmAmp s)
  then set_bestHarmFreq fq (set_bestHarmAmp a s)
  else s.

(** The fallback loop over the whole curve, [n] cells from [i] on:
    the largest amplitude outside the window around the fundamental. *)
Fixpoint fallback_loop (n : nat) (i : nat) (s : State) (bestAmp : float) (bestF : Z)
    : float * Z :=
  match n with
  | O => (bestAmp, bestF)
  | S n' =>
      let fq := freqs s !!! i in
      let fundamentalWindow := u32 (FREQ_STEP * 3) in
      if (fq >? u32 (resonantFreq s + fundamentalWindow))
         || (u32 (fq + fundamentalWindow) <? resonantFreq s)
      then
        if fgt (amplitudes s !!! i) bestAmp
        then fallback_loop n' (S i) s (amplitudes s !!! i) fq
        else fallback_loop n' (S i) s bestAmp bestF
      else fallback_loop n' (S i) s bestAmp bestF
  end.

Definition computeBestHarmonicFromCoarse (s : State) : State :=
  let s := set_bestHarmFreq 0 s in
  let s := set_bestHarmAmp fzero s in
  if (resonantFreq s =? 0) || (dataPoints s <? 3) then s
  else
    let minPeakAmp := fmul (maxAmplitude s) (lit 12 100) in
    let minPeakAmp := if flt minPeakAmp (lit 1 100) then lit 1 100 else minPeakAmp in
    let peakIndices := find_peak_indices (Z.to_nat (dataPoints s - 2)) 1 s minPeakAmp [] in
    let tol := lit 12 100 in
    let s := fold_left (coarse_ratio_step tol) peakIndices s in
    if bestHarmFreq s =? 0 then
      let '(bestAmp, bestF) := fallback_loop (Z.to_nat (dataPoints s)) 0 s fzero 0 in
      if negb (bestF =? 0)
      then set_bestHarmAmp bestAmp (set_bestHarmFreq bestF s)
      else s
    else s.

(** One iteration of the loop over the refined targets. *)
Definition fine_harmonic_step (tol : float) (s : State) (t : FineTarget) : State :=
  let fq := bestFreq t in
  let amp := bestAmp t in
  if (fq =? 0) || fle amp fzero then s
  else if abs_int (i32 (i32 fq - i32 (resonantFreq s))) <=? i32 FINE_STEP then s
  else if ratio_ok tol (of_Z fq) (of_Z (resonantFreq s)) && fgt amp (bestHarmAmp s)
  then set_bestHarmFreq fq (set_bestHarmAmp amp s)
  else if ratio_ok tol (of_Z (resonantFreq s)) (of_Z fq) && fgt amp (bestHarmAmp s)
  then set_bestHarmFreq fq (set_bestHarmAmp amp s)
  else if fgt amp (bestHarmAmp s)
  then set_bestHarmFreq fq (set_bestHarmAmp amp s)
  else s.

(** The loop of [computeBestHarmonicFromFine] over the targets. *)
Definition fine_harmonic_loop (s : State) : State :=
  fold_left (fine_harmonic_step (lit 8 100)) (targets s) s.

Definition computeBestHarmonicFromFine (s : State) : State :=
  let s := set_bestHarmFreq 0 s in
  let s := set_bestHarmAmp fzero s in
  if resonantFreq s =? 0 then s
  else
    let s := fine_harmonic_loop s in
    if bestHarmFreq s =? 0 then computeBestHarmonicFromCoarse s else s.

(** *** Sweep controller *)

Definition processCoarseSweep (currentMillis : Z) (s : State) : State :=
  if currentTestFreq s >? END_FREQ s then
    let s := stopPWM s in
    let s := set_coarsePhase false s in
    let s := prepareFineTargets s in
    if fineTargetCount s >? 0 then
      let s := set_currentFineIndex 0 s in
      let s := startFineTarget currentMillis (currentFineIndex s) s in
      set_finePhase true s
    else
      let s := computeBestHarmonicFromCoarse s in
      let s := set_testRunning false s in
      set_testComplete true s
  else if u32 (currentMillis - lastSampleTime s) >=? STABILIZE_DELAY then
    let '(s, sumAmplitude) := burst_loop (Z.to_nat SAMPLES_PER_FREQ) s fzero in
    let s := set_currAmplitude (fdiv sumAmplitude (of_Z SAMPLES_PER_FREQ)) s in
    let s :=
      if fgt (currAmplitude s) (maxAmplitude s) then
        let s := set_maxAmplitude (currAmplitude s) s in
        let s := set_resonantFreq (currentTestFreq s) s in
        let s := set_resonantIpk (currAmplitude s) s in
        set_resonantIpp (lastIpp s) s
      else s in
    let s :=
      if dataPoints s <? MAX_DATA_POINTS then
        if (stepIndex s mod storeEvery s =? 0) || (dataPoints s =? 0)
           || (currentTestFreq s >=? END_FREQ s)
        then
          let s :=
            set_freqs (<[Z.to_nat (dataPoints s) := currentTestFreq s]> (freqs s)) s in
          let s :=
            set_amplitudes (<[Z.to_nat (dataPoints s) := currAmplitude s]> (amplitudes s)) s in
          set_dataPoints (i32 (dataPoints s + 1)) s
        else s
      else s in
    let s := set_currentTestFreq (u32 (currentTestFreq s + FREQ_STEP)) s in
    let s := set_stepIndex (u32 (stepIndex s + 1)) s in
    let s := setFrequency (currentTestFreq s) s in
    set_lastSampleTime currentMillis s
  else s.

Definition processFineSweep (currentMillis : Z) (s : State) : State :=
  if currentFineIndex s >=? fineTargetCount s then
    let s := set_finePhase false s in
    let s := computeBestHarmonicFromFine s in
    let s := set_testRunning false s in
    set_testComplete true s
  else if u32 (currentMillis - fineLastSampleTime s) >=? STABILIZE_DELAY then
    let '(s, sumAmp) := burst_loop (Z.to_nat FINE_SAMPLES_PER_FREQ) s fzero in
    let avgAmp := fdiv sumAmp (of_Z FINE_SAMPLES_PER_FREQ) in
    let i := Z.to_nat (currentFineIndex s) in
    let s :=
      if fgt avgAmp (bestAmp (fineTargets s !!! i)) then
        let s := set_fineTargets (alter (set_bestAmp avgAmp) i (fineTargets s)) s in
        let s :=
          set_fineTargets (alter (set_bestFreq (fineSweepFreq s)) i (fineTargets s)) s in
        if fgt avgAmp (maxAmplitude s) then
          let s := set_maxAmplitude avgAmp s in
          let s := set_resonantFreq (fineSweepFreq s) s in
          let s := set_resonantIpk avgAmp s in
          set_resonantIpp (lastIpp s) s
        else s
      else s in
    let s :=
      if u32 (fineSweepFreq s + fineSweepStep s) >? fineSweepEnd s then
        let s := set_currentFineIndex (i32 (currentFineIndex s + 1)) s in
        if currentFineIndex s <? fineTargetCount s
        then startFineTarget currentMillis (currentFineIndex s) s
        else s
      else
        let s := set_fineSweepFreq (u32 (fineSweepFreq s + fineSweepStep s)) s in
        setFrequency (fineSweepFreq s) s in
    set_fineLastSampleTime currentMillis s
  else s.

(** The sweep part of [loop()], called at time [now]: one tick. *)
Definition loop (now : Z) (s : State) : State :=
  if testRunning s then
    if coarsePhase s then processCoarseSweep now s
    else if finePhase s then processFineSweep now s
    else s
  else s.

(** A press of START on an idle controller, as [loop()] handles it. *)
Definition press_start (now : Z) (s : State) : State :=
  if negb (testRunning s) && negb (testComplete s)
  then startTwoPassTest now (set_testRunning true s)
  else s.

(** The controller after the ticks at the times [ticks], in order. *)
Definition run (ticks : list Z) (s : State) : State :=
  fold_left (fun s now => loop now s) ticks s.

End Scanner.

(** * Specification vocabulary *)

(** The arrays have their declared sizes and the frequencies are
    [unsigned int] values. *)
Record wf_state (s : State) : Prop := {
  wf_freqs_len : length (freqs s) = Z.to_nat MAX_DATA_POINTS;
  wf_amps_len : length (amplitudes s) = Z.to_nat MAX_DATA_POINTS;
  wf_targets_len : length (fineTargets s) = Z.to_nat MAX_FINE_TARGETS;
  wf_freqs_range : Forall (fun x => 0 <= x < 2 ^ 32) (freqs s);
  wf_resonant_range : 0 <= resonantFreq s < 2 ^ 32
}.

Definition far (w a b : Z) : Prop := Z.abs (a - b) > w.

(** No two distinct cells of [l] have centres within [w] of each other. *)
Definition far_apart (w : Z) (l : list FineTarget) : Prop :=
  forall i j ti tj, i <> j -> l !! i = Some ti -> l !! j = Some tj ->
    far w (center ti) (center tj).

(** Reduction of the projections of [State] over its setters. *)
Ltac st :=
  cbn [
    START_FREQ END_FREQ resonantFreq maxAmplitude currAmplitude resonantIpk resonantIpp
    testRunning testComplete freqs amplitudes dataPoints totalSteps stepIndex storeEvery
    currentTestFreq bestHarmFreq bestHarmAmp lastSampleTime coarsePhase finePhase
    fineTargets fineTargetCount currentFineIndex fineSweepFreq fineSweepEnd fineSweepStep
    fineLastSampleTime lastIpp lastIpk pwmFreq pwmDuty pwmLog adcReads set_resonantFreq
    set_maxAmplitude set_currAmplitude set_resonantIpk set_resonantIpp set_testRunning
    set_testComplete set_freqs set_amplitudes set_dataPoints set_totalSteps set_stepIndex
    set_storeEvery set_currentTestFreq set_bestHarmFreq set_bestHarmAmp set_lastSampleTime
    set_coarsePhase set_finePhase set_fineTargets set_fineTargetCount set_currentFineIndex
    set_fineSweepFreq set_fineSweepEnd set_fineSweepStep set_fineLastSampleTime
    set_lastIpp set_lastIpk set_pwmFreq set_pwmDuty set_pwmLog set_adcReads setFrequency
    stopPWM center bestFreq bestAmp used set_bestFreq set_bestAmp ].

Ltac st_in H :=
  cbn [
    START_FREQ END_FREQ resonantFreq maxAmplitude currAmplitude resonantIpk resonantIpp
    testRunning testComplete freqs amplitudes dataPoints totalSteps stepIndex storeEvery
    currentTestFreq bestHarmFreq bestHarmAmp lastSampleTime coarsePhase finePhase
    fineTargets fineTargetCount currentFineIndex fineSweepFreq fineSweepEnd fineSweepStep
    fineLastSampleTime lastIpp lastIpk pwmFreq pwmDuty pwmLog adcReads set_resonantFreq
    set_maxAmplitude set_currAmplitude set_resonantIpk set_resonantIpp set_testRunning
    set_testComplete set_freqs set_amplitudes set_dataPoints set_totalSteps set_stepIndex
    set_storeEvery set_currentTestFreq set_bestHarmFreq set_bestHarmAmp set_lastSampleTime
    set_coarsePhase set_finePhase set_fineTargets set_fineTargetCount set_currentFineIndex
    set_fineSweepFreq set_fineSweepEnd set_fineSweepStep set_fineLastSampleTime
    set_lastIpp set_lastIpk set_pwmFreq set_pwmDuty set_pwmLog set_adcReads setFrequency
    stopPWM center bestFreq bestAmp used set_bestFreq set_bestAmp ] in H.

(** The accumulated targets while the acceptance loop runs. *)
Record accept_inv (r : Z) (t0 : FineTarget) (s : State) : Prop := {
  ai_count : 1 <= fineTargetCount s <= MAX_FINE_TARGETS;
  ai_len : length (fineTargets s) = Z.to_nat MAX_FINE_TARGETS;
  ai_far : far_apart (FREQ_STEP * 4) (targets s);
  ai_range : Forall (fun u => 0 <= center u < 2 ^ 32) (targets s);
  ai_first : fineTargets s !! 0%nat = Some t0;
  ai_res : resonantFreq s = r
}.

Definition peak_in_range (pk : Peak) : Prop := 0 <= peak_f pk < 2 ^ 32.

(** Only the two harmonic results differ. *)
Definition harm_only (s s' : State) : Prop :=
  exists fq a, s' = set_bestHarmFreq fq (set_bestHarmAmp a s).

(** Only the sampler's globals differ: the conversion count and the two
    last currents. *)
Definition meas_only (s s' : State) : Prop :=
  exists k ipp ipk, s' = set_lastIpk ipk (set_lastIpp ipp (set_adcReads k s)).

(** [x] is [y] or lies strictly below it. *)
Definition fle_prop (x y : float) : Prop := x = y \/ flt x y = true.

(** One step leaves the maximum and the resonance alone, or raises the
    maximum strictly. *)
Definition max_step (s s' : State) : Prop :=
  (maxAmplitude s' = maxAmplitude s /\ resonantFreq s' = resonantFreq s)
  \/ flt (maxAmplitude s) (maxAmplitude s') = true.

(** The band, the stored curve, the decimation stride, the coarse flag,
    the number of targets and their centres. *)
Definition coarse_view (s : State) :=
  (START_FREQ s, END_FREQ s, freqs s, amplitudes s, dataPoints s, storeEvery s,
   coarsePhase s, fineTargetCount s, center <$> fineTargets s).

(** The decimation stride that [startTwoPassTest] computes for a band. *)
Definition stride (st en : Z) : Z :=
  if en >? st
  then ((en - st) / FREQ_STEP + 1 + (MAX_DATA_POINTS - 1)) / MAX_DATA_POINTS
  else 1.

(** [x] is the frequency of a step of the sweep from [st] that the
    decimation keeps: a multiple of the stride, or the end of the band. *)
Definition on_grid (st en every x : Z) : Prop :=
  exists k, 0 <= k /\ x = st + FREQ_STEP * k /\ (k mod every = 0 \/ en <= x).

Record curve_inv (st en : Z) (s : State) : Prop := {
  ci_start : START_FREQ s = st;
  ci_end : END_FREQ s = en;
  ci_len : length (freqs s) = Z.to_nat MAX_DATA_POINTS;
  ci_points : 0 <= dataPoints s <= MAX_DATA_POINTS;
  ci_sorted : StronglySorted Z.lt (curve_freqs s);
  ci_stride : storeEvery s = stride st en;
  ci_grid : Forall (on_grid st en (storeEvery s)) (curve_freqs s);
  ci_coarse :
    coarsePhase s = true ->
    0 <= stepIndex s
    /\ currentTestFreq s = st + FREQ_STEP * stepIndex s
    /\ currentTestFreq s < 2 ^ 32
    /\ Forall (fun x => x < currentTestFreq s) (curve_freqs s)
    /\ (dataPoints s = 0 -> stepIndex s = 0)
}.

(** The fields of the invariant that only the sampling step writes. *)
Definition curve_view (s : State) :=
  (START_FREQ s, END_FREQ s, freqs s, amplitudes s, dataPoints s, storeEvery s).

(** The flags, the band and the harmonic results. *)
Definition control_view (s : State) :=
  (START_FREQ s, END_FREQ s, testRunning s, testComplete s, coarsePhase s, finePhase s,
   bestHarmFreq s, bestHarmAmp s, fineTargetCount s).

(** Every tick comes at least [STABILIZE_DELAY] ms after the previous
    one ([last] is the time of the previous step), as the gate of the
    sketch measures it. *)
Fixpoint paced (last : Z) (ticks : list Z) : bool :=
  match ticks with
  | [] => true
  | t :: rest => (u32 (t - last) >=? STABILIZE_DELAY) && paced t rest
  end.

(** Number of sampling steps left in the coarse sweep. *)
Definition steps_left (s : State) : nat :=
  Z.to_nat ((END_FREQ s + FREQ_STEP - currentTestFreq s) / FREQ_STEP).

(** Nothing was found so far. *)
Definition quiet (s : State) : Prop :=
  maxAmplitude s = fzero /\ resonantFreq s = 0 /\ bestHarmFreq s = 0
  /\ finePhase s = false.

(** The harmonic found so far is none, or differs from the fundamental. *)
Definition not_fundamental (s : State) : Prop :=
  bestHarmFreq s = 0 \/ bestHarmFreq s <> resonantFreq s.

(** The harmonic found so far is none, or is more than [w] away from
    the fundamental. *)
Definition outside (w : Z) (s : State) : Prop :=
  bestHarmFreq s = 0 \/ far w (bestHarmFreq s) (resonantFreq s).

(** Every step sampled so far whose index is a multiple of the stride is
    in the stored curve; while the sweep is inside the band the curve
    holds exactly one point per stride begun. *)
Definition kept (st : Z) (s : State) : Prop :=
  (forall j, 0 <= j < stepIndex s -> j mod storeEvery s = 0 ->
     st + FREQ_STEP * j ∈ curve_freqs s)
  /\ (coarsePhase s = true -> currentTestFreq s <= END_FREQ s ->
      dataPoints s = (stepIndex s + storeEvery s - 1) / storeEvery s).

(** ** Test benches *)

(** [n] ticks, one every [STABILIZE_DELAY] ms after [t0]. *)
Definition ticks_every (t0 : Z) (n : nat) : list Z :=
  map (fun i => t0 + STABILIZE_DELAY * Z.of_nat i) (seq 1 n).

(** A current sensor whose code alternates between 2000 and 2000 plus
    the swing of the load at the driven frequency. *)
Definition sensor (swing : Z -> Z -> Z) (fq k : Z) : Z :=
  if Z.even k then 2000 else 2000 + swing fq k.

(** The 20-46 kHz band, START pressed at time 0. *)
Definition started : State := press_start 0 (init_state 20000 46000).

(** A load that resonates at the low edge of the band; the state after
    the 521 coarse steps and the tick that enters the fine phase. *)
Definition edge_swing (fq k : Z) : Z := if fq =? 20000 then 400 else 10.

Definition edge_run : State := run (sensor edge_swing) (ticks_every 0 522) started.

(** A load with a resonance at 20.8 kHz, a weaker unrelated resonance at
    30 kHz and a still weaker second harmonic at 41.6 kHz; the state
    after the complete two-pass sweep. *)
Definition ladder_swing (fq k : Z) : Z :=
  if fq =? 20800 then 400 else if fq =? 30000 then 200 else if fq =? 41600 then 120 else 10.

Definition ladder_run : State := run (sensor ladder_swing) (ticks_every 0 1126) started.

(** A load whose resonance at 20.8 kHz has moved to 20.85 kHz and
    weakened by the time of the fine pass (after 521000 conversions). *)
Definition drift_swing (fq k : Z) : Z :=
  if k <? 521000 then (if fq =? 20800 then 400 else 10)
  else (if fq =? 20850 then 300 else 10).

Definition drift_run : State := run (sensor drift_swing) (ticks_every 0 724) started.

(** A load without resonance: a swing of one code at every frequency. *)
Definition hum_run : State := run (sensor (fun _ _ => 1)) (ticks_every 0 724) started.

(** A finished coarse sweep with five stored points, peaks at 30 kHz
    and 41 kHz. *)
Definition five_points : State :=
  set_currentTestFreq 46050
    (set_dataPoints 5
       (set_maxAmplitude (of_Z 1)
          (set_resonantFreq 30000
             (set_amplitudes
                ([lit 1 10; of_Z 1; lit 2 10; lit 5 10; lit 2 10] ++ replicate 65 fzero)
                (set_freqs ([20000; 30000; 40000; 41000; 42000] ++ replicate 65 0)
                   (set_testRunning true (init_state 20000 46000))))))).

(** ** Vocabulary for further properties *)

(** The loop body of [computeBestHarmonicFromFine] without its two ratio
    tests: the target is taken when it is stronger than the best so far. *)
Definition strongest_step (s : State) (t : FineTarget) : State :=
  let fq := bestFreq t in
  let amp := bestAmp t in
  if (fq =? 0) || fle amp fzero then s
  else if abs_int (i32 (i32 fq - i32 (resonantFreq s))) <=? i32 FINE_STEP then s
  else if fgt amp (bestHarmAmp s)
  then set_bestHarmFreq fq (set_bestHarmAmp amp s)
  else s.

(** The generator commands of [l'] are those of [l] preceded by
    [setFrequency] commands only. *)
Definition only_set_freq_added (l l' : list GenCmd) : Prop :=
  exists cmds, l' = cmds ++ l /\ Forall (fun c => c <> Stop) cmds.

(** No stored amplitude of the coarse curve exceeds the running maximum. *)
Definition dominated (s : State) : Prop :=
  Forall (fun a => flt (maxAmplitude s) a = false) (curve_amps s).

Record dominated_inv (s : State) : Prop := {
  di_len : length (amplitudes s) = Z.to_nat MAX_DATA_POINTS;
  di_points : 0 <= dataPoints s <= MAX_DATA_POINTS;
  di_dominated : dominated s
}.

(** Every [setFrequency] command of [cmds] programs at most [en] Hz. *)
Definition cmds_below (en : Z) (cmds : list GenCmd) : Prop :=
  Forall (fun c => match c with SetFreq fq => fq <= en | Stop => True end) cmds.

(** The commands of [l'] are those of [l] preceded by commands that
    program at most [en] Hz. *)
Definition added_below (en : Z) (l l' : list GenCmd) : Prop :=
  exists cmds, l' = cmds ++ l /\ cmds_below en cmds.

(** The window of the fine sweep ends inside the band, the band is not
    inverted and the centres of the targets are at most [FINE_WINDOW]
    above its end. *)
Record fine_inv (s : State) : Prop := {
  fi_end : fineSweepEnd s <= END_FREQ s;
  fi_band : 0 <= START_FREQ s <= END_FREQ s;
  fi_centers : Forall (fun c => c <= END_FREQ s + FINE_WINDOW) (center <$> fineTargets s)
}.

(** [pk] records the curve at a strict local maximum of at least
    [minPeakAmp] whose index lies in [lo, hi). *)
Definition peak_at (s : State) (minPeakAmp : float) (lo hi : Z) (pk : Peak) : Prop :=
  lo <= peak_idx pk < hi
  /\ is_peak s minPeakAmp (peak_idx pk) = true
  /\ peak_amp pk = amplitudes s !!! Z.to_nat (peak_idx pk)
  /\ peak_f pk = freqs s !!! Z.to_nat (peak_idx pk).

(** ** Band selection menu of [setup()] *)

(** Pin levels of [digitalRead]. *)
Definition LOW : Z := 0.

Definition numBands : Z := Z.of_nat (length bands).

(** The locals of the menu loop of [setup()], with the global
    [bandSelected]. *)
Record Menu := mkMenu {
  bandSelected : Z;
  bandChosen : bool;
  pressStartTime : Z;
  buttonWasPressed : bool
}.

Definition init_menu : Menu := mkMenu 0 false 0 false.

(** One iteration of [while (!bandChosen)]: [menuState] is the level
    read from the START pin and [now] the value of [millis()]. *)
Definition menu_step (m : Menu) (input : Z * Z) : Menu :=
  let '(menuState, now) := input in
  if menuState =? LOW then
    if negb (buttonWasPressed m)
    then mkMenu (bandSelected m) (bandChosen m) now true
    else m
  else
    if buttonWasPressed m then
      let pressDuration := u32 (now - pressStartTime m) in
      let m :=
        if pressDuration >=? 700
        then mkMenu (bandSelected m) true (pressStartTime m) (buttonWasPressed m)
        else if pressDuration >? 20 then
          let sel := i32 (bandSelected m + 1) in
          let sel := if sel >=? numBands then 0 else sel in
          mkMenu sel (bandChosen m) (pressStartTime m) (buttonWasPressed m)
        else m in
      mkMenu (bandSelected m) (bandChosen m) (pressStartTime m) false
    else m.

(** The menu loop over the successive readings; it ends when a band is
    chosen. *)
Fixpoint menu_loop (inputs : list (Z * Z)) (m : Menu) : Menu :=
  match inputs with
  | [] => m
  | input :: rest => if bandChosen m then m else menu_loop rest (menu_step m input)
  end.

(** The globals when [setup()] returns: the band of the selected entry. *)
Definition setup (inputs : list (Z * Z)) : State :=
  let m := menu_loop inputs init_menu in
  let band := bands !!! Z.to_nat (bandSelected m) in
  init_state (fst band) (snd band).

(** ** The START button in [loop()] *)






(** ** Vocabulary for the sampler *)

(** The codes returned by [n] conversions from the [k]-th on, at [fq] Hz. *)
Definition codes (adc : Z -> Z -> Z) (fq k : Z) (n : nat) : list Z :=
  map (fun j => adc fq (k + Z.of_nat j)) (seq 0 n).

(** The currents that [measureCurrent] derives from a swing in codes. *)
Definition ipp_of_swing (d : Z) : float :=
  fdiv (fmul (fdiv (of_Z (i32 d)) ADC_MAX) VREF) ACS_SENSITIVITY.

Definition ipk_of_swing (d : Z) : float :=
  fdiv (fdiv (fmul (fdiv (of_Z (i32 d)) ADC_MAX) VREF) (of_Z 2)) ACS_SENSITIVITY.

(** ** Vocabulary for the sort *)

(** From index [i] on towards the left end nothing is out of order: no
    cell before [i] is followed, anywhere, by a strictly stronger peak. *)
Definition settled (i : nat) (l : list Peak) : Prop :=
  forall p q, (p < i)%nat -> (p < q < length l)%nat ->
    flt (peak_amp (l !!! p)) (peak_amp (l !!! q)) = false.

(** The exchange of the cells [i] and [j], as the sort writes it. *)
Definition swap_cells (l : list Peak) (i j : nat) : list Peak :=
  <[j := l !!! i]> (<[i := l !!! j]> l).

(** ** Vocabulary for the termination of the fine phase *)

(** Advances left in the window in progress. *)
Definition fine_window_left (s : State) : nat :=
  Z.to_nat ((fineSweepEnd s - fineSweepFreq s) / FINE_STEP).

(** A bound on the sampling ticks left in the fine phase: up to 202 for
    each target still to come, and the rest of the window in progress. *)
Definition fine_ticks_left (s : State) : nat :=
  if currentFineIndex s >=? fineTargetCount s then 0%nat
  else (Z.to_nat (fineTargetCount s - currentFineIndex s - 1) * 202
        + fine_window_left s + 1)%nat.

(** A running fine phase on a band that does not wrap. *)
Record fine_run_inv (s : State) : Prop := {
  fr_running : testRunning s = true;
  fr_coarse : coarsePhase s = false;
  fr_fine : finePhase s = true;
  fr_index : 0 <= currentFineIndex s;
  fr_count : fineTargetCount s <= MAX_FINE_TARGETS;
  fr_step : fineSweepStep s = FINE_STEP;
  fr_freq : 0 <= fineSweepFreq s /\ fineSweepFreq s + FINE_STEP < 2 ^ 32;
  fr_end : fineSweepEnd s <= END_FREQ s;
  fr_band : 0 <= START_FREQ s <= END_FREQ s /\ END_FREQ s + FINE_STEP < 2 ^ 32;
  fr_len : length (fineTargets s) = Z.to_nat MAX_FINE_TARGETS;
  fr_centers : Forall (fun c => 0 <= c < 2 ^ 32) (center <$> targets s)
}.

(** The fields that a fine sampling step reads to move on. *)
Definition fine_view (s : State) :=
  (fineSweepFreq s, fineSweepEnd s, fineSweepStep s, currentFineIndex s,
   control_view s, center <$> fineTargets s).

(** ** Further test benches *)

(** The state in which [five_points] enters the fine phase. *)
Definition fine_entry : State := processCoarseSweep (sensor edge_swing) 46065 five_points.

(** A 100 Hz band for short sweeps. *)
Definition short_band : State := init_state 20000 20100.

(** Three peaks in scan order. *)
Definition three_peaks : list Peak :=
  [mkPeak 1 (of_Z 1) 30000; mkPeak 3 (of_Z 3) 41000; mkPeak 5 (of_Z 2) 43000].

(** * Proofs *)

(** ** Facts on machine integers *)

Lemma u32_small z : 0 <= z < 2 ^ 32 -> u32 z = z.
Proof. intros H. unfold u32. apply Z.mod_small. exact H. Qed.

Lemma u32_range z : 0 <= u32 z < 2 ^ 32.
Proof. unfold u32. apply Z.mod_pos_bound. lia. Qed.

Lemma i32_small z : - 2 ^ 31 <= z < 2 ^ 31 -> i32 z = z.
Proof. intros H. unfold i32. rewrite Z.mod_small; lia. Qed.

(** The distance test of the sketch, [abs((int)a - (int)b) <= w], sees
    every pair of words that really are within [w] of each other. *)
Lemma abs_int_near a b w :
  0 <= a < 2 ^ 32 -> 0 <= b < 2 ^ 32 -> 0 <= w < 2 ^ 30 ->
  Z.abs (a - b) <= w ->
  (abs_int (i32 (i32 a - i32 b)) <=? w) = true.
Proof.
  intros Ha Hb Hw Hd.
  assert (E : i32 (i32 a - i32 b) = a - b).
  { unfold i32.
    assert (H1 : exists q, (a + 2 ^ 31) mod 2 ^ 32 = a + 2 ^ 31 - 2 ^ 32 * q).
    { exists ((a + 2 ^ 31) / 2 ^ 32). rewrite Z.mod_eq by lia. lia. }
    assert (H2 : exists q, (b + 2 ^ 31) mod 2 ^ 32 = b + 2 ^ 31 - 2 ^ 32 * q).
    { exists ((b + 2 ^ 31) / 2 ^ 32). rewrite Z.mod_eq by lia. lia. }
    destruct H1 as [q1 ->], H2 as [q2 ->].
    replace (a + 2 ^ 31 - 2 ^ 32 * q1 - 2 ^ 31 - (b + 2 ^ 31 - 2 ^ 32 * q2 - 2 ^ 31) + 2 ^ 31)
      with ((a - b + 2 ^ 31) + (q2 - q1) * 2 ^ 32) by lia.
    rewrite Z.mod_add by lia. rewrite Z.mod_small; lia. }
  rewrite E. unfold abs_int.
  destruct (Z.gtb_spec (a - b) 0) as [Hp | Hp].
  - apply Z.leb_le. lia.
  - rewrite i32_small by lia. apply Z.leb_le. lia.
Qed.

(** ** Facts on binary32 comparisons *)

Lemma flt_irrefl x : flt x x = false.
Proof.
  unfold flt, SFltb. destruct x as [s | s | | s m e]; simpl; try reflexivity.
  - destruct s; reflexivity.
  - destruct s; rewrite Z.compare_refl, Pos.compare_cont_refl; reflexivity.
Qed.

Lemma flt_trans x y z : flt x y = true -> flt y z = true -> flt x z = true.
Proof.
  unfold flt, SFltb.
  destruct x as [sx | sx | | sx mx ex], y as [sy | sy | | sy my ey],
    z as [sz | sz | | sz mz ez]; simpl;
    try discriminate; try (destruct sx, sy, sz; simpl; congruence).
  destruct sx, sy, sz; simpl; try congruence.
  - destruct (Z.compare_spec ex ey), (Z.compare_spec ey ez), (Z.compare_spec ex ez);
      try discriminate; try lia; try reflexivity; subst.
    fold (Pos.compare mx my) (Pos.compare my mz) (Pos.compare mx mz).
    destruct (Pos.compare_spec mx my), (Pos.compare_spec my mz), (Pos.compare_spec mx mz);
      simpl; try discriminate; try lia; reflexivity.
  - destruct (Z.compare_spec ex ey), (Z.compare_spec ey ez), (Z.compare_spec ex ez);
      try discriminate; try lia; try reflexivity; subst.
    fold (Pos.compare mx my) (Pos.compare my mz) (Pos.compare mx mz).
    destruct (Pos.compare_spec mx my), (Pos.compare_spec my mz), (Pos.compare_spec mx mz);
      simpl; try discriminate; try lia; reflexivity.
Qed.

(** A finite number divided by itself is 1. *)
Lemma fdiv_self_finite s m e :
  fdiv (S754_finite s m e) (S754_finite s m e) = S754_finite false 8388608 (-23).
Proof.
  unfold fdiv, SFdiv, SFdiv_core_binary.
  rewrite Z.sub_diag.
  replace (Z.min (fexp prec emax (Zdigits2 (Z.pos m) + e - (Zdigits2 (Z.pos m) + e))) 0)
    with (-24) by (rewrite Z.sub_diag; reflexivity).
  cbv beta iota zeta.
  change (0 - -24) with 24.
  cbv beta iota.
  rewrite Z.shiftl_mul_pow2 by lia.
  assert (E : Z.div_eucl (Z.pos m * 2 ^ 24) (Z.pos m) = (2 ^ 24, 0)).
  { pose proof (Z.div_eucl_eq (Z.pos m * 2 ^ 24) (Z.pos m)) as H.
    pose proof (Z.mod_pos_bound (Z.pos m * 2 ^ 24) (Z.pos m)) as Hb.
    unfold Z.modulo, Z.div in *.
    destruct (Z.div_eucl (Z.pos m * 2 ^ 24) (Z.pos m)) as [q r].
    specialize (H ltac:(lia)). specialize (Hb ltac:(lia)).
    assert (q = 2 ^ 24) by nia. f_equal; nia. }
  rewrite E. cbv beta iota.
  replace (new_location (Z.pos m) 0) with loc_Exact.
  2:{ unfold new_location, new_location_even, new_location_odd.
      destruct (Z.even (Z.pos m)); reflexivity. }
  rewrite xorb_nilpotent. reflexivity.
Qed.

Lemma round_int_fdiv_self x : (round_int (fdiv x x) <? 2) = true.
Proof.
  destruct x as [s | s | | s m e].
  - reflexivity.
  - reflexivity.
  - reflexivity.
  - rewrite fdiv_self_finite. reflexivity.
Qed.

(** ** Well-formed states *)

(** ** Target preparation *)

Lemma far_apart_snoc w l t :
  far_apart w l -> Forall (fun u => far w (center u) (center t)) l ->
  far_apart w (l ++ [t]).
Proof.
  intros Hl Ht i j ti tj Hne Hi Hj.
  rewrite Forall_lookup in Ht.
  apply lookup_snoc_Some in Hi as [[Hil Hi] | [Hil <-]];
    apply lookup_snoc_Some in Hj as [[Hjl Hj] | [Hjl <-]].
  - eapply Hl; eauto.
  - eapply Ht; eauto.
  - specialize (Ht _ _ Hj). unfold far in *. lia.
  - lia.
Qed.

Lemma dup_loop_false n : forall t tg fq w,
  0 <= fq < 2 ^ 32 -> 0 <= w < 2 ^ 30 ->
  dup_loop n t tg fq w = false ->
  forall u i, (t <= i < t + n)%nat -> tg !! i = Some u ->
    0 <= center u < 2 ^ 32 -> far w (center u) fq.
Proof.
  induction n as [| n IH]; intros t tg fq w Hf Hw Hd u i Hi Hu Hc.
  - lia.
  - simpl in Hd.
    destruct (abs_int (i32 (i32 (center (tg !!! t)) - i32 fq)) <=? i32 w) eqn:E;
      [discriminate |].
    destruct (decide (i = t)) as [-> | Hne].
    + rewrite (list_lookup_total_correct _ _ _ Hu) in E.
      unfold far. destruct (Z_le_gt_dec (Z.abs (center u - fq)) w) as [Hle | Hgt]; [| lia].
      rewrite (i32_small w) in E by lia.
      rewrite abs_int_near in E by (auto; lia). discriminate.
    + eapply (IH (S t)); eauto. lia.
Qed.

Lemma State_eta s :
  s = mkState (START_FREQ s) (END_FREQ s) (resonantFreq s) (maxAmplitude s) (currAmplitude s)
        (resonantIpk s) (resonantIpp s) (testRunning s) (testComplete s) (freqs s)
        (amplitudes s) (dataPoints s) (totalSteps s) (stepIndex s) (storeEvery s)
        (currentTestFreq s) (bestHarmFreq s) (bestHarmAmp s) (lastSampleTime s)
        (coarsePhase s) (finePhase s) (fineTargets s) (fineTargetCount s)
        (currentFineIndex s) (fineSweepFreq s) (fineSweepEnd s) (fineSweepStep s)
        (fineLastSampleTime s) (lastIpp s) (lastIpk s) (pwmFreq s) (pwmDuty s) (pwmLog s)
        (adcReads s).
Proof. destruct s; reflexivity. Qed.

(** What one iteration of the acceptance loop does: nothing, or the peak
    is appended as the next target. *)
Lemma accept_step_cases pk s :
  accept_step pk s = s \/
  (dup_loop (Z.to_nat (fineTargetCount s)) 0 (fineTargets s) (peak_f pk) (FREQ_STEP * 4) = false
   /\ accept_step pk s =
      set_fineTargetCount (i32 (fineTargetCount s + 1))
        (set_fineTargets
           (<[Z.to_nat (fineTargetCount s) :=
                mkFineTarget (peak_f pk) (peak_f pk) (peak_amp pk) true]> (fineTargets s)) s)).
Proof.
  unfold accept_step. change (u32 (FREQ_STEP * 4)) with (FREQ_STEP * 4).
  destruct (_ || _); [| left; reflexivity].
  destruct (dup_loop _ _ _ _ _); simpl; [left; reflexivity | right; split; reflexivity].
Qed.

Lemma accept_step_inv r t0 pk s :
  0 <= peak_f pk < 2 ^ 32 ->
  fineTargetCount s < MAX_FINE_TARGETS ->
  accept_inv r t0 s -> accept_inv r t0 (accept_step pk s).
Proof.
  intros Hf Hlt [Hc Hl Hfar Hr H0 Hres].
  destruct (accept_step_cases pk s) as [-> | [Hdup ->]]; [split; assumption |].
  unfold MAX_FINE_TARGETS in *.
  assert (Hn : (Z.to_nat (fineTargetCount s) < length (fineTargets s))%nat) by lia.
  assert (Ht : targets
                 (set_fineTargetCount (i32 (fineTargetCount s + 1))
                    (set_fineTargets
                       (<[Z.to_nat (fineTargetCount s) :=
                            mkFineTarget (peak_f pk) (peak_f pk) (peak_amp pk) true]>
                          (fineTargets s)) s))
               = targets s ++ [mkFineTarget (peak_f pk) (peak_f pk) (peak_amp pk) true]).
  { unfold targets. cbn [fineTargetCount fineTargets set_fineTargetCount set_fineTargets].
    rewrite i32_small by lia.
    replace (Z.to_nat (fineTargetCount s + 1)) with (S (Z.to_nat (fineTargetCount s))) by lia.
    erewrite take_S_r by (apply list_lookup_insert_eq; exact Hn).
    rewrite take_insert_ge by lia. reflexivity. }
  split.
  - cbn [fineTargetCount set_fineTargetCount]. rewrite i32_small by lia.
    unfold MAX_FINE_TARGETS. lia.
  - cbn [fineTargets set_fineTargetCount set_fineTargets]. rewrite length_insert. exact Hl.
  - rewrite Ht. apply far_apart_snoc; [exact Hfar |].
    apply Forall_lookup. intros i u Hu. cbn [center].
    assert (Hi : (i < Z.to_nat (fineTargetCount s))%nat).
    { apply lookup_lt_Some in Hu. unfold targets in Hu. rewrite length_take in Hu. lia. }
    apply (dup_loop_false (Z.to_nat (fineTargetCount s)) 0%nat (fineTargets s)) with (i := i);
      [exact Hf | unfold FREQ_STEP; lia | exact Hdup | lia | |].
    + unfold targets in Hu. rewrite lookup_take_lt in Hu by lia. exact Hu.
    + rewrite Forall_lookup in Hr. eapply Hr; eauto.
  - rewrite Ht. apply Forall_app. split; [exact Hr |].
    constructor; [exact Hf | constructor].
  - cbn [fineTargets set_fineTargetCount set_fineTargets].
    rewrite list_lookup_insert_ne by lia. exact H0.
  - exact Hres.
Qed.

Lemma accept_loop_inv r t0 peaks : forall s,
  Forall (fun pk => 0 <= peak_f pk < 2 ^ 32) peaks ->
  accept_inv r t0 s -> accept_inv r t0 (accept_loop peaks s).
Proof.
  induction peaks as [| pk rest IH]; intros s Hp Hs; simpl; [exact Hs |].
  apply Forall_cons in Hp as [Hpk Hrest].
  destruct (Z.ltb_spec (fineTargetCount s) MAX_FINE_TARGETS) as [Hlt | Hge]; [| exact Hs].
  apply IH; [exact Hrest |]. apply accept_step_inv; assumption.
Qed.

Lemma accept_loop_shape peaks : forall s,
  exists tg c, accept_loop peaks s = set_fineTargetCount c (set_fineTargets tg s).
Proof.
  induction peaks as [| pk rest IH]; intros s; simpl.
  - exists (fineTargets s), (fineTargetCount s). rewrite (State_eta s) at 1. reflexivity.
  - destruct (fineTargetCount s <? MAX_FINE_TARGETS).
    + destruct (IH (accept_step pk s)) as (tg & c & ->).
      exists tg, c. destruct (accept_step_cases pk s) as [-> | [_ ->]]; reflexivity.
    + exists (fineTargets s), (fineTargetCount s). rewrite (State_eta s) at 1. reflexivity.
Qed.

(** [prepareFineTargets] writes the target array and its count only. *)
Lemma prepareFineTargets_shape s :
  exists tg c, prepareFineTargets s = set_fineTargetCount c (set_fineTargets tg s).
Proof.
  unfold prepareFineTargets. st.
  destruct (_ || _).
  - exists (fineTargets s), 0. reflexivity.
  - match goal with |- context [accept_loop ?p ?s0] =>
      destruct (accept_loop_shape p s0) as (tg & c & ->) end.
    exists tg, c. reflexivity.
Qed.

Lemma accept_loop_count peaks : forall s,
  1 <= fineTargetCount s <= MAX_FINE_TARGETS ->
  1 <= fineTargetCount (accept_loop peaks s) <= MAX_FINE_TARGETS.
Proof.
  induction peaks as [| pk rest IH]; intros s Hs; simpl; [exact Hs |].
  destruct (Z.ltb_spec (fineTargetCount s) MAX_FINE_TARGETS) as [Hlt | Hge]; [| exact Hs].
  apply IH. destruct (accept_step_cases pk s) as [-> | [_ ->]]; [exact Hs |].
  st. unfold MAX_FINE_TARGETS in *. rewrite i32_small by lia. lia.
Qed.

(** The number of targets after preparation. *)
Lemma prepareFineTargets_count s :
  0 <= fineTargetCount (prepareFineTargets s) <= MAX_FINE_TARGETS
  /\ (1 <= fineTargetCount (prepareFineTargets s)
      <-> resonantFreq s <> 0 /\ 3 <= dataPoints s).
Proof.
  unfold prepareFineTargets. st.
  destruct (Z.eqb_spec (resonantFreq s) 0) as [Hr | Hr];
    destruct (Z.ltb_spec (dataPoints s) 3) as [Hd | Hd]; simpl; st;
    try (unfold MAX_FINE_TARGETS; split; [lia | split; [lia | intros [? ?]; lia]]).
  match goal with |- context [accept_loop ?p ?s0] =>
    pose proof (accept_loop_count p s0) as H end.
  st_in H. specialize (H ltac:(unfold MAX_FINE_TARGETS; lia)).
  split; [lia |]. split; [intros _; split; assumption | intros _; lia].
Qed.

Lemma lookup_total_Forall {A} `{Inhabited A} (P : A -> Prop) (l : list A) i :
  Forall P l -> P inhabitant -> P (l !!! i).
Proof.
  intros Hl Hd. rewrite list_lookup_total_alt.
  destruct (l !! i) as [x |] eqn:E; simpl; [| exact Hd].
  rewrite Forall_lookup in Hl. eapply Hl; eauto.
Qed.

Lemma find_peaks_range n : forall i s minPeakAmp peaks,
  Forall (fun x => 0 <= x < 2 ^ 32) (freqs s) ->
  Forall peak_in_range peaks ->
  Forall peak_in_range (find_peaks n i s minPeakAmp peaks).
Proof.
  induction n as [| n IH]; intros i s m peaks Hf Hp; simpl; [exact Hp |].
  destruct (is_peak s m i); [| apply IH; assumption].
  assert (Hp' : Forall peak_in_range
                  (peaks ++ [mkPeak i (amplitudes s !!! Z.to_nat i) (freqs s !!! Z.to_nat i)])).
  { apply Forall_app. split; [exact Hp |]. constructor; [| constructor].
    unfold peak_in_range. simpl.
    apply (lookup_total_Forall (fun x => 0 <= x < 2 ^ 32)); [exact Hf | simpl; lia]. }
  destruct (_ >=? _); [exact Hp' | apply IH; assumption].
Qed.

Lemma sort_from_range n : forall i peaks,
  Forall peak_in_range peaks -> Forall peak_in_range (sort_from n i peaks).
Proof.
  assert (Hd : peak_in_range inhabitant) by (unfold peak_in_range; simpl; lia).
  induction n as [| n IH]; intros i peaks Hp; simpl; [exact Hp |].
  apply IH. destruct (Nat.eqb _ _); [exact Hp |].
  apply Forall_insert; [apply Forall_insert |];
    try apply (lookup_total_Forall peak_in_range); assumption.
Qed.

(** The targets after a preparation that found a resonance. *)
Lemma prepareFineTargets_inv s :
  wf_state s -> resonantFreq s <> 0 -> 3 <= dataPoints s ->
  accept_inv (resonantFreq s)
    (mkFineTarget (resonantFreq s) (resonantFreq s) (maxAmplitude s) true)
    (prepareFineTargets s).
Proof.
  intros [Hfl Hal Htl Hfr Hrr] Hr Hd.
  unfold prepareFineTargets. st.
  destruct (Z.eqb_spec (resonantFreq s) 0) as [? | _]; [contradiction |].
  destruct (Z.ltb_spec (dataPoints s) 3) as [? | _]; [lia |]. simpl.
  unfold MAX_FINE_TARGETS in Htl.
  apply accept_loop_inv.
  - apply sort_from_range, find_peaks_range; [st; exact Hfr | constructor].
  - split; st.
    + unfold MAX_FINE_TARGETS. lia.
    + rewrite length_insert. exact Htl.
    + unfold targets. st. intros i j ti tj Hne Hi Hj.
      apply lookup_lt_Some in Hi, Hj. rewrite length_take in Hi, Hj.
      change (Z.to_nat 1) with 1%nat in *. lia.
    + unfold targets. st. change (Z.to_nat 1) with 1%nat.
      destruct (fineTargets s) as [| t rest]; [discriminate |]. simpl.
      rewrite take_0. constructor; [simpl; exact Hrr | constructor].
    + apply list_lookup_insert_eq. rewrite Htl. change (Z.to_nat 3) with 3%nat. lia.
    + reflexivity.
Qed.

(** ** Frames: which globals each function writes *)

Lemma harm_only_refl s : harm_only s s.
Proof. exists (bestHarmFreq s), (bestHarmAmp s). rewrite (State_eta s) at 1. reflexivity. Qed.

Lemma harm_only_trans s1 s2 s3 : harm_only s1 s2 -> harm_only s2 s3 -> harm_only s1 s3.
Proof. intros (f1 & a1 & ->) (f2 & a2 & ->). exists f2, a2. reflexivity. Qed.

Lemma harm_only_set s fq a : harm_only s (set_bestHarmFreq fq (set_bestHarmAmp a s)).
Proof. exists fq, a. reflexivity. Qed.

Lemma harm_only_set' s fq a : harm_only s (set_bestHarmAmp a (set_bestHarmFreq fq s)).
Proof. exists fq, a. reflexivity. Qed.

Lemma coarse_ratio_step_harm tol s i : harm_only s (coarse_ratio_step tol s i).
Proof.
  unfold coarse_ratio_step.
  destruct (_ && _).
  - destruct (_ && _).
    + eapply harm_only_trans; apply harm_only_set.
    + apply harm_only_set.
  - destruct (_ && _); [apply harm_only_set | apply harm_only_refl].
Qed.

Lemma fold_harm_only {A} (step : State -> A -> State) (l : list A) :
  (forall s x, harm_only s (step s x)) ->
  forall s, harm_only s (fold_left step l s).
Proof.
  intros Hstep. induction l as [| x l IH]; intros s; simpl; [apply harm_only_refl |].
  eapply harm_only_trans; [apply Hstep | apply IH].
Qed.

Lemma computeBestHarmonicFromCoarse_harm s : harm_only s (computeBestHarmonicFromCoarse s).
Proof.
  unfold computeBestHarmonicFromCoarse.
  eapply harm_only_trans; [apply (harm_only_set' s 0 fzero) |].
  set (s0 := set_bestHarmAmp fzero (set_bestHarmFreq 0 s)).
  destruct (_ || _); [apply harm_only_refl |].
  match goal with |- context [fold_left ?st ?l s0] =>
    pose proof (fold_harm_only st l (coarse_ratio_step_harm _) s0) as H;
    set (s1 := fold_left st l s0) in * end.
  destruct (bestHarmFreq s1 =? 0); [| exact H].
  destruct (fallback_loop _ _ _ _ _) as [a b].
  destruct (negb _); [| exact H].
  eapply harm_only_trans; [exact H | apply harm_only_set'].
Qed.

Lemma fine_harmonic_step_harm tol s t : harm_only s (fine_harmonic_step tol s t).
Proof.
  unfold fine_harmonic_step.
  repeat (match goal with |- context [if ?c then _ else _] => destruct c end);
    first [apply harm_only_refl | apply harm_only_set].
Qed.

Lemma computeBestHarmonicFromFine_harm s : harm_only s (computeBestHarmonicFromFine s).
Proof.
  unfold computeBestHarmonicFromFine.
  eapply harm_only_trans; [apply (harm_only_set' s 0 fzero) |].
  set (s0 := set_bestHarmAmp fzero (set_bestHarmFreq 0 s)).
  destruct (resonantFreq s0 =? 0); [apply harm_only_refl |].
  pose proof (fold_harm_only _ (targets s0) (fine_harmonic_step_harm (lit 8 100)) s0) as H.
  unfold fine_harmonic_loop.
  set (s1 := fold_left _ _ s0) in *.
  destruct (bestHarmFreq s1 =? 0); [| exact H].
  eapply harm_only_trans; [exact H | apply computeBestHarmonicFromCoarse_harm].
Qed.

Lemma meas_only_refl s : meas_only s s.
Proof.
  exists (adcReads s), (lastIpp s), (lastIpk s). rewrite (State_eta s) at 1. reflexivity.
Qed.

Lemma meas_only_trans s1 s2 s3 : meas_only s1 s2 -> meas_only s2 s3 -> meas_only s1 s3.
Proof. intros (k1 & a1 & b1 & ->) (k2 & a2 & b2 & ->). exists k2, a2, b2. reflexivity. Qed.

Lemma measureCurrent_meas adc s : meas_only s (measureCurrent adc s).
Proof.
  unfold measureCurrent. destruct (read_loop _ _ _ _ _ _) as [[imax imin] k].
  eexists _, _, _. reflexivity.
Qed.

Lemma burst_loop_meas adc n : forall s sum, meas_only s (fst (burst_loop adc n s sum)).
Proof.
  induction n as [| n IH]; intros s sum; cbn [burst_loop fst]; [apply meas_only_refl |].
  eapply meas_only_trans; [apply measureCurrent_meas | apply IH].
Qed.

(** ** The running maximum *)

Lemma fle_prop_refl x : fle_prop x x.
Proof. left. reflexivity. Qed.

Lemma fle_prop_trans x y z : fle_prop x y -> fle_prop y z -> fle_prop x z.
Proof.
  intros [-> | Hxy] [-> | Hyz]; unfold fle_prop; auto.
  right. eapply flt_trans; eauto.
Qed.

Lemma max_step_refl s : max_step s s.
Proof. left. split; reflexivity. Qed.

Lemma max_step_trans s1 s2 s3 : max_step s1 s2 -> max_step s2 s3 -> max_step s1 s3.
Proof.
  intros [[E1 R1] | H1] [[E2 R2] | H2]; unfold max_step.
  - left. split; congruence.
  - right. rewrite <- E1. exact H2.
  - right. rewrite E2. exact H1.
  - right. eapply flt_trans; eauto.
Qed.

Lemma startFineTarget_track now i s :
  maxAmplitude (startFineTarget now i s) = maxAmplitude s
  /\ resonantFreq (startFineTarget now i s) = resonantFreq s.
Proof. unfold startFineTarget. destruct (_ || _); split; reflexivity. Qed.

Lemma processCoarseSweep_max_step adc now s : max_step s (processCoarseSweep adc now s).
Proof.
  unfold processCoarseSweep.
  destruct (currentTestFreq s >? END_FREQ s).
  - destruct (prepareFineTargets_shape (set_coarsePhase false (stopPWM s))) as (tg & c & ->).
    st. destruct (c >? 0).
    + left. st.
      match goal with |- context [startFineTarget ?n ?i ?s0] =>
        destruct (startFineTarget_track n i s0) as [-> ->] end.
      split; reflexivity.
    + match goal with |- context [computeBestHarmonicFromCoarse ?s0] =>
        destruct (computeBestHarmonicFromCoarse_harm s0) as (fq & a & ->) end.
      left. split; reflexivity.
  - destruct (u32 _ >=? _); [| apply max_step_refl].
    pose proof (burst_loop_meas adc (Z.to_nat SAMPLES_PER_FREQ) s fzero) as Hm.
    destruct (burst_loop adc _ s fzero) as [s1 sum]. cbn [fst] in Hm.
    destruct Hm as (k & ipp & ipk & ->). st.
    destruct (fgt (fdiv sum (of_Z SAMPLES_PER_FREQ)) (maxAmplitude s)) eqn:Hg;
      st; destruct (dataPoints s <? MAX_DATA_POINTS);
      try destruct (_ || _); st;
      first [right; exact Hg | left; split; reflexivity].
Qed.

Lemma processFineSweep_max_step adc now s : max_step s (processFineSweep adc now s).
Proof.
  unfold processFineSweep.
  destruct (currentFineIndex s >=? fineTargetCount s).
  - match goal with |- context [computeBestHarmonicFromFine ?s0] =>
      destruct (computeBestHarmonicFromFine_harm s0) as (fq & a & ->) end.
    left. split; reflexivity.
  - destruct (u32 _ >=? _); [| apply max_step_refl].
    pose proof (burst_loop_meas adc (Z.to_nat FINE_SAMPLES_PER_FREQ) s fzero) as Hm.
    destruct (burst_loop adc _ s fzero) as [s1 sum]. cbn [fst] in Hm.
    destruct Hm as (k & ipp & ipk & ->). st.
    set (avg := fdiv sum (of_Z FINE_SAMPLES_PER_FREQ)).
    destruct (fgt avg (bestAmp (fineTargets s !!! Z.to_nat (currentFineIndex s)))); st;
      [destruct (fgt avg (maxAmplitude s)) eqn:Hg; st |];
      (destruct (u32 (fineSweepFreq s + fineSweepStep s) >? fineSweepEnd s); st;
       [destruct (i32 (currentFineIndex s + 1) <? fineTargetCount s); st;
        [match goal with |- context [startFineTarget ?n ?i ?s0] =>
           destruct (startFineTarget_track n i s0) as [Hx Hy];
           unfold max_step; st; rewrite ?Hx, ?Hy; st end | unfold max_step; st]
       | unfold max_step; st]);
      first [right; exact Hg | left; split; reflexivity].
Qed.

Lemma loop_max_step adc now s : max_step s (loop adc now s).
Proof.
  unfold loop. destruct (testRunning s); [| apply max_step_refl].
  destruct (coarsePhase s); [apply processCoarseSweep_max_step |].
  destruct (finePhase s); [apply processFineSweep_max_step | apply max_step_refl].
Qed.

Lemma run_max_step adc ticks : forall s, max_step s (run adc ticks s).
Proof.
  induction ticks as [| now ticks IH]; intros s; [apply max_step_refl |].
  eapply max_step_trans; [apply (loop_max_step adc now) | apply IH].
Qed.

(** ** What the fine phase leaves alone *)

Lemma fmap_center_alter (g : FineTarget -> FineTarget) i (l : list FineTarget) :
  (forall t, center (g t) = center t) -> center <$> alter g i l = center <$> l.
Proof.
  intros Hg. revert i. induction l as [| t l IH]; intros [| i]; simpl; try reflexivity.
  - rewrite Hg. reflexivity.
  - f_equal. apply IH.
Qed.

Lemma startFineTarget_view now i s :
  coarse_view (startFineTarget now i s) = coarse_view s.
Proof.
  unfold startFineTarget. destruct (_ || _); [reflexivity |].
  unfold coarse_view. st. rewrite !fmap_center_alter by reflexivity. reflexivity.
Qed.

Lemma processFineSweep_view adc now s :
  coarse_view (processFineSweep adc now s) = coarse_view s.
Proof.
  unfold processFineSweep.
  destruct (currentFineIndex s >=? fineTargetCount s).
  - match goal with |- context [computeBestHarmonicFromFine ?s0] =>
      destruct (computeBestHarmonicFromFine_harm s0) as (fq & a & ->) end.
    reflexivity.
  - destruct (u32 _ >=? _); [| reflexivity].
    pose proof (burst_loop_meas adc (Z.to_nat FINE_SAMPLES_PER_FREQ) s fzero) as Hm.
    destruct (burst_loop adc _ s fzero) as [s1 sum]. cbn [fst] in Hm.
    destruct Hm as (k & ipp & ipk & ->). st.
    set (avg := fdiv sum (of_Z FINE_SAMPLES_PER_FREQ)).
    destruct (fgt avg (bestAmp (fineTargets s !!! Z.to_nat (currentFineIndex s)))); st;
      [destruct (fgt avg (maxAmplitude s)); st |];
      (destruct (u32 (fineSweepFreq s + fineSweepStep s) >? fineSweepEnd s); st;
       [destruct (i32 (currentFineIndex s + 1) <? fineTargetCount s); st |]);
      unfold coarse_view; st;
      try match goal with |- context [startFineTarget ?n ?i ?s0] =>
            pose proof (startFineTarget_view n i s0) as Hv; unfold coarse_view in Hv;
            st_in Hv; injection Hv as -> -> -> -> -> -> -> -> -> end;
      rewrite ?fmap_center_alter by reflexivity; reflexivity.
Qed.

Lemma loop_fine_view adc now s :
  coarsePhase s = false -> coarse_view (loop adc now s) = coarse_view s.
Proof.
  intros Hc. unfold loop. rewrite Hc.
  destruct (testRunning s); [| reflexivity].
  destruct (finePhase s); [apply processFineSweep_view | reflexivity].
Qed.

Lemma run_fine_view adc ticks : forall s,
  coarsePhase s = false -> coarse_view (run adc ticks s) = coarse_view s.
Proof.
  induction ticks as [| now ticks IH]; intros s Hc; [reflexivity |].
  unfold run in *. cbn [fold_left].
  pose proof (loop_fine_view adc now s Hc) as Hv.
  rewrite IH; [exact Hv |].
  unfold coarse_view in Hv. congruence.
Qed.

(** ** The end of the coarse phase *)

(** The tick that finds the band exhausted: both continuations. *)
Lemma processCoarseSweep_transition adc now s :
  currentTestFreq s > END_FREQ s ->
  let p := prepareFineTargets (set_coarsePhase false (stopPWM s)) in
  (resonantFreq s <> 0 /\ 3 <= dataPoints s ->
   processCoarseSweep adc now s
   = set_finePhase true (startFineTarget now 0 (set_currentFineIndex 0 p)))
  /\ (resonantFreq s = 0 \/ dataPoints s < 3 ->
      processCoarseSweep adc now s
      = set_testComplete true (set_testRunning false (computeBestHarmonicFromCoarse p))).
Proof.
  intros Hend p. unfold processCoarseSweep. fold p.
  destruct (Z.gtb_spec (currentTestFreq s) (END_FREQ s)) as [_ | ?]; [| lia].
  pose proof (prepareFineTargets_count (set_coarsePhase false (stopPWM s))) as [_ Hc].
  fold p in Hc. st_in Hc.
  split.
  - intros H. apply Hc in H.
    destruct (Z.gtb_spec (fineTargetCount p) 0) as [_ | ?]; [reflexivity | lia].
  - intros H.
    destruct (Z.gtb_spec (fineTargetCount p) 0) as [Hp | _]; [| reflexivity].
    assert (1 <= fineTargetCount p) as Hp' by lia. apply Hc in Hp'. lia.
Qed.

(** ** The stored coarse curve *)

Lemma StronglySorted_snoc (l : list Z) x :
  StronglySorted Z.lt l -> Forall (fun y => y < x) l -> StronglySorted Z.lt (l ++ [x]).
Proof.
  induction l as [| y l IH]; intros Hs Hl; simpl.
  - repeat constructor.
  - apply StronglySorted_inv in Hs as [Hs Hy]. apply Forall_cons in Hl as [Hyx Hl].
    constructor; [apply IH; assumption |].
    apply Forall_app. split; [exact Hy | constructor; [exact Hyx | constructor]].
Qed.

Lemma stride_pos st en : 0 <= st -> en < 2 ^ 32 -> 1 <= stride st en.
Proof.
  intros Hs He. unfold stride, FREQ_STEP, MAX_DATA_POINTS.
  destruct (Z.gtb_spec en st) as [Hgt | Hle]; [| lia].
  apply Z.div_le_lower_bound; [lia |].
  assert (0 <= (en - st) / 50) by (apply Z.div_pos; lia). lia.
Qed.

(** What [startTwoPassTest] resets, and what it keeps. *)
Lemma startTwoPassTest_fields now s :
  let s0 := startTwoPassTest now s in
  (maxAmplitude s0 = fzero /\ resonantFreq s0 = 0 /\ bestHarmFreq s0 = 0
   /\ bestHarmAmp s0 = fzero)
  /\ (coarsePhase s0 = true /\ finePhase s0 = false
      /\ testRunning s0 = testRunning s /\ testComplete s0 = testComplete s)
  /\ (START_FREQ s0 = START_FREQ s /\ END_FREQ s0 = END_FREQ s
      /\ currentTestFreq s0 = START_FREQ s /\ stepIndex s0 = 0
      /\ lastSampleTime s0 = now)
  /\ (dataPoints s0 = 0 /\ freqs s0 = freqs s /\ amplitudes s0 = amplitudes s
      /\ fineTargetCount s0 = 0 /\ fineTargets s0 = fineTargets s)
  /\ (adcReads s0 = adcReads s /\ pwmLog s0 = SetFreq (START_FREQ s) :: pwmLog s).
Proof.
  intros s0. subst s0. unfold startTwoPassTest. st.
  destruct ((END_FREQ s >? START_FREQ s) && (FREQ_STEP >? 0)); st;
    match goal with |- context [if ?b then _ else _] => destruct b end; st;
    repeat split; reflexivity.
Qed.

Lemma startTwoPassTest_inv now s :
  length (freqs s) = Z.to_nat MAX_DATA_POINTS ->
  0 <= START_FREQ s < 2 ^ 32 -> 0 <= END_FREQ s < 2 ^ 32 ->
  curve_inv (START_FREQ s) (END_FREQ s) (startTwoPassTest now s).
Proof.
  intros Hl Hs He.
  assert (Hev : storeEvery (startTwoPassTest now s) = stride (START_FREQ s) (END_FREQ s)).
  { unfold startTwoPassTest, stride. st.
    change (FREQ_STEP >? 0) with true. rewrite andb_true_r.
    destruct (Z.gtb_spec (END_FREQ s) (START_FREQ s)) as [Hgt | Hle]; st.
    - assert (Hq : 0 <= (END_FREQ s - START_FREQ s) / FREQ_STEP < 2 ^ 31).
      { unfold FREQ_STEP. split; [apply Z.div_pos; lia |].
        apply Z.div_lt_upper_bound; lia. }
      rewrite (u32_small (END_FREQ s - START_FREQ s)) by lia.
      rewrite (u32_small (_ + 1)) by lia.
      unfold MAX_DATA_POINTS in *. rewrite u32_small by lia.
      pose proof (stride_pos (START_FREQ s) (END_FREQ s) ltac:(lia) ltac:(lia)) as Hp.
      unfold stride, MAX_DATA_POINTS in Hp.
      destruct (Z.gtb_spec (END_FREQ s) (START_FREQ s)); [| lia].
      destruct (Z.ltb_spec
                  (((END_FREQ s - START_FREQ s) / FREQ_STEP + 1 + (70 - 1)) / 70) 1);
        [lia | reflexivity].
    - reflexivity. }
  destruct (startTwoPassTest_fields now s)
    as (_ & (Hc & _) & (F1 & F2 & F3 & F4 & _) & (D1 & D2 & _) & _).
  revert Hev Hc F1 F2 F3 F4 D1 D2. generalize (startTwoPassTest now s).
  intros s0 Hev Hc F1 F2 F3 F4 D1 D2.
  assert (E : curve_freqs s0 = []) by (unfold curve_freqs; rewrite D1; apply take_0).
  split; rewrite ?E; try assumption; try congruence.
  - rewrite D1. unfold MAX_DATA_POINTS. lia.
  - constructor.
  - constructor.
  - intros _. rewrite F3, F4. repeat split; try lia. constructor.
Qed.

Lemma curve_inv_frame st en s s' :
  curve_view s' = curve_view s -> coarsePhase s' = false ->
  curve_inv st en s -> curve_inv st en s'.
Proof.
  unfold curve_view. intros Hv Hc [H1 H2 H3 H4 H5 H6 H7 H8].
  injection Hv as E1 E2 E3 E4 E5 E6.
  assert (Ec : curve_freqs s' = curve_freqs s) by (unfold curve_freqs; congruence).
  split; rewrite ?Ec; congruence.
Qed.

Lemma processCoarseSweep_end_view adc now s :
  currentTestFreq s > END_FREQ s ->
  curve_view (processCoarseSweep adc now s) = curve_view s
  /\ coarsePhase (processCoarseSweep adc now s) = false.
Proof.
  intros Hend. unfold processCoarseSweep.
  destruct (Z.gtb_spec (currentTestFreq s) (END_FREQ s)) as [_ | ?]; [| lia].
  destruct (prepareFineTargets_shape (set_coarsePhase false (stopPWM s))) as (tg & c & ->).
  st. destruct (c >? 0).
  - match goal with |- context [startFineTarget ?n ?i ?s0] =>
      pose proof (startFineTarget_view n i s0) as Hv end.
    unfold coarse_view in Hv. st_in Hv. injection Hv as E1 E2 E3 E4 E5 E6 E7 E8 E9.
    unfold curve_view. st. rewrite E1, E2, E3, E4, E5, E6, E7. split; reflexivity.
  - match goal with |- context [computeBestHarmonicFromCoarse ?s0] =>
      destruct (computeBestHarmonicFromCoarse_harm s0) as (fq & a & ->) end.
    split; reflexivity.
Qed.

(** One sampling step of the coarse sweep keeps the invariant. *)
Lemma processCoarseSweep_inv st en adc now s :
  en + FREQ_STEP < 2 ^ 32 -> 0 <= st ->
  coarsePhase s = true ->
  curve_inv st en s -> curve_inv st en (processCoarseSweep adc now s).
Proof.
  intros Hen Hst Hc Hinv.
  destruct (Z_gt_le_dec (currentTestFreq s) (END_FREQ s)) as [Hend | Hin].
  { destruct (processCoarseSweep_end_view adc now s Hend) as [Hv Hc'].
    eapply curve_inv_frame; eauto. }
  destruct Hinv as [H1 H2 H3 H4 H5 H6 H7 H8].
  destruct (H8 Hc) as (Hk & Hcur & Hlt & Hbelow & Hfirst).
  unfold processCoarseSweep.
  destruct (Z.gtb_spec (currentTestFreq s) (END_FREQ s)) as [? | _]; [lia |].
  destruct (u32 _ >=? _); [| split; assumption].
  pose proof (burst_loop_meas adc (Z.to_nat SAMPLES_PER_FREQ) s fzero) as Hm.
  destruct (burst_loop adc _ s fzero) as [s1 sum]. cbn [fst] in Hm.
  destruct Hm as (k & ipp & ipk & ->). st.
  set (cur := fdiv sum (of_Z SAMPLES_PER_FREQ)).
  unfold FREQ_STEP, MAX_DATA_POINTS in *.
  assert (Hcur' : u32 (currentTestFreq s + 50) = currentTestFreq s + 50)
    by (apply u32_small; lia).
  assert (Hidx' : u32 (stepIndex s + 1) = stepIndex s + 1) by (apply u32_small; lia).
  assert (Hse : 1 <= storeEvery s) by (rewrite H6; apply stride_pos; lia).
  (* the state after the update of the maximum does not matter here *)
  match goal with |- context [if fgt cur (maxAmplitude s) then ?a else ?b] =>
    assert (Hsame : coarse_view (if fgt cur (maxAmplitude s) then a else b)
                    = coarse_view s
                    /\ stepIndex (if fgt cur (maxAmplitude s) then a else b) = stepIndex s
                    /\ currentTestFreq (if fgt cur (maxAmplitude s) then a else b)
                       = currentTestFreq s
                    /\ currAmplitude (if fgt cur (maxAmplitude s) then a else b) = cur)
      by (destruct (fgt cur (maxAmplitude s)); repeat split; reflexivity);
    set (s2 := if fgt cur (maxAmplitude s) then a else b) in * end.
  destruct Hsame as (Hv & Hi2 & Hc2 & Ha2).
  unfold coarse_view in Hv. injection Hv as E1 E2 E3 E4 E5 E6 E7 E8 E9.
  rewrite ?E1, ?E2, ?E3, ?E4, ?E5, ?E6, ?Hi2, ?Hc2, ?Ha2.
  destruct (Z.ltb_spec (dataPoints s) 70) as [Hroom | Hfull].
  2:{ st. rewrite ?E1, ?E2, ?E3, ?E4, ?E5, ?E6, ?Hi2, ?Hc2, ?Ha2.
      split; st; rewrite ?E1, ?E2, ?E3, ?E4, ?E5, ?E6, ?E7, ?Hi2, ?Hc2, ?Ha2;
        unfold FREQ_STEP, MAX_DATA_POINTS; try assumption; try lia.
      - unfold curve_freqs. st. rewrite ?E3, ?E5. exact H5.
      - unfold curve_freqs. st. rewrite ?E3, ?E5. exact H7.
      - intros _. rewrite Hcur', Hidx'. unfold curve_freqs. st. rewrite ?E3, ?E5.
        repeat split; try lia.
        eapply Forall_impl; [exact Hbelow |]. simpl. intros. lia. }
  destruct ((stepIndex s mod storeEvery s =? 0) || (dataPoints s =? 0)
            || (currentTestFreq s >=? END_FREQ s)) eqn:Hstore.
  2:{ st. rewrite ?E1, ?E2, ?E3, ?E4, ?E5, ?E6, ?Hi2, ?Hc2, ?Ha2.
      apply orb_false_elim in Hstore as [Hstore _].
      apply orb_false_elim in Hstore as [_ Hdp]. apply Z.eqb_neq in Hdp.
      split; st; rewrite ?E1, ?E2, ?E3, ?E4, ?E5, ?E6, ?E7, ?Hi2, ?Hc2, ?Ha2;
        unfold FREQ_STEP, MAX_DATA_POINTS; try assumption; try lia.
      - unfold curve_freqs. st. rewrite ?E3, ?E5. exact H5.
      - unfold curve_freqs. st. rewrite ?E3, ?E5. exact H7.
      - intros _. rewrite Hcur', Hidx'. unfold curve_freqs. st. rewrite ?E3, ?E5.
        repeat split; try lia.
        eapply Forall_impl; [exact Hbelow |]. simpl. intros. lia. }
  st. rewrite ?E1, ?E2, ?E3, ?E4, ?E5, ?E6, ?Hi2, ?Hc2, ?Ha2.
  assert (Hdp' : i32 (dataPoints s + 1) = dataPoints s + 1) by (apply i32_small; lia).
  assert (Hcurve : forall fs : list Z, fs = <[Z.to_nat (dataPoints s) := currentTestFreq s]> (freqs s) ->
            take (Z.to_nat (dataPoints s + 1)) fs = curve_freqs s ++ [currentTestFreq s]).
  { intros fs ->. unfold curve_freqs.
    replace (Z.to_nat (dataPoints s + 1)) with (S (Z.to_nat (dataPoints s))) by lia.
    erewrite take_S_r by (apply list_lookup_insert_eq; lia).
    rewrite take_insert_ge by lia. reflexivity. }
  assert (Hgrid : on_grid st en (storeEvery s) (currentTestFreq s)).
  { exists (stepIndex s). split; [lia |]. split; [unfold FREQ_STEP; lia |].
    apply orb_true_iff in Hstore as [Hstore | Hstore].
    - apply orb_true_iff in Hstore as [Hm | Hz].
      + left. apply Z.eqb_eq in Hm. exact Hm.
      + left. apply Z.eqb_eq in Hz. rewrite (Hfirst Hz). apply Z.mod_0_l. lia.
    - right. apply Z.geb_le in Hstore. lia. }
  split; st; rewrite ?E1, ?E2, ?E3, ?E4, ?E5, ?E6, ?E7, ?Hi2, ?Hc2, ?Ha2, ?Hdp';
    unfold FREQ_STEP, MAX_DATA_POINTS; try assumption; try lia.
  - rewrite length_insert. exact H3.
  - unfold curve_freqs at 1. st. rewrite ?E3, ?E5, ?Hc2, ?Hdp'. rewrite (Hcurve _ eq_refl).
    apply StronglySorted_snoc; assumption.
  - unfold curve_freqs at 1. st. rewrite ?E3, ?E5, ?Hc2, ?Hdp'. rewrite (Hcurve _ eq_refl).
    apply Forall_app. split; [exact H7 | constructor; [exact Hgrid | constructor]].
  - intros _. rewrite Hcur', Hidx'. unfold curve_freqs at 1. st.
    rewrite ?E3, ?E5, ?Hc2, ?Hdp'. rewrite (Hcurve _ eq_refl).
    repeat split; try lia.
    apply Forall_app. split.
    + eapply Forall_impl; [exact Hbelow |]. simpl. intros. lia.
    + constructor; [lia | constructor].
Qed.

Lemma loop_inv st en adc now s :
  en + FREQ_STEP < 2 ^ 32 -> 0 <= st ->
  curve_inv st en s -> curve_inv st en (loop adc now s).
Proof.
  intros Hen Hst Hinv. unfold loop.
  destruct (testRunning s); [| exact Hinv].
  destruct (coarsePhase s) eqn:Hc; [apply processCoarseSweep_inv; assumption |].
  destruct (finePhase s); [| exact Hinv].
  pose proof (processFineSweep_view adc now s) as Hv.
  eapply curve_inv_frame; [| | exact Hinv].
  - unfold coarse_view in Hv. unfold curve_view. congruence.
  - unfold coarse_view in Hv. congruence.
Qed.

Lemma run_inv st en adc ticks : forall s,
  en + FREQ_STEP < 2 ^ 32 -> 0 <= st ->
  curve_inv st en s -> curve_inv st en (run adc ticks s).
Proof.
  induction ticks as [| now ticks IH]; intros s Hen Hst Hinv; [exact Hinv |].
  unfold run in *. cbn [fold_left]. apply IH; try assumption.
  apply loop_inv; assumption.
Qed.

(** ** A signal without swing *)

Lemma burst_loop_S adc n s sum :
  burst_loop adc (S n) s sum
  = burst_loop adc n (measureCurrent adc s) (fadd sum (lastIpk (measureCurrent adc s))).
Proof. reflexivity. Qed.

Section Flat.

Variable adc : Z -> Z -> Z.
Variable c : Z.
Hypothesis adc_flat : forall fq k, adc fq k = c.
Hypothesis c_range : 0 <= c <= 4095.

Lemma read_loop_settled n : forall fq k,
  read_loop adc n fq k c c = (c, c, k + Z.of_nat n).
Proof.
  induction n as [| n IH]; intros fq k.
  - simpl. f_equal. lia.
  - cbn [read_loop]. rewrite adc_flat, Z.gtb_ltb, Z.ltb_irrefl, IH.
    f_equal. lia.
Qed.

Lemma read_loop_flat n fq k :
  read_loop adc (S n) fq k 0 4095 = (c, c, k + 1 + Z.of_nat n).
Proof.
  cbn [read_loop]. rewrite adc_flat.
  replace (if c >? 0 then c else 0) with c
    by (destruct (Z.gtb_spec c 0); lia).
  replace (if c <? 4095 then c else 4095) with c
    by (destruct (Z.ltb_spec c 4095); lia).
  apply read_loop_settled.
Qed.

Lemma measureCurrent_flat s :
  lastIpk (measureCurrent adc s) = fzero.
Proof.
  unfold measureCurrent. change 50%nat with (S 49). rewrite read_loop_flat.
  rewrite Z.sub_diag. st. vm_compute. reflexivity.
Qed.

Lemma fadd_zero : fadd fzero fzero = fzero.
Proof. reflexivity. Qed.

Lemma burst_loop_flat n : forall s, snd (burst_loop adc n s fzero) = fzero.
Proof.
  induction n as [| n IH]; intros s; [reflexivity |].
  rewrite burst_loop_S, measureCurrent_flat, fadd_zero. apply IH.
Qed.

End Flat.

(** ** The sampling step of the coarse sweep *)

Lemma read_loop_count adc n : forall fq k imax imin,
  snd (read_loop adc n fq k imax imin) = k + Z.of_nat n.
Proof.
  induction n as [| n IH]; intros fq k imax imin; cbn [read_loop].
  - simpl. lia.
  - rewrite IH. lia.
Qed.

Lemma measureCurrent_reads adc s : adcReads (measureCurrent adc s) = adcReads s + 50.
Proof.
  unfold measureCurrent.
  pose proof (read_loop_count adc 50 (pwmFreq s) (adcReads s) 0 4095) as H.
  destruct (read_loop _ _ _ _ _ _) as [[imax imin] k]. simpl in H. subst k. reflexivity.
Qed.

Lemma burst_loop_reads adc n : forall s sum,
  adcReads (fst (burst_loop adc n s sum)) = adcReads s + 50 * Z.of_nat n.
Proof.
  induction n as [| n IH]; intros s sum; [cbn [burst_loop fst]; lia |].
  rewrite burst_loop_S, IH, measureCurrent_reads. lia.
Qed.

(** A coarse tick inside the band whose stabilisation delay has elapsed
    takes one averaged sample of 20 bursts of 50 conversions and
    advances by one step. *)
Lemma processCoarseSweep_sample adc now s :
  currentTestFreq s <= END_FREQ s ->
  (u32 (now - lastSampleTime s) >=? STABILIZE_DELAY) = true ->
  let s' := processCoarseSweep adc now s in
  let cur := fdiv (snd (burst_loop adc (Z.to_nat SAMPLES_PER_FREQ) s fzero))
               (of_Z SAMPLES_PER_FREQ) in
  control_view s' = control_view s
  /\ currentTestFreq s' = u32 (currentTestFreq s + FREQ_STEP)
  /\ stepIndex s' = u32 (stepIndex s + 1)
  /\ lastSampleTime s' = now
  /\ adcReads s' = adcReads s + 1000
  /\ pwmLog s' = SetFreq (u32 (currentTestFreq s + FREQ_STEP)) :: pwmLog s
  /\ currAmplitude s' = cur
  /\ (if fgt cur (maxAmplitude s)
      then maxAmplitude s' = cur /\ resonantFreq s' = currentTestFreq s
      else maxAmplitude s' = maxAmplitude s /\ resonantFreq s' = resonantFreq s).
Proof.
  intros Hin Hgate s' cur. subst s'. unfold processCoarseSweep.
  destruct (Z.gtb_spec (currentTestFreq s) (END_FREQ s)) as [? | _]; [lia |].
  rewrite Hgate.
  pose proof (burst_loop_meas adc (Z.to_nat SAMPLES_PER_FREQ) s fzero) as Hm.
  pose proof (burst_loop_reads adc (Z.to_nat SAMPLES_PER_FREQ) s fzero) as Hr.
  subst cur.
  destruct (burst_loop adc _ s fzero) as [s1 sum]. cbn [fst snd] in *.
  destruct Hm as (k & ipp & ipk & ->). st_in Hr. subst k. st.
  set (cur := fdiv sum (of_Z SAMPLES_PER_FREQ)).
  destruct (fgt cur (maxAmplitude s)); st;
    (destruct (dataPoints s <? MAX_DATA_POINTS); st;
     [destruct ((stepIndex s mod storeEvery s =? 0) || (dataPoints s =? 0)
                || (currentTestFreq s >=? END_FREQ s)); st |]);
    unfold control_view; st; repeat split; reflexivity.
Qed.

(** A coarse tick inside the band before the delay has elapsed does
    nothing. *)
Lemma processCoarseSweep_wait adc now s :
  currentTestFreq s <= END_FREQ s ->
  (u32 (now - lastSampleTime s) >=? STABILIZE_DELAY) = false ->
  processCoarseSweep adc now s = s.
Proof.
  intros Hin Hgate. unfold processCoarseSweep.
  destruct (Z.gtb_spec (currentTestFreq s) (END_FREQ s)) as [? | _]; [lia |].
  rewrite Hgate. reflexivity.
Qed.

(** Once the sweep is complete the controller ignores every tick. *)
Lemma run_cons adc now ticks s :
  run adc (now :: ticks) s = run adc ticks (loop adc now s).
Proof. reflexivity. Qed.

Lemma run_app adc ticks1 ticks2 s :
  run adc (ticks1 ++ ticks2) s = run adc ticks2 (run adc ticks1 s).
Proof. unfold run. apply fold_left_app. Qed.

Lemma run_idle adc ticks : forall s, testRunning s = false -> run adc ticks s = s.
Proof.
  induction ticks as [| now ticks IH]; intros s Hs; [reflexivity |].
  rewrite run_cons. unfold loop. rewrite Hs. apply IH, Hs.
Qed.

(** ** Pacing of the ticks and termination of the coarse phase *)

Lemma prepareFineTargets_none s :
  resonantFreq s = 0 \/ dataPoints s < 3 ->
  prepareFineTargets s = set_fineTargetCount 0 s.
Proof.
  intros H. unfold prepareFineTargets. st.
  destruct (Z.eqb_spec (resonantFreq s) 0); [reflexivity |].
  destruct (Z.ltb_spec (dataPoints s) 3); [reflexivity | lia].
Qed.

Lemma computeBestHarmonicFromCoarse_none s :
  resonantFreq s = 0 \/ dataPoints s < 3 ->
  computeBestHarmonicFromCoarse s = set_bestHarmAmp fzero (set_bestHarmFreq 0 s).
Proof.
  intros H. unfold computeBestHarmonicFromCoarse. st.
  destruct (Z.eqb_spec (resonantFreq s) 0); [reflexivity |].
  destruct (Z.ltb_spec (dataPoints s) 3); [reflexivity | lia].
Qed.

(** The tick that ends a coarse sweep without resonance, or with fewer
    than three stored points, completes the sweep with no harmonic. *)
Lemma processCoarseSweep_no_result adc now s :
  currentTestFreq s > END_FREQ s ->
  resonantFreq s = 0 \/ dataPoints s < 3 ->
  processCoarseSweep adc now s
  = set_testComplete true
      (set_testRunning false
         (set_bestHarmAmp fzero
            (set_bestHarmFreq 0
               (set_fineTargetCount 0 (set_coarsePhase false (stopPWM s)))))).
Proof.
  intros Hend Hno.
  destruct (processCoarseSweep_transition adc now s Hend) as [_ ->]; [| exact Hno].
  rewrite prepareFineTargets_none by (st; exact Hno).
  rewrite computeBestHarmonicFromCoarse_none by (st; exact Hno).
  reflexivity.
Qed.

Section FlatSweep.

Variable adc : Z -> Z -> Z.
Variable c : Z.
Hypothesis adc_flat : forall fq k, adc fq k = c.
Hypothesis c_range : 0 <= c <= 4095.

Lemma processCoarseSweep_quiet now s :
  quiet s -> quiet (processCoarseSweep adc now s).
Proof.
  intros (Hm & Hr & Hh & Hf).
  destruct (Z_gt_le_dec (currentTestFreq s) (END_FREQ s)) as [Hend | Hin].
  - rewrite processCoarseSweep_no_result by auto.
    repeat split; st; assumption.
  - destruct (u32 (now - lastSampleTime s) >=? STABILIZE_DELAY) eqn:Hg.
    + pose proof (processCoarseSweep_sample adc now s Hin Hg) as H.
      cbv zeta in H. destruct H as (Hv & _ & _ & _ & _ & _ & _ & Hmax).
      rewrite (burst_loop_flat adc c adc_flat c_range), Hm in Hmax.
      change (fgt (fdiv fzero (of_Z SAMPLES_PER_FREQ)) fzero) with false in Hmax.
      destruct Hmax as [Hm' Hr'].
      unfold control_view in Hv. injection Hv as _ _ _ _ _ E6 E7 _ _.
      repeat split; congruence.
    + rewrite processCoarseSweep_wait by assumption. repeat split; assumption.
Qed.

Lemma loop_quiet now s : quiet s -> quiet (loop adc now s).
Proof.
  intros Hq. unfold loop. destruct (testRunning s); [| exact Hq].
  destruct (coarsePhase s); [apply processCoarseSweep_quiet, Hq |].
  destruct Hq as (H1 & H2 & H3 & H4). rewrite H4. repeat split; assumption.
Qed.

Lemma run_quiet ticks : forall s, quiet s -> quiet (run adc ticks s).
Proof.
  induction ticks as [| now ticks IH]; intros s Hq; [exact Hq |].
  rewrite run_cons. apply IH, loop_quiet, Hq.
Qed.

Lemma run_flat_completes ticks : forall s,
  quiet s -> testRunning s = true -> coarsePhase s = true ->
  0 <= currentTestFreq s -> END_FREQ s + FREQ_STEP < 2 ^ 32 ->
  paced (lastSampleTime s) ticks = true ->
  (steps_left s < length ticks)%nat ->
  testComplete (run adc ticks s) = true /\ testRunning (run adc ticks s) = false.
Proof.
  induction ticks as [| now ticks IH]; intros s Hq Hrun Hc Hlo Hhi Hp Hn;
    [simpl in Hn; lia |].
  cbn [paced] in Hp. apply andb_true_iff in Hp as [Hg Hp].
  rewrite run_cons. unfold loop. rewrite Hrun, Hc.
  destruct (Z_gt_le_dec (currentTestFreq s) (END_FREQ s)) as [Hend | Hin].
  - destruct Hq as (_ & Hr & _).
    rewrite processCoarseSweep_no_result by auto.
    rewrite (run_idle adc ticks) by reflexivity. split; reflexivity.
  - pose proof (processCoarseSweep_sample adc now s Hin Hg) as H.
    cbv zeta in H. destruct H as (Hv & Hcur & _ & Hlast & _).
    unfold control_view in Hv. injection Hv as _ E2 E3 _ E5 _ _ _ _.
    unfold FREQ_STEP in *.
    rewrite u32_small in Hcur by lia.
    apply IH.
    + apply processCoarseSweep_quiet, Hq.
    + congruence.
    + congruence.
    + lia.
    + rewrite E2. exact Hhi.
    + rewrite Hlast. exact Hp.
    + unfold steps_left in *. rewrite E2, Hcur. unfold FREQ_STEP in *.
      replace (END_FREQ s + 50 - (currentTestFreq s + 50))
        with (END_FREQ s + 50 - currentTestFreq s + (-1) * 50) by lia.
      rewrite Z.div_add by lia.
      assert (1 <= (END_FREQ s + 50 - currentTestFreq s) / 50)
        by (apply Z.div_le_lower_bound; lia).
      simpl in Hn. lia.
Qed.

End FlatSweep.

(** ** Harmonic classification and the fundamental *)

Lemma ratio_ok_self tol x : ratio_ok tol x x = false.
Proof.
  unfold ratio_ok. pose proof (round_int_fdiv_self x) as H.
  apply Z.ltb_lt in H.
  destruct (Z.geb_spec (round_int (fdiv x x)) 2) as [? | _]; [lia | reflexivity].
Qed.

Lemma outside_not_fundamental w s : 0 <= w -> outside w s -> not_fundamental s.
Proof. intros Hw [H | H]; [left; exact H | right; unfold far in H; lia]. Qed.

Lemma coarse_ratio_step_not_fundamental tol s i :
  not_fundamental s -> not_fundamental (coarse_ratio_step tol s i).
Proof.
  intros Hs. unfold coarse_ratio_step.
  set (fq := freqs s !!! Z.to_nat i). set (a := amplitudes s !!! Z.to_nat i).
  assert (Hset : forall s0 : State,
            ratio_ok tol (of_Z fq) (of_Z (resonantFreq s0)) = true
            \/ ratio_ok tol (of_Z (resonantFreq s0)) (of_Z fq) = true ->
            not_fundamental (set_bestHarmFreq fq (set_bestHarmAmp a s0))).
  { intros s0 H. right. st. intros E. rewrite E in H.
    rewrite !ratio_ok_self in H. destruct H; discriminate. }
  destruct (ratio_ok tol (of_Z fq) (of_Z (resonantFreq s)) && fgt a (bestHarmAmp s)) eqn:E1.
  - apply andb_true_iff in E1 as [E1 _].
    match goal with |- context [if ?b then _ else _] => destruct b eqn:E2 end.
    + apply andb_true_iff in E2 as [E2 _]. apply Hset. right. exact E2.
    + apply Hset. left. exact E1.
  - match goal with |- context [if ?b then _ else _] => destruct b eqn:E2 end;
      [| exact Hs].
    apply andb_true_iff in E2 as [E2 _]. apply Hset. right. exact E2.
Qed.

Lemma fold_left_preserves {A} (P : State -> Prop) (step : State -> A -> State) l :
  (forall s x, P s -> P (step s x)) -> forall s, P s -> P (fold_left step l s).
Proof.
  intros Hstep. induction l as [| x l IH]; intros s Hs; [exact Hs |].
  cbn [fold_left]. apply IH, Hstep, Hs.
Qed.

Lemma fallback_loop_outside n : forall i s bestAmp bestF,
  0 <= resonantFreq s -> resonantFreq s + FREQ_STEP * 3 < 2 ^ 32 ->
  Forall (fun x => 0 <= x /\ x + FREQ_STEP * 3 < 2 ^ 32) (freqs s) ->
  bestF = 0 \/ far (FREQ_STEP * 3) bestF (resonantFreq s) ->
  snd (fallback_loop n i s bestAmp bestF) = 0
  \/ far (FREQ_STEP * 3) (snd (fallback_loop n i s bestAmp bestF)) (resonantFreq s).
Proof.
  induction n as [| n IH]; intros i s bestAmp bestF Hr0 Hr Hf Hb; cbn [fallback_loop];
    [exact Hb |].
  assert (Hfq : 0 <= freqs s !!! i /\ freqs s !!! i + FREQ_STEP * 3 < 2 ^ 32).
  { apply (lookup_total_Forall (fun x => 0 <= x /\ x + FREQ_STEP * 3 < 2 ^ 32));
      [exact Hf | simpl; unfold FREQ_STEP; lia]. }
  change (u32 (FREQ_STEP * 3)) with (FREQ_STEP * 3). unfold FREQ_STEP in *.
  rewrite !u32_small by lia.
  destruct ((freqs s !!! i >? resonantFreq s + 50 * 3)
            || (freqs s !!! i + 50 * 3 <? resonantFreq s)) eqn:E;
    [| apply IH; assumption].
  destruct (fgt _ _); [| apply IH; assumption].
  apply IH; try assumption. right. unfold far.
  apply orb_true_iff in E as [E | E]; [apply Z.gtb_lt in E | apply Z.ltb_lt in E]; lia.
Qed.

Lemma computeBestHarmonicFromCoarse_not_fundamental s :
  0 <= resonantFreq s -> resonantFreq s + FREQ_STEP * 3 < 2 ^ 32 ->
  Forall (fun x => 0 <= x /\ x + FREQ_STEP * 3 < 2 ^ 32) (freqs s) ->
  not_fundamental (computeBestHarmonicFromCoarse s).
Proof.
  intros Hr0 Hr Hf. unfold computeBestHarmonicFromCoarse.
  set (s0 := set_bestHarmAmp fzero (set_bestHarmFreq 0 s)).
  assert (H0 : not_fundamental s0) by (left; reflexivity).
  destruct (_ || _); [exact H0 |].
  match goal with |- context [fold_left ?st ?l s0] =>
    pose proof (fold_left_preserves not_fundamental st l
                  (fun u x => coarse_ratio_step_not_fundamental _ u x) s0 H0) as H1;
    pose proof (fold_harm_only st l (coarse_ratio_step_harm _) s0) as Hh;
    set (s1 := fold_left st l s0) in * end.
  destruct (bestHarmFreq s1 =? 0); [| exact H1].
  destruct Hh as (fq & a & Hs1).
  pose proof (fallback_loop_outside (Z.to_nat (dataPoints s1)) 0 s1 fzero 0) as Hfb.
  rewrite Hs1 in Hfb at 1 2 3. st_in Hfb.
  specialize (Hfb Hr0 Hr Hf (or_introl eq_refl)).
  destruct (fallback_loop _ _ _ _ _) as [bestAmp bestF]. cbn [snd] in Hfb.
  destruct (Z.eqb_spec bestF 0) as [-> | Hne]; cbn [negb]; [exact H1 |].
  right. st. rewrite Hs1 in Hfb. st_in Hfb. rewrite Hs1. st.
  destruct Hfb as [? | Hfar]; [contradiction |]. unfold far, FREQ_STEP in Hfar. lia.
Qed.

Lemma fine_harmonic_step_outside tol s t :
  0 <= bestFreq t < 2 ^ 32 -> 0 <= resonantFreq s < 2 ^ 32 ->
  outside FINE_STEP s -> outside FINE_STEP (fine_harmonic_step tol s t).
Proof.
  intros Hf Hr Hs. unfold fine_harmonic_step.
  destruct (_ || _); [exact Hs |].
  destruct (abs_int (i32 (i32 (bestFreq t) - i32 (resonantFreq s))) <=? i32 FINE_STEP) eqn:G;
    [exact Hs |].
  assert (Hfar : far FINE_STEP (bestFreq t) (resonantFreq s)).
  { unfold far. destruct (Z_le_gt_dec (Z.abs (bestFreq t - resonantFreq s)) FINE_STEP)
      as [Hle | Hgt]; [| lia].
    change (i32 FINE_STEP) with FINE_STEP in G.
    rewrite abs_int_near in G; [discriminate | assumption | assumption | | assumption].
    unfold FINE_STEP. lia. }
  repeat (match goal with |- context [if ?b then _ else _] => destruct b end);
    first [exact Hs | right; st; exact Hfar].
Qed.

Lemma fine_harmonic_loop_outside s :
  Forall (fun t => 0 <= bestFreq t < 2 ^ 32) (fineTargets s) ->
  0 <= resonantFreq s < 2 ^ 32 ->
  outside FINE_STEP s -> outside FINE_STEP (fine_harmonic_loop s).
Proof.
  intros Ht Hr Hs. unfold fine_harmonic_loop.
  assert (Htg : Forall (fun t => 0 <= bestFreq t < 2 ^ 32) (targets s))
    by (unfold targets; apply Forall_take, Ht).
  revert Htg Hr Hs. generalize (targets s). intros l. revert s Ht.
  induction l as [| t l IH]; intros s Ht Hl Hr Hs; [exact Hs |].
  apply Forall_cons in Hl as [Htr Hl]. cbn [fold_left].
  destruct (fine_harmonic_step_harm (lit 8 100) s t) as (fq & a & E).
  apply IH.
  - rewrite E. st. exact Ht.
  - exact Hl.
  - rewrite E. st. exact Hr.
  - apply fine_harmonic_step_outside; assumption.
Qed.

(** ** What the decimation keeps *)

Lemma ceil_div_on_grid k e :
  1 <= e -> 0 <= k -> k mod e = 0 ->
  (k + e - 1) / e = k / e /\ (k + 1 + e - 1) / e = k / e + 1.
Proof.
  intros He Hk Hm.
  pose proof (Z.div_mod k e ltac:(lia)) as Hd. rewrite Hm in Hd.
  set (q := k / e) in *.
  split.
  - replace (k + e - 1) with (e - 1 + q * e) by lia.
    rewrite Z.div_add by lia. rewrite Z.div_small by lia. lia.
  - replace (k + 1 + e - 1) with (0 + (q + 1) * e) by lia.
    rewrite Z.div_add by lia. rewrite Z.div_small by lia. lia.
Qed.

Lemma ceil_div_off_grid k e :
  1 <= e -> 0 <= k -> k mod e <> 0 ->
  (k + 1 + e - 1) / e = (k + e - 1) / e.
Proof.
  intros He Hk Hm.
  pose proof (Z.div_mod k e ltac:(lia)) as Hd.
  pose proof (Z.mod_pos_bound k e ltac:(lia)) as Hr.
  set (q := k / e) in *. set (r := k mod e) in *.
  replace (k + 1 + e - 1) with (r + (q + 1) * e) by lia.
  replace (k + e - 1) with (r - 1 + (q + 1) * e) by lia.
  rewrite !Z.div_add by lia. rewrite !Z.div_small by lia. reflexivity.
Qed.

(** The stride leaves room for every multiple of it inside the band. *)
Lemma stride_room st en k :
  0 <= k -> st + FREQ_STEP * k <= en -> k / stride st en < MAX_DATA_POINTS.
Proof.
  intros Hk Hin. unfold stride, FREQ_STEP, MAX_DATA_POINTS in *.
  destruct (Z.gtb_spec en st) as [Hgt | Hle].
  - set (n := (en - st) / 50 + 1).
    assert (Hn : k < n).
    { unfold n. assert (k <= (en - st) / 50) by (apply Z.div_le_lower_bound; lia). lia. }
    apply Z.div_lt_upper_bound.
    + apply Z.div_str_pos. lia.
    + pose proof (Z.div_mod (n + (70 - 1)) 70 ltac:(lia)) as Hd.
      pose proof (Z.mod_pos_bound (n + (70 - 1)) 70 ltac:(lia)) as Hr.
      lia.
  - assert (k = 0) by lia. subst k. rewrite Z.div_0_l; lia.
Qed.

(** What a sampling step stores, and when. *)
Lemma processCoarseSweep_store_when adc now s :
  currentTestFreq s <= END_FREQ s ->
  (u32 (now - lastSampleTime s) >=? STABILIZE_DELAY) = true ->
  let s' := processCoarseSweep adc now s in
  storeEvery s' = storeEvery s
  /\ stepIndex s' = u32 (stepIndex s + 1)
  /\ if (dataPoints s <? MAX_DATA_POINTS)
        && ((stepIndex s mod storeEvery s =? 0) || (dataPoints s =? 0)
            || (currentTestFreq s >=? END_FREQ s))
     then freqs s' = <[Z.to_nat (dataPoints s) := currentTestFreq s]> (freqs s)
          /\ dataPoints s' = i32 (dataPoints s + 1)
     else freqs s' = freqs s /\ dataPoints s' = dataPoints s.
Proof.
  intros Hin Hgate s'. subst s'. unfold processCoarseSweep.
  destruct (Z.gtb_spec (currentTestFreq s) (END_FREQ s)) as [? | _]; [lia |].
  rewrite Hgate.
  pose proof (burst_loop_meas adc (Z.to_nat SAMPLES_PER_FREQ) s fzero) as Hm.
  destruct (burst_loop adc _ s fzero) as [s1 sum]. cbn [fst snd] in *.
  destruct Hm as (k & ipp & ipk & ->). st.
  set (cur := fdiv sum (of_Z SAMPLES_PER_FREQ)).
  destruct (fgt cur (maxAmplitude s)); st;
    (destruct (dataPoints s <? MAX_DATA_POINTS); st;
     [destruct ((stepIndex s mod storeEvery s =? 0) || (dataPoints s =? 0)
                || (currentTestFreq s >=? END_FREQ s)); st |]);
    repeat split; reflexivity.
Qed.

Lemma startFineTarget_step now i s :
  stepIndex (startFineTarget now i s) = stepIndex s.
Proof. unfold startFineTarget. destruct (_ || _); reflexivity. Qed.

(** The tick that ends the coarse phase leaves the step counter alone. *)
Lemma processCoarseSweep_end_step adc now s :
  currentTestFreq s > END_FREQ s ->
  stepIndex (processCoarseSweep adc now s) = stepIndex s.
Proof.
  intros Hend. unfold processCoarseSweep.
  destruct (Z.gtb_spec (currentTestFreq s) (END_FREQ s)) as [_ | ?]; [| lia].
  destruct (prepareFineTargets_shape (set_coarsePhase false (stopPWM s))) as (tg & c & ->).
  st. destruct (c >? 0).
  - st. rewrite startFineTarget_step. reflexivity.
  - match goal with |- context [computeBestHarmonicFromCoarse ?s0] =>
      destruct (computeBestHarmonicFromCoarse_harm s0) as (fq & a & ->) end.
    reflexivity.
Qed.

Lemma processFineSweep_step adc now s :
  stepIndex (processFineSweep adc now s) = stepIndex s.
Proof.
  unfold processFineSweep.
  destruct (currentFineIndex s >=? fineTargetCount s).
  - match goal with |- context [computeBestHarmonicFromFine ?s0] =>
      destruct (computeBestHarmonicFromFine_harm s0) as (fq & a & ->) end.
    reflexivity.
  - destruct (u32 _ >=? _); [| reflexivity].
    pose proof (burst_loop_meas adc (Z.to_nat FINE_SAMPLES_PER_FREQ) s fzero) as Hm.
    destruct (burst_loop adc _ s fzero) as [s1 sum]. cbn [fst] in Hm.
    destruct Hm as (k & ipp & ipk & ->). st.
    set (avg := fdiv sum (of_Z FINE_SAMPLES_PER_FREQ)).
    destruct (fgt avg (bestAmp (fineTargets s !!! Z.to_nat (currentFineIndex s)))); st;
      [destruct (fgt avg (maxAmplitude s)); st |];
      (destruct (u32 (fineSweepFreq s + fineSweepStep s) >? fineSweepEnd s); st;
       [destruct (i32 (currentFineIndex s + 1) <? fineTargetCount s); st |]);
      rewrite ?startFineTarget_step; reflexivity.
Qed.

Lemma kept_frame st s s' :
  curve_view s' = curve_view s -> stepIndex s' = stepIndex s -> coarsePhase s' = false ->
  kept st s -> kept st s'.
Proof.
  unfold curve_view. intros Hv Hi Hc [K1 K2].
  injection Hv as E1 E2 E3 E4 E5 E6.
  assert (Ec : curve_freqs s' = curve_freqs s) by (unfold curve_freqs; congruence).
  split.
  - rewrite Ec, Hi, E6. exact K1.
  - rewrite Hc. discriminate.
Qed.

(** A coarse step keeps what the decimation has kept, and stores the
    sample when its index is a multiple of the stride. *)
Lemma processCoarseSweep_kept st en adc now s :
  en + FREQ_STEP < 2 ^ 32 -> 0 <= st ->
  coarsePhase s = true ->
  curve_inv st en s -> kept st s -> kept st (processCoarseSweep adc now s).
Proof.
  intros Hen Hst Hc Hinv Hk.
  destruct (Z_gt_le_dec (currentTestFreq s) (END_FREQ s)) as [Hend | Hin].
  { destruct (processCoarseSweep_end_view adc now s Hend) as [Hv Hc'].
    apply (kept_frame st s); [exact Hv | | exact Hc' | exact Hk].
    apply processCoarseSweep_end_step, Hend. }
  destruct (u32 (now - lastSampleTime s) >=? STABILIZE_DELAY) eqn:Hg;
    [| rewrite processCoarseSweep_wait by assumption; exact Hk].
  pose proof (processCoarseSweep_inv st en adc now s Hen Hst Hc Hinv) as Hinv'.
  destruct (processCoarseSweep_sample adc now s Hin Hg) as (Hv & Hcur & _).
  destruct (processCoarseSweep_store_when adc now s Hin Hg) as (Hse & Hidx & Hstore).
  revert Hinv' Hv Hcur Hse Hidx Hstore. generalize (processCoarseSweep adc now s).
  intros s' Hinv' Hv Hcur Hse Hidx Hstore.
  destruct Hinv as [H1 H2 H3 H4 H5 H6 H7 H8].
  destruct (H8 Hc) as (Hk0 & Hcur0 & Hlt & Hbelow & Hfirst).
  destruct Hk as [K1 K2]. specialize (K2 Hc Hin).
  unfold control_view in Hv. injection Hv as _ E2 _ _ E5 _ _ _ _.
  unfold FREQ_STEP, MAX_DATA_POINTS in *.
  assert (Hs1 : 1 <= storeEvery s) by (rewrite H6; apply stride_pos; lia).
  rewrite u32_small in Hcur by lia. rewrite u32_small in Hidx by lia.
  assert (Hcurve : forall fs : list Z,
            fs = <[Z.to_nat (dataPoints s) := currentTestFreq s]> (freqs s) ->
            dataPoints s < 70 ->
            take (Z.to_nat (dataPoints s + 1)) fs = curve_freqs s ++ [currentTestFreq s]).
  { intros fs -> Hroom. unfold curve_freqs.
    replace (Z.to_nat (dataPoints s + 1)) with (S (Z.to_nat (dataPoints s))) by lia.
    erewrite take_S_r by (apply list_lookup_insert_eq; lia).
    rewrite take_insert_ge by lia. reflexivity. }
  destruct (Z.eq_dec (stepIndex s mod storeEvery s) 0) as [Hgrid | Hoff].
  - (* a multiple of the stride: there is room, and the sample is stored *)
    destruct (ceil_div_on_grid _ _ Hs1 Hk0 Hgrid) as [C1 C2].
    assert (Hroom : dataPoints s < 70).
    { rewrite K2, C1, H6, <- H1, <- H2.
      apply (stride_room (START_FREQ s) (END_FREQ s) (stepIndex s));
        [exact Hk0 | unfold FREQ_STEP; lia]. }
    destruct (Z.ltb_spec (dataPoints s) 70) as [_ | ?]; [| lia].
    apply Z.eqb_eq in Hgrid. rewrite Hgrid in Hstore. cbn [orb andb] in Hstore.
    destruct Hstore as [Hf Hd]. rewrite i32_small in Hd by lia.
    assert (Ec : curve_freqs s' = curve_freqs s ++ [currentTestFreq s])
      by (unfold curve_freqs at 1; rewrite Hd; apply Hcurve; assumption).
    split.
    + intros j Hj Hjm. rewrite Hidx in Hj. rewrite Hse in Hjm. rewrite Ec.
      apply elem_of_app.
      destruct (Z.eq_dec j (stepIndex s)) as [-> | Hne].
      * right. apply list_elem_of_singleton. unfold FREQ_STEP. lia.
      * left. apply K1; [lia | exact Hjm].
    + intros _ _. rewrite Hd, Hidx, Hse, K2, C1, C2. reflexivity.
  - (* off the stride: the curve can only grow *)
    assert (Hsub : forall x, x ∈ curve_freqs s -> x ∈ curve_freqs s').
    { intros x Hx.
      destruct ((dataPoints s <? 70) && _) eqn:Hb in Hstore.
      - destruct Hstore as [Hf Hd].
        apply andb_true_iff in Hb as [Hroom _]. apply Z.ltb_lt in Hroom.
        rewrite i32_small in Hd by lia.
        unfold curve_freqs at 1. rewrite Hd, (Hcurve _ Hf Hroom).
        apply elem_of_app. left. exact Hx.
      - destruct Hstore as [Hf Hd]. unfold curve_freqs in *. rewrite Hf, Hd. exact Hx. }
    split.
    + intros j Hj Hjm. rewrite Hidx in Hj. rewrite Hse in Hjm.
      destruct (Z.eq_dec j (stepIndex s)) as [-> | Hne]; [contradiction |].
      apply Hsub, K1; [lia | exact Hjm].
    + intros _ Hin'. rewrite Hcur, E2 in Hin'.
      assert (Hdp : dataPoints s <> 0).
      { intros Hz. rewrite (Hfirst Hz) in Hoff. apply Hoff, Z.mod_0_l. lia. }
      apply Z.eqb_neq in Hoff, Hdp.
      destruct (Z.geb_spec (currentTestFreq s) (END_FREQ s)) as [? | _]; [lia |].
      rewrite Hoff, Hdp, andb_false_r in Hstore. destruct Hstore as [_ Hd].
      rewrite Hd, Hidx, Hse, K2. symmetry. apply ceil_div_off_grid; [lia | lia |].
      apply Z.eqb_neq. exact Hoff.
Qed.

Lemma loop_kept st en adc now s :
  en + FREQ_STEP < 2 ^ 32 -> 0 <= st ->
  curve_inv st en s -> kept st s -> kept st (loop adc now s).
Proof.
  intros Hen Hst Hinv Hk. unfold loop.
  destruct (testRunning s); [| exact Hk].
  destruct (coarsePhase s) eqn:Hc; [apply (processCoarseSweep_kept st en); assumption |].
  destruct (finePhase s); [| exact Hk].
  pose proof (processFineSweep_view adc now s) as Hv.
  apply (kept_frame st s); [| apply processFineSweep_step | | exact Hk].
  - unfold coarse_view in Hv. unfold curve_view. congruence.
  - unfold coarse_view in Hv. congruence.
Qed.

Lemma run_kept st en adc ticks : forall s,
  en + FREQ_STEP < 2 ^ 32 -> 0 <= st ->
  curve_inv st en s -> kept st s -> kept st (run adc ticks s).
Proof.
  induction ticks as [| now ticks IH]; intros s Hen Hst Hinv Hk; [exact Hk |].
  rewrite run_cons. apply IH; try assumption.
  - apply loop_inv; assumption.
  - apply (loop_kept st en); assumption.
Qed.

Lemma startTwoPassTest_kept now s :
  0 <= START_FREQ s -> END_FREQ s < 2 ^ 32 ->
  curve_inv (START_FREQ s) (END_FREQ s) (startTwoPassTest now s) ->
  kept (START_FREQ s) (startTwoPassTest now s).
Proof.
  intros Hs He Hinv.
  destruct (startTwoPassTest_fields now s)
    as (_ & _ & (_ & _ & _ & F4 & _) & (D1 & _) & _).
  pose proof (ci_stride _ _ _ Hinv) as Hstr.
  pose proof (stride_pos (START_FREQ s) (END_FREQ s) Hs He) as Hpos.
  revert F4 D1 Hstr. generalize (startTwoPassTest now s). intros s0 F4 D1 Hstr.
  split.
  - intros j Hj. lia.
  - intros _ _. rewrite D1, F4, Hstr. rewrite Z.div_small; lia.
Qed.

Lemma startFineTarget_control now i s :
  control_view (startFineTarget now i s) = control_view s.
Proof. unfold startFineTarget. destruct (_ || _); reflexivity. Qed.

Lemma wf_state_frame s s' :
  freqs s' = freqs s -> amplitudes s' = amplitudes s -> fineTargets s' = fineTargets s ->
  resonantFreq s' = resonantFreq s -> wf_state s -> wf_state s'.
Proof. intros E1 E2 E3 E4 [H1 H2 H3 H4 H5]. split; congruence. Qed.

(** The state that enters the fine phase, over any prepared state. *)
Lemma enter_fine_fields now p :
  let s1 := set_finePhase true (startFineTarget now 0 (set_currentFineIndex 0 p)) in
  finePhase s1 = true /\ testComplete s1 = testComplete p
  /\ bestHarmFreq s1 = bestHarmFreq p /\ coarsePhase s1 = coarsePhase p
  /\ center <$> fineTargets s1 = center <$> fineTargets p.
Proof.
  intros s1. subst s1.
  pose proof (startFineTarget_control now 0 (set_currentFineIndex 0 p)) as Hc.
  pose proof (startFineTarget_view now 0 (set_currentFineIndex 0 p)) as Hv.
  revert Hc Hv. generalize (startFineTarget now 0 (set_currentFineIndex 0 p)).
  intros x Hc Hv. unfold control_view, coarse_view in *. st_in Hc. st_in Hv.
  injection Hc as _ _ _ E4 _ _ E7 _ _. injection Hv as _ _ _ _ _ _ F7 _ F9.
  st. repeat split; assumption.
Qed.

(** What preparation at the end of the coarse phase leaves alone. *)
Lemma prepared_fields s :
  let p := prepareFineTargets (set_coarsePhase false (stopPWM s)) in
  testComplete p = testComplete s /\ bestHarmFreq p = bestHarmFreq s
  /\ finePhase p = finePhase s /\ coarsePhase p = false.
Proof.
  intros p. subst p.
  destruct (prepareFineTargets_shape (set_coarsePhase false (stopPWM s))) as (tg & c & ->).
  repeat split; reflexivity.
Qed.

Lemma classified_fields p :
  let s1 := set_testComplete true (set_testRunning false (computeBestHarmonicFromCoarse p)) in
  finePhase s1 = finePhase p /\ testComplete s1 = true.
Proof.
  intros s1. subst s1.
  destruct (computeBestHarmonicFromCoarse_harm p) as (fq & a & ->).
  split; reflexivity.
Qed.

(** * The claims *)

(** C6: throughout a coarse sweep started by [startTwoPassTest] on a band
    that does not wrap ([END_FREQ + FREQ_STEP] fits an [unsigned int]),
    whatever the sensor returns and whenever the ticks come, the stored
    coarse curve is strictly increasing in frequency, holds [dataPoints]
    points with [dataPoints <= MAX_DATA_POINTS = 70], and is decimated at
    the fixed stride [storeEvery]: every stored frequency is a step of
    the sweep whose index is a multiple of the stride, or the last point
    at the end of the band, and every step sampled so far whose index is
    a multiple of the stride is stored, capacity never being in its way;
    while the sweep is inside the band the curve holds exactly one point
    per stride begun. *)
Theorem coarse_curve_sorted_bounded adc now ticks s :
  length (freqs s) = Z.to_nat MAX_DATA_POINTS ->
  0 <= START_FREQ s < 2 ^ 32 ->
  0 <= END_FREQ s ->
  END_FREQ s + FREQ_STEP < 2 ^ 32 ->
  let s' := run adc ticks (startTwoPassTest now s) in
  let every := stride (START_FREQ s) (END_FREQ s) in
  StronglySorted Z.lt (curve_freqs s')
  /\ length (curve_freqs s') = Z.to_nat (dataPoints s')
  /\ 0 <= dataPoints s' <= MAX_DATA_POINTS
  /\ storeEvery s' = every
  /\ Forall (on_grid (START_FREQ s) (END_FREQ s) every) (curve_freqs s')
  /\ (forall j, 0 <= j < stepIndex s' -> j mod every = 0 ->
        START_FREQ s + FREQ_STEP * j ∈ curve_freqs s')
  /\ (coarsePhase s' = true ->
      currentTestFreq s' = START_FREQ s + FREQ_STEP * stepIndex s'
      /\ (currentTestFreq s' <= END_FREQ s ->
          dataPoints s' = (stepIndex s' + every - 1) / every)).
Proof.
  intros Hl Hs He Hen s' every. subst every.
  assert (Hinv0 : curve_inv (START_FREQ s) (END_FREQ s) (startTwoPassTest now s))
    by (apply startTwoPassTest_inv; [exact Hl | exact Hs | unfold FREQ_STEP in Hen; lia]).
  assert (Hinv : curve_inv (START_FREQ s) (END_FREQ s) s')
    by (apply run_inv; [exact Hen | lia | exact Hinv0]).
  assert (Hkept : kept (START_FREQ s) s').
  { apply (run_kept _ (END_FREQ s)); [exact Hen | lia | exact Hinv0 |].
    apply startTwoPassTest_kept; [lia | unfold FREQ_STEP in Hen; lia | exact Hinv0]. }
  revert Hinv Hkept. generalize s'. clear s'. intros s' Hinv [K1 K2].
  destruct Hinv as [H1 H2 H3 H4 H5 H6 H7 H8].
  split; [exact H5 |]. split.
  - unfold curve_freqs. rewrite length_take, H3. unfold MAX_DATA_POINTS in *. lia.
  - split; [exact H4 |]. split; [exact H6 |]. split; [rewrite <- H6; exact H7 |].
    split.
    + intros j Hj Hjm. apply K1; [exact Hj | rewrite H6; exact Hjm].
    + intros Hc. destruct (H8 Hc) as (_ & Hcur & _).
      split; [exact Hcur |]. intros Hin. rewrite <- H6. apply K2; [exact Hc |].
      rewrite H2. exact Hin.
Qed.

(** C7: at every tick of a sweep, coarse or fine, the running maximum
    [maxAmplitude] and the resonant frequency are both left unchanged, or
    the maximum strictly increases; the same holds between any two states
    of a run, so the maximum never decreases and the resonant frequency
    changes only when the maximum strictly increases. *)
Theorem max_amplitude_monotone adc ticks now s :
  max_step s (run adc ticks s)
  /\ max_step (run adc ticks s) (loop adc now (run adc ticks s))
  /\ fle_prop (maxAmplitude s) (maxAmplitude (loop adc now (run adc ticks s))).
Proof.
  pose proof (run_max_step adc ticks s) as H1.
  pose proof (loop_max_step adc now (run adc ticks s)) as H2.
  split; [exact H1 |]. split; [exact H2 |].
  destruct (max_step_trans _ _ _ H1 H2) as [[E _] | H]; [left; congruence | right; exact H].
Qed.

(** C9: after target preparation on a well-formed state, any two distinct
    accepted targets, target 0 included, have centres more than the
    deduplication window [FREQ_STEP * 4] apart. *)
Theorem accepted_targets_far_apart s :
  wf_state s ->
  far_apart (FREQ_STEP * 4) (targets (prepareFineTargets s)).
Proof.
  intros Hwf.
  destruct (Z.eq_dec (resonantFreq s) 0) as [Hr | Hr];
    [| destruct (Z_lt_le_dec (dataPoints s) 3) as [Hd | Hd]].
  - rewrite prepareFineTargets_none by auto.
    intros i j ti tj _ Hi _. unfold targets in Hi. st_in Hi. rewrite take_0 in Hi.
    discriminate.
  - rewrite prepareFineTargets_none by auto.
    intros i j ti tj _ Hi _. unfold targets in Hi. st_in Hi. rewrite take_0 in Hi.
    discriminate.
  - apply (ai_far _ _ _ (prepareFineTargets_inv s Hwf Hr Hd)).
Qed.

(** C10: target preparation yields between 0 and [MAX_FINE_TARGETS]
    targets, at least one exactly when a resonance was found and the
    curve has at least 3 points.  The tick that ends the coarse phase
    then enters the fine phase at target 0 without classifying; otherwise
    it classifies from the coarse curve and completes the sweep. *)
Theorem targets_decide_fine_phase adc now s :
  currentTestFreq s > END_FREQ s ->
  let p := prepareFineTargets (set_coarsePhase false (stopPWM s)) in
  let s' := processCoarseSweep adc now s in
  0 <= fineTargetCount (prepareFineTargets s) <= MAX_FINE_TARGETS
  /\ (1 <= fineTargetCount (prepareFineTargets s)
      <-> resonantFreq s <> 0 /\ 3 <= dataPoints s)
  /\ (resonantFreq s <> 0 /\ 3 <= dataPoints s ->
      s' = set_finePhase true (startFineTarget now 0 (set_currentFineIndex 0 p))
      /\ finePhase s' = true /\ testComplete s' = testComplete s
      /\ bestHarmFreq s' = bestHarmFreq s)
  /\ (resonantFreq s = 0 \/ dataPoints s < 3 ->
      s' = set_testComplete true (set_testRunning false (computeBestHarmonicFromCoarse p))
      /\ finePhase s' = finePhase s /\ testComplete s' = true).
Proof.
  intros Hend p s'.
  destruct (prepareFineTargets_count s) as [Hb Hiff].
  destruct (processCoarseSweep_transition adc now s Hend) as [Hfine Hcoarse].
  fold p in Hfine, Hcoarse. fold s' in Hfine, Hcoarse.
  destruct (prepared_fields s) as (P1 & P2 & P3 & P4). fold p in P1, P2, P3, P4.
  split; [exact Hb |]. split; [exact Hiff |]. split.
  - intros H. specialize (Hfine H). split; [exact Hfine |].
    destruct (enter_fine_fields now p) as (F1 & F2 & F3 & _).
    rewrite Hfine. repeat split; congruence.
  - intros H. specialize (Hcoarse H). split; [exact Hcoarse |].
    destruct (classified_fields p) as (G1 & G2).
    rewrite Hcoarse. split; congruence.
Qed.

(** C8 (amended): whenever target preparation produces any targets,
    right after it [fineTargets[0]] holds the global coarse maximum
    ([center = bestFreq = resonantFreq], [bestAmp = maxAmplitude]); during
    refinement only the centre of target 0 is kept, equal to the frequency
    of the coarse maximum, while [bestFreq] and [bestAmp] are reset when
    its refinement starts and then follow the fine sweep. *)
Theorem target0_seeded_with_coarse_maximum adc now ticks s :
  wf_state s ->
  currentTestFreq s > END_FREQ s ->
  1 <= fineTargetCount (prepareFineTargets s) ->
  let p := prepareFineTargets s in
  fineTargets p !! 0%nat
  = Some (mkFineTarget (resonantFreq p) (resonantFreq p) (maxAmplitude p) true)
  /\ center <$> (fineTargets (run adc ticks (processCoarseSweep adc now s)) !! 0%nat)
     = Some (resonantFreq s).
Proof.
  intros Hwf Hend Hcount p.
  apply (proj2 (prepareFineTargets_count s)) in Hcount as [Hr Hd].
  split.
  - pose proof (prepareFineTargets_inv s Hwf Hr Hd) as Hinv. fold p in Hinv.
    destruct (prepareFineTargets_shape s) as (tg & c & Hp). fold p in Hp.
    rewrite (ai_first _ _ _ Hinv). rewrite Hp. reflexivity.
  - destruct (processCoarseSweep_transition adc now s Hend) as [Hfine _].
    rewrite (Hfine (conj Hr Hd)). clear Hfine.
    assert (Hwf0 : wf_state (set_coarsePhase false (stopPWM s)))
      by (apply (wf_state_frame s); [reflexivity .. | exact Hwf]).
    pose proof (prepareFineTargets_inv _ Hwf0 Hr Hd) as Hinv.
    apply ai_first in Hinv.
    destruct (prepared_fields s) as (_ & _ & _ & P4).
    revert Hinv P4. generalize (prepareFineTargets (set_coarsePhase false (stopPWM s))).
    intros p0 Hinv P4.
    destruct (enter_fine_fields now p0) as (_ & _ & _ & F4 & F5).
    revert F4 F5.
    generalize (set_finePhase true (startFineTarget now 0 (set_currentFineIndex 0 p0))).
    intros s1 F4 F5.
    pose proof (run_fine_view adc ticks s1 ltac:(congruence)) as Hrun.
    unfold coarse_view in Hrun. injection Hrun as _ _ _ _ _ _ _ _ R9.
    rewrite <- list_lookup_fmap, R9, F5, list_lookup_fmap, Hinv. reflexivity.
Qed.

(** C5 (amended): for a signal without swing, where every measured
    amplitude is zero, the resonant frequency and the harmonic frequency
    stay at the sentinel 0 throughout the sweep, and the sweep completes
    once more paced ticks have come than the band has steps.  (A flat
    curve of a non-zero amplitude below the 0.01 floor does set the
    resonant frequency: the running maximum has no floor.) *)
Theorem flat_zero_signal_finds_nothing adc c now ticks s :
  (forall fq k, adc fq k = c) ->
  0 <= c <= 4095 ->
  let s0 := startTwoPassTest now (set_testRunning true s) in
  let s' := run adc ticks s0 in
  resonantFreq s' = 0 /\ bestHarmFreq s' = 0
  /\ (0 <= START_FREQ s -> END_FREQ s + FREQ_STEP < 2 ^ 32 ->
      paced now ticks = true -> (steps_left s0 < length ticks)%nat ->
      testComplete s' = true /\ testRunning s' = false).
Proof.
  intros Hflat Hc s0 s'.
  destruct (startTwoPassTest_fields now (set_testRunning true s))
    as ((M1 & M2 & M3 & _) & (C1 & C2 & C3 & _) & (F1 & F2 & F3 & _ & F5) & _).
  fold s0 in M1, M2, M3, C1, C2, C3, F1, F2, F3, F5.
  st_in C3. st_in F1. st_in F2. st_in F3.
  assert (Hq : quiet s0) by (repeat split; assumption).
  pose proof (run_quiet adc c Hflat Hc ticks s0 Hq) as (_ & Hr & Hh & _).
  split; [exact Hr |]. split; [exact Hh |].
  intros Hlo Hhi Hp Hn.
  apply (run_flat_completes adc c Hflat Hc);
    rewrite ?F2, ?F3, ?F5; assumption.
Qed.

(** C4 (amended): on frequencies that fit an [unsigned int] with room
    for the window, harmonic classification never returns the
    fundamental itself.  A harmonic taken from the refined targets is
    more than [FINE_STEP] (10 Hz) away from it, and the non-harmonic
    fallback over the coarse curve returns only frequencies more than
    [FREQ_STEP * 3] (150 Hz) away.  (The fine path has no wider window:
    it can return a frequency within 150 Hz of the fundamental.) *)
Theorem harmonic_is_not_the_fundamental s :
  0 <= resonantFreq s ->
  resonantFreq s + FREQ_STEP * 3 < 2 ^ 32 ->
  Forall (fun x => 0 <= x /\ x + FREQ_STEP * 3 < 2 ^ 32) (freqs s) ->
  Forall (fun t => 0 <= bestFreq t < 2 ^ 32) (fineTargets s) ->
  not_fundamental (computeBestHarmonicFromCoarse s)
  /\ not_fundamental (computeBestHarmonicFromFine s)
  /\ outside FINE_STEP (fine_harmonic_loop (set_bestHarmAmp fzero (set_bestHarmFreq 0 s)))
  /\ (snd (fallback_loop (Z.to_nat (dataPoints s)) 0 s fzero 0) = 0
      \/ far (FREQ_STEP * 3) (snd (fallback_loop (Z.to_nat (dataPoints s)) 0 s fzero 0))
           (resonantFreq s)).
Proof.
  intros Hr0 Hr Hf Ht.
  assert (Hfine : outside FINE_STEP
                    (fine_harmonic_loop (set_bestHarmAmp fzero (set_bestHarmFreq 0 s)))).
  { apply fine_harmonic_loop_outside; st; [exact Ht | unfold FREQ_STEP in Hr; lia |].
    left. reflexivity. }
  split; [apply computeBestHarmonicFromCoarse_not_fundamental; assumption |].
  split; [| split; [exact Hfine |
    apply fallback_loop_outside; [assumption .. | left; reflexivity]]].
  unfold computeBestHarmonicFromFine.
  set (s0 := set_bestHarmAmp fzero (set_bestHarmFreq 0 s)) in *.
  destruct (resonantFreq s0 =? 0); [left; reflexivity |].
  pose proof (fold_harm_only _ (targets s0) (fine_harmonic_step_harm (lit 8 100)) s0)
    as (fq & a & Hs1).
  fold (fine_harmonic_loop s0) in Hs1.
  destruct (bestHarmFreq (fine_harmonic_loop s0) =? 0).
  - apply computeBestHarmonicFromCoarse_not_fundamental; rewrite Hs1; st; assumption.
  - apply (outside_not_fundamental FINE_STEP); [unfold FINE_STEP; lia | exact Hfine].
Qed.

(** ** The test benches, evaluated *)

Lemma edge_run_result :
  START_FREQ edge_run = 20000
  /\ finePhase edge_run = true
  /\ fineTargetCount edge_run = 1
  /\ hd Stop (pwmLog edge_run) = SetFreq 19000
  /\ center (fineTargets edge_run !!! 0%nat) = 20000
  /\ flt (bestAmp (fineTargets edge_run !!! 0%nat)) (maxAmplitude edge_run) = true.
Proof. vm_compute. repeat split; reflexivity. Qed.

Lemma ladder_run_result :
  testComplete ladder_run = true
  /\ resonantFreq ladder_run = 20800
  /\ bestHarmFreq ladder_run = 30000
  /\ bestFreq <$> targets ladder_run = [20800; 30000; 41600]
  /\ forallb (fun t => flt fzero (bestAmp t)) (targets ladder_run) = true.
Proof. vm_compute. repeat split; reflexivity. Qed.

Lemma ladder_ratios :
  ratio_ok (lit 8 100) (of_Z 41600) (of_Z 20800) = true
  /\ ratio_ok (lit 8 100) (of_Z 30000) (of_Z 20800)
     || ratio_ok (lit 8 100) (of_Z 20800) (of_Z 30000) = false.
Proof. vm_compute. split; reflexivity. Qed.

Lemma drift_run_result :
  testComplete drift_run = true
  /\ resonantFreq drift_run = 20800
  /\ bestHarmFreq drift_run = 20850.
Proof. vm_compute. repeat split; reflexivity. Qed.

Lemma hum_run_result :
  testComplete hum_run = true
  /\ resonantFreq hum_run = 20000
  /\ bestHarmFreq hum_run = 19000
  /\ forallb (fun a => SFeqb a (maxAmplitude hum_run)) (curve_amps hum_run) = true
  /\ flt (maxAmplitude hum_run) (lit 1 100) = true.
Proof. vm_compute. repeat split; reflexivity. Qed.

#[global] Opaque edge_run ladder_run drift_run hum_run.

Lemma five_points_wf : wf_state five_points.
Proof.
  split; [reflexivity | reflexivity | reflexivity | | simpl; lia].
  apply (bool_decide_unpack _). vm_compute. exact I.
Defined.

(** * The claims, continued: the code at concrete inputs *)



(** C2: in the 20-46 kHz band with the resonance at the low edge
    (20000 Hz), the fine sweep of target 0 starts at 19000 Hz: the
    generator is set 1000 Hz below [START_FREQ].  Only the upper end of
    the window is clamped to the band. *)
Theorem fine_sweep_leaves_band_below :
  START_FREQ edge_run = 20000
  /\ finePhase edge_run = true
  /\ center (fineTargets edge_run !!! 0%nat) = 20000
  /\ hd Stop (pwmLog edge_run) = SetFreq 19000
  /\ 19000 < START_FREQ edge_run.
Proof.
  destruct edge_run_result as (E1 & E2 & E3 & E4 & E5 & E6).
  split; [exact E1 |]. split; [exact E2 |]. split; [exact E5 |]. split; [exact E4 |].
  rewrite E1. lia.
Qed.

(** C3: with the fundamental at 20800 Hz, a refined target at 41600 Hz
    (ratio 2, within the tolerance) and a stronger refined target at
    30000 Hz that satisfies no integer ratio, the classification from
    fine data reports 30000 Hz: the non-harmonic candidate wins although
    a ratio-satisfying candidate exists. *)
Theorem fine_classifier_prefers_amplitude_to_ratio :
  testComplete ladder_run = true
  /\ resonantFreq ladder_run = 20800
  /\ bestFreq <$> targets ladder_run = [20800; 30000; 41600]
  /\ forallb (fun t => flt fzero (bestAmp t)) (targets ladder_run) = true
  /\ ratio_ok (lit 8 100) (of_Z 41600) (of_Z 20800) = true
  /\ ratio_ok (lit 8 100) (of_Z 30000) (of_Z 20800)
     || ratio_ok (lit 8 100) (of_Z 20800) (of_Z 30000) = false
  /\ bestHarmFreq ladder_run = 30000.
Proof.
  destruct ladder_run_result as (E1 & E2 & E3 & E4 & E5).
  destruct ladder_ratios as (R1 & R2).
  split; [exact E1 |]. split; [exact E2 |]. split; [exact E4 |]. split; [exact E5 |].
  split; [exact R1 |]. split; [exact R2 | exact E3].
Qed.

(** Counterexample to C4: after a complete sweep the reported harmonic
    (20850 Hz) lies 50 Hz from the fundamental (20800 Hz), inside the
    exclusion window of [FREQ_STEP * 3] = 150 Hz. *)
Lemma fine_harmonic_inside_window :
  testComplete drift_run = true
  /\ bestHarmFreq drift_run <> 0
  /\ ~ far (FREQ_STEP * 3) (bestHarmFreq drift_run) (resonantFreq drift_run).
Proof.
  destruct drift_run_result as (E1 & E2 & E3).
  rewrite E2, E3. unfold far, FREQ_STEP. split; [exact E1 |]. split; lia.
Qed.

(** Counterexample to C5: on a flat curve, every stored amplitude equal
    and below the 0.01 floor, the sweep completes with a resonant
    frequency and a harmonic frequency that are not 0. *)
Lemma flat_curve_below_floor_sets_resonance :
  testComplete hum_run = true
  /\ forallb (fun a => SFeqb a (maxAmplitude hum_run)) (curve_amps hum_run) = true
  /\ flt (maxAmplitude hum_run) (lit 1 100) = true
  /\ resonantFreq hum_run <> 0
  /\ bestHarmFreq hum_run <> 0.
Proof.
  destruct hum_run_result as (E1 & E2 & E3 & E4 & E5).
  rewrite E2, E3. split; [exact E1 |]. split; [exact E4 |]. split; [exact E5 |].
  split; lia.
Qed.

(** Counterexample to C8: right after the tick that enters the fine
    phase, target 0 exists but its [bestAmp] is strictly below
    [maxAmplitude]: refinement has reset it. *)
Lemma target0_best_amp_reset :
  finePhase edge_run = true
  /\ 1 <= fineTargetCount edge_run
  /\ bestAmp (fineTargets edge_run !!! 0%nat) <> maxAmplitude edge_run.
Proof.
  destruct edge_run_result as (E1 & E2 & E3 & E4 & E5 & E6).
  rewrite E3. split; [exact E2 |]. split; [lia |].
  intros H. rewrite H, flt_irrefl in E6. discriminate E6.
Qed.

(** * Witnesses *)

Lemma coarse_curve_sorted_bounded_witness :
  let s := set_testRunning true (init_state 20000 23550) in
  let s' := run (sensor edge_swing) (ticks_every 0 5) (startTwoPassTest 0 s) in
  StronglySorted Z.lt (curve_freqs s')
  /\ 20100 ∈ curve_freqs s' /\ 20200 ∈ curve_freqs s'
  /\ dataPoints s' = 3.
Proof.
  pose proof (coarse_curve_sorted_bounded (sensor edge_swing) 0 (ticks_every 0 5)
                (set_testRunning true (init_state 20000 23550))) as H.
  cbv zeta in H. destruct H as (H1 & _ & _ & _ & _ & H6 & H7).
  - reflexivity.
  - simpl. lia.
  - simpl. lia.
  - simpl. unfold FREQ_STEP. lia.
  - split; [exact H1 |]. split; [| split].
    + apply (H6 2); [| vm_compute; reflexivity].
      split; [lia | apply Z.ltb_lt; vm_compute; reflexivity].
    + apply (H6 4); [| vm_compute; reflexivity].
      split; [lia | apply Z.ltb_lt; vm_compute; reflexivity].
    + destruct H7 as [_ H7]; [vm_compute; reflexivity |].
      rewrite H7; [vm_compute; reflexivity |].
      apply Z.leb_le. vm_compute. reflexivity.
Defined.


Lemma accepted_targets_far_apart_witness :
  far_apart (FREQ_STEP * 4) (targets (prepareFineTargets five_points)).
Proof. apply (accepted_targets_far_apart five_points). exact five_points_wf. Defined.

Lemma targets_decide_fine_phase_witness :
  1 <= fineTargetCount (prepareFineTargets five_points) <-> resonantFreq five_points <> 0 /\ 3 <= dataPoints five_points.
Proof.
  apply (targets_decide_fine_phase (sensor edge_swing) 46065 five_points).
  simpl. lia.
Defined.

Lemma target0_seeded_with_coarse_maximum_witness :
  center <$> (fineTargets (run (sensor edge_swing) [46080; 46095]
                             (processCoarseSweep (sensor edge_swing) 46065 five_points))
              !! 0%nat)
  = Some (resonantFreq five_points).
Proof.
  apply (target0_seeded_with_coarse_maximum (sensor edge_swing) 46065 [46080; 46095]
           five_points).
  - exact five_points_wf.
  - simpl. lia.
  - apply Z.leb_le. vm_compute. reflexivity.
Defined.

Lemma flat_zero_signal_finds_nothing_witness :
  let s0 := startTwoPassTest 0 (set_testRunning true (init_state 20000 46000)) in
  let s' := run (fun _ _ => 2048) (ticks_every 0 3) s0 in
  resonantFreq s' = 0 /\ bestHarmFreq s' = 0.
Proof.
  pose proof (flat_zero_signal_finds_nothing (fun _ _ => 2048) 2048 0 (ticks_every 0 3)
                (init_state 20000 46000)) as H.
  cbv zeta in H. destruct H as (H1 & H2 & _); [reflexivity | lia |].
  split; assumption.
Defined.

Lemma harmonic_is_not_the_fundamental_witness :
  not_fundamental (computeBestHarmonicFromCoarse five_points)
  /\ not_fundamental (computeBestHarmonicFromFine five_points).
Proof.
  pose proof (harmonic_is_not_the_fundamental five_points) as H.
  destruct H as (H1 & H2 & _).
  - simpl. lia.
  - simpl. unfold FREQ_STEP. lia.
  - apply (bool_decide_unpack _). vm_compute. exact I.
  - apply (bool_decide_unpack _). vm_compute. exact I.
  - split; assumption.
Defined.

(** * Further properties of the scanner *)

(** ** The classifier *)

(** X1: The two ratio tests of [computeBestHarmonicFromFine] never change
    its result: whatever the tolerance, each iteration takes the target
    exactly when it is valid, more than [FINE_STEP] from the fundamental
    and stronger than the best so far. *)
Theorem fine_classifier_ignores_ratio tol s :
  fold_left (fine_harmonic_step tol) (targets s) s
  = fold_left strongest_step (targets s) s.
Proof.
  generalize (targets s). intros l. revert s.
  induction l as [| t l IH]; intros s; [reflexivity |].
  cbn [fold_left].
  assert (E : fine_harmonic_step tol s t = strongest_step s t).
  { unfold fine_harmonic_step, strongest_step.
    destruct (_ || _); [reflexivity |].
    destruct (_ <=? _); [reflexivity |].
    destruct (fgt (bestAmp t) (bestHarmAmp s)).
    - destruct (ratio_ok tol (of_Z (bestFreq t)) (of_Z (resonantFreq s)));
        destruct (ratio_ok tol (of_Z (resonantFreq s)) (of_Z (bestFreq t))); reflexivity.
    - rewrite !andb_false_r. reflexivity. }
  rewrite E. apply IH.
Qed.

Lemma reset_harm_absorbs fq a s :
  set_bestHarmAmp fzero (set_bestHarmFreq 0 (set_bestHarmFreq fq (set_bestHarmAmp a s)))
  = set_bestHarmAmp fzero (set_bestHarmFreq 0 s).
Proof. reflexivity. Qed.

(** X2: Classification reads the finished curve and targets only: running
    it again, from the coarse curve or from the fine targets, on its own
    result gives the same state. *)
Theorem classification_idempotent s :
  computeBestHarmonicFromCoarse (computeBestHarmonicFromCoarse s)
  = computeBestHarmonicFromCoarse s
  /\ computeBestHarmonicFromFine (computeBestHarmonicFromFine s)
     = computeBestHarmonicFromFine s
  /\ computeBestHarmonicFromCoarse (computeBestHarmonicFromFine s)
     = computeBestHarmonicFromCoarse s.
Proof.
  assert (Hc : forall fq a,
            computeBestHarmonicFromCoarse (set_bestHarmFreq fq (set_bestHarmAmp a s))
            = computeBestHarmonicFromCoarse s).
  { intros fq a. unfold computeBestHarmonicFromCoarse. cbv zeta.
    rewrite !reset_harm_absorbs. reflexivity. }
  assert (Hf : forall fq a,
            computeBestHarmonicFromFine (set_bestHarmFreq fq (set_bestHarmAmp a s))
            = computeBestHarmonicFromFine s).
  { intros fq a. unfold computeBestHarmonicFromFine. cbv zeta.
    rewrite !reset_harm_absorbs. reflexivity. }
  destruct (computeBestHarmonicFromCoarse_harm s) as (f1 & a1 & E1).
  destruct (computeBestHarmonicFromFine_harm s) as (f2 & a2 & E2).
  split; [| split].
  - rewrite E1 at 1. apply Hc.
  - rewrite E2 at 1. apply Hf.
  - rewrite E2. apply Hc.
Qed.

(** ** The generator during and after the fine phase *)

Lemma only_set_freq_added_refl l : only_set_freq_added l l.
Proof. exists []. split; [reflexivity | constructor]. Qed.

Lemma only_set_freq_added_cons fq l : only_set_freq_added l (SetFreq fq :: l).
Proof. exists [SetFreq fq]. split; [reflexivity |]. repeat constructor. discriminate. Qed.

Lemma only_set_freq_added_trans l1 l2 l3 :
  only_set_freq_added l1 l2 -> only_set_freq_added l2 l3 -> only_set_freq_added l1 l3.
Proof.
  intros (c1 & -> & H1) (c2 & -> & H2). exists (c2 ++ c1).
  split; [apply app_assoc | apply Forall_app; split; assumption].
Qed.

Lemma startFineTarget_generator now i s :
  pwmDuty s = 128 ->
  pwmDuty (startFineTarget now i s) = 128
  /\ only_set_freq_added (pwmLog s) (pwmLog (startFineTarget now i s)).
Proof.
  intros Hd. unfold startFineTarget.
  destruct (_ || _); [split; [exact Hd | apply only_set_freq_added_refl] |].
  st. split; [reflexivity | apply only_set_freq_added_cons].
Qed.

Lemma startFineTarget_starts now i s :
  0 <= i < fineTargetCount s ->
  pwmDuty (startFineTarget now i s) = 128
  /\ pwmLog (startFineTarget now i s)
     = SetFreq (fineSweepFreq (startFineTarget now i s)) :: pwmLog s.
Proof.
  intros Hi. unfold startFineTarget.
  destruct (Z.ltb_spec i 0) as [? | _]; [lia |].
  destruct (Z.geb_spec i (fineTargetCount s)) as [? | _]; [lia |].
  cbn [orb]. st. split; reflexivity.
Qed.

Lemma processFineSweep_generator adc now s :
  pwmDuty s = 128 ->
  pwmDuty (processFineSweep adc now s) = 128
  /\ only_set_freq_added (pwmLog s) (pwmLog (processFineSweep adc now s)).
Proof.
  intros Hd. unfold processFineSweep.
  destruct (currentFineIndex s >=? fineTargetCount s).
  - match goal with |- context [computeBestHarmonicFromFine ?s0] =>
      destruct (computeBestHarmonicFromFine_harm s0) as (fq & a & ->) end.
    st. split; [exact Hd | apply only_set_freq_added_refl].
  - destruct (u32 _ >=? _); [| split; [exact Hd | apply only_set_freq_added_refl]].
    pose proof (burst_loop_meas adc (Z.to_nat FINE_SAMPLES_PER_FREQ) s fzero) as Hm.
    destruct (burst_loop adc _ s fzero) as [s1 sum]. cbn [fst] in Hm.
    destruct Hm as (k & ipp & ipk & ->). st.
    set (avg := fdiv sum (of_Z FINE_SAMPLES_PER_FREQ)).
    match goal with |- context [if fgt avg ?b then ?x else ?y] =>
      assert (Hs2 : pwmDuty (if fgt avg b then x else y) = 128
                    /\ pwmLog (if fgt avg b then x else y) = pwmLog s);
      [ destruct (fgt avg b); st; [destruct (fgt avg (maxAmplitude s)) |]; st;
        split; first [exact Hd | reflexivity]
      | generalize dependent (if fgt avg b then x else y) ] end.
    intros s2 [Hd2 Hl2].
    destruct (u32 (fineSweepFreq s2 + fineSweepStep s2) >? fineSweepEnd s2); st.
    + destruct (i32 (currentFineIndex s2 + 1) <? fineTargetCount s2); st.
      * match goal with |- context [startFineTarget ?n ?i ?s0] =>
          destruct (startFineTarget_generator n i s0) as [Hd3 Hl3]; [st; exact Hd2 |];
          st_in Hl3; rewrite Hl2 in Hl3; split; [exact Hd3 | exact Hl3] end.
      * rewrite Hl2. split; [exact Hd2 | apply only_set_freq_added_refl].
    + rewrite Hl2. split; [reflexivity | apply only_set_freq_added_cons].
Qed.

Lemma run_fine_generator adc ticks : forall s,
  coarsePhase s = false -> pwmDuty s = 128 ->
  pwmDuty (run adc ticks s) = 128
  /\ only_set_freq_added (pwmLog s) (pwmLog (run adc ticks s)).
Proof.
  induction ticks as [| now ticks IH]; intros s Hc Hd;
    [split; [exact Hd | apply only_set_freq_added_refl] |].
  rewrite run_cons.
  assert (Hstep : coarsePhase (loop adc now s) = false
                  /\ pwmDuty (loop adc now s) = 128
                  /\ only_set_freq_added (pwmLog s) (pwmLog (loop adc now s))).
  { pose proof (loop_fine_view adc now s Hc) as Hv.
    unfold coarse_view in Hv. injection Hv as _ _ _ _ _ _ E7 _ _.
    split; [congruence |].
    unfold loop. rewrite Hc.
    destruct (testRunning s); [| split; [exact Hd | apply only_set_freq_added_refl]].
    destruct (finePhase s); [apply processFineSweep_generator, Hd |].
    split; [exact Hd | apply only_set_freq_added_refl]. }
  destruct Hstep as (Hc' & Hd' & Hl').
  destruct (IH _ Hc' Hd') as [Hd'' Hl''].
  split; [exact Hd'' | eapply only_set_freq_added_trans; eassumption].
Qed.

(** X3: The tick that ends the coarse phase stops the generator.  When no
    target exists the sweep completes there and the generator stays
    stopped.  When the fine phase is entered the generator is started
    again and never stopped afterwards: a sweep that completes through
    the fine phase leaves the generator running at its last frequency. *)
Theorem generator_after_coarse_phase adc now ticks s :
  currentTestFreq s > END_FREQ s ->
  let s' := run adc ticks (processCoarseSweep adc now s) in
  (resonantFreq s = 0 \/ dataPoints s < 3 ->
   pwmDuty s' = 0 /\ pwmLog s' = Stop :: pwmLog s)
  /\ (resonantFreq s <> 0 /\ 3 <= dataPoints s ->
      pwmDuty s' = 128 /\ only_set_freq_added (Stop :: pwmLog s) (pwmLog s')
      /\ pwmLog s' <> Stop :: pwmLog s).
Proof.
  intros Hend s'. subst s'. split.
  - intros Hno. rewrite processCoarseSweep_no_result by assumption.
    rewrite run_idle by reflexivity. split; reflexivity.
  - intros Hyes.
    destruct (processCoarseSweep_transition adc now s Hend) as [Hfine _].
    rewrite (Hfine Hyes). clear Hfine.
    pose proof (prepareFineTargets_count (set_coarsePhase false (stopPWM s))) as [_ Hc].
    st_in Hc. apply Hc in Hyes. clear Hc.
    destruct (prepared_fields s) as (_ & _ & _ & P4).
    destruct (prepareFineTargets_shape (set_coarsePhase false (stopPWM s))) as (tg & c & Hp).
    assert (Hlog : pwmLog (prepareFineTargets (set_coarsePhase false (stopPWM s)))
                   = Stop :: pwmLog s) by (rewrite Hp; reflexivity).
    revert Hyes P4 Hlog. clear Hp.
    generalize (prepareFineTargets (set_coarsePhase false (stopPWM s))).
    intros p Hyes P4 Hlog.
    destruct (startFineTarget_starts now 0 (set_currentFineIndex 0 p)) as [Hd Hl];
      [st; lia |].
    destruct (enter_fine_fields now p) as (_ & _ & _ & F4 & _).
    st_in Hl. rewrite Hlog in Hl. revert Hd Hl F4.
    generalize (fineSweepFreq (startFineTarget now 0 (set_currentFineIndex 0 p))).
    intros f0. 
    assert (Hd1 : forall x, pwmDuty (set_finePhase true x) = pwmDuty x) by reflexivity.
    assert (Hl1 : forall x, pwmLog (set_finePhase true x) = pwmLog x) by reflexivity.
    rewrite <- (Hd1 (startFineTarget now 0 (set_currentFineIndex 0 p))).
    rewrite <- (Hl1 (startFineTarget now 0 (set_currentFineIndex 0 p))).
    clear Hd1 Hl1.
    generalize (set_finePhase true (startFineTarget now 0 (set_currentFineIndex 0 p))).
    intros s1 Hd Hl F4.
    destruct (run_fine_generator adc ticks s1 ltac:(congruence) Hd) as [Hd' (cmds & E & Hf)].
    split; [exact Hd' |]. rewrite E, Hl. split.
    + exists (cmds ++ [SetFreq f0]). split; [rewrite <- app_assoc; reflexivity |].
      apply Forall_app. split; [exact Hf |]. repeat constructor. discriminate.
    + intros H. apply (f_equal (@length GenCmd)) in H.
      rewrite length_app in H. simpl in H. lia.
Qed.

(** ** Length of the coarse sweep *)

Lemma steps_left_sample adc now s :
  (0 < steps_left s)%nat -> 0 <= currentTestFreq s -> END_FREQ s + FREQ_STEP < 2 ^ 32 ->
  (u32 (now - lastSampleTime s) >=? STABILIZE_DELAY) = true ->
  let s' := processCoarseSweep adc now s in
  control_view s' = control_view s
  /\ currentTestFreq s' = currentTestFreq s + FREQ_STEP
  /\ adcReads s' = adcReads s + 1000
  /\ lastSampleTime s' = now
  /\ steps_left s = S (steps_left s').
Proof.
  intros Hn Hlo Hhi Hg.
  assert (Hin : currentTestFreq s <= END_FREQ s).
  { unfold steps_left, FREQ_STEP in *.
    destruct (Z_le_gt_dec (currentTestFreq s) (END_FREQ s)) as [? | Hgt]; [assumption |].
    assert ((END_FREQ s + 50 - currentTestFreq s) / 50 <= 0)
      by (apply Z.lt_succ_r, Z.div_lt_upper_bound; lia).
    lia. }
  pose proof (processCoarseSweep_sample adc now s Hin Hg) as H. cbv zeta in H.
  destruct H as (Hv & Hcur & _ & Hlast & Hreads & _).
  cbv zeta. split; [exact Hv |].
  unfold FREQ_STEP in *. rewrite u32_small in Hcur by lia.
  split; [exact Hcur |]. split; [exact Hreads |]. split; [exact Hlast |].
  unfold control_view in Hv. injection Hv as _ E2 _ _ _ _ _ _ _.
  unfold steps_left, FREQ_STEP. rewrite E2, Hcur.
  replace (END_FREQ s + 50 - (currentTestFreq s + 50))
    with (END_FREQ s + 50 - currentTestFreq s + (-1) * 50) by lia.
  rewrite Z.div_add by lia.
  assert (1 <= (END_FREQ s + 50 - currentTestFreq s) / 50)
    by (apply Z.div_le_lower_bound; lia).
  lia.
Qed.

(** While steps are left, each paced tick takes one sample. *)
Lemma run_coarse_samples adc ticks : forall s,
  testRunning s = true -> coarsePhase s = true ->
  0 <= currentTestFreq s -> END_FREQ s + FREQ_STEP < 2 ^ 32 ->
  paced (lastSampleTime s) ticks = true ->
  (length ticks <= steps_left s)%nat ->
  let s' := run adc ticks s in
  control_view s' = control_view s
  /\ currentTestFreq s' = currentTestFreq s + FREQ_STEP * Z.of_nat (length ticks)
  /\ adcReads s' = adcReads s + 1000 * Z.of_nat (length ticks)
  /\ steps_left s = (length ticks + steps_left s')%nat.
Proof.
  induction ticks as [| now ticks IH]; intros s Hrun Hc Hlo Hhi Hp Hn.
  - cbv zeta. cbn [length run fold_left]. repeat split; lia.
  - cbn [paced] in Hp. apply andb_true_iff in Hp as [Hg Hp]. cbn [length] in Hn.
    cbv zeta. rewrite run_cons.
    assert (Hloop : loop adc now s = processCoarseSweep adc now s)
      by (unfold loop; rewrite Hrun, Hc; reflexivity).
    rewrite Hloop.
    destruct (steps_left_sample adc now s ltac:(lia) Hlo Hhi Hg)
      as (Hv & Hcur & Hreads & Hlast & Hsteps).
    revert Hv Hcur Hreads Hlast Hsteps. generalize (processCoarseSweep adc now s).
    intros s1 Hv Hcur Hreads Hlast Hsteps.
    pose proof Hv as Hv'. unfold control_view in Hv'.
    injection Hv' as _ E2 E3 _ E5 _ _ _ _.
    specialize (IH s1 ltac:(congruence) ltac:(congruence)).
    unfold FREQ_STEP in *.
    specialize (IH ltac:(lia) ltac:(rewrite E2; lia)).
    rewrite Hlast in IH. specialize (IH Hp ltac:(lia)). cbv zeta in IH.
    destruct IH as (Iv & Icur & Ireads & Isteps).
    split; [congruence |]. cbn [length]. repeat split; lia.
Qed.

(** X4: On a band with [START_FREQ <= END_FREQ] that does not wrap, the
    coarse sweep takes exactly [totalSteps] averaged samples, one per
    paced tick, whatever the sensor returns: after them the band is
    exhausted and the next tick ends the coarse phase.  For
    [END_FREQ = START_FREQ] this is the single sample at [START_FREQ]. *)
Theorem coarse_sweep_takes_total_steps adc now ticks s :
  0 <= START_FREQ s <= END_FREQ s ->
  END_FREQ s + FREQ_STEP < 2 ^ 32 ->
  paced now ticks = true ->
  let s0 := startTwoPassTest now (set_testRunning true s) in
  Z.of_nat (length ticks) = totalSteps s0 ->
  let s1 := run adc ticks s0 in
  totalSteps s0 = (END_FREQ s - START_FREQ s) / FREQ_STEP + 1
  /\ coarsePhase s1 = true
  /\ adcReads s1 = adcReads s + 1000 * totalSteps s0
  /\ currentTestFreq s1 = START_FREQ s + FREQ_STEP * totalSteps s0
  /\ currentTestFreq s1 > END_FREQ s1
  /\ forall now', coarsePhase (loop adc now' s1) = false.
Proof.
  intros Hband Hhi Hp. cbv zeta.
  destruct (startTwoPassTest_fields now (set_testRunning true s))
    as (_ & (C1 & _ & C3 & _) & (F1 & F2 & F3 & _ & F5) & _ & (A1 & _)).
  st_in C3. st_in F1. st_in F2. st_in F3. st_in A1.
  assert (Htot : totalSteps (startTwoPassTest now (set_testRunning true s))
                 = (END_FREQ s - START_FREQ s) / FREQ_STEP + 1).
  { unfold startTwoPassTest. st.
    change (FREQ_STEP >? 0) with true. rewrite andb_true_r.
    unfold FREQ_STEP in *.
    destruct (Z.gtb_spec (END_FREQ s) (START_FREQ s)) as [Hgt | Hle]; st.
    - assert (0 <= (END_FREQ s - START_FREQ s) / 50 < 2 ^ 31)
        by (split; [apply Z.div_pos; lia | apply Z.div_lt_upper_bound; lia]).
      rewrite (u32_small (END_FREQ s - START_FREQ s)) by lia.
      match goal with |- context [if ?b then _ else _] => destruct b end; st;
        apply u32_small; lia.
    - replace (END_FREQ s - START_FREQ s) with 0 by lia.
      match goal with |- context [if ?b then _ else _] => destruct b end; reflexivity. }
  revert C1 C3 F1 F2 F3 F5 A1 Htot.
  generalize (startTwoPassTest now (set_testRunning true s)).
  intros s0 C1 C3 F1 F2 F3 F5 A1 Htot Hlen.
  assert (Hleft : Z.of_nat (steps_left s0) = totalSteps s0).
  { unfold steps_left. rewrite F2, F3, Htot. unfold FREQ_STEP in *.
    replace (END_FREQ s + 50 - START_FREQ s) with (END_FREQ s - START_FREQ s + 1 * 50) by lia.
    rewrite Z.div_add by lia.
    assert (0 <= (END_FREQ s - START_FREQ s) / 50) by (apply Z.div_pos; lia). lia. }
  pose proof (run_coarse_samples adc ticks s0 C3 C1) as H.
  rewrite F2, F3, F5 in H.
  specialize (H ltac:(lia) Hhi Hp ltac:(lia)). cbv zeta in H.
  revert H. generalize (run adc ticks s0). intros s1 (Hv & Hcur & Hreads & Hsteps).
  rewrite Hlen in Hcur, Hreads. rewrite A1 in Hreads.
  pose proof Hv as Hv'. unfold control_view in Hv'.
  injection Hv' as _ E2 E3 _ E5 _ _ _ _.
  assert (Hgt : currentTestFreq s1 > END_FREQ s1).
  { assert (steps_left s1 = 0%nat) by lia.
    unfold steps_left, FREQ_STEP in *. rewrite E2, F2 in *.
    destruct (Z_gt_le_dec (currentTestFreq s1) (END_FREQ s)) as [? | Hle]; [assumption |].
    assert (1 <= (END_FREQ s + 50 - currentTestFreq s1) / 50)
      by (apply Z.div_le_lower_bound; lia).
    lia. }
  split; [exact Htot |]. split; [congruence |]. split; [exact Hreads |].
  split; [exact Hcur |]. split; [exact Hgt |].
  intros now'. unfold loop. rewrite E3, C3, E5, C1.
  apply (processCoarseSweep_end_view adc now' s1 Hgt).
Qed.

(** ** The running maximum and the stored curve *)

Lemma flt_false_mono m m' a :
  flt m a = false -> m' = m \/ flt m m' = true -> flt m' a = false.
Proof.
  intros Ha [-> | Hm]; [exact Ha |].
  destruct (flt m' a) eqn:E; [| reflexivity].
  rewrite (flt_trans _ _ _ Hm E) in Ha. discriminate.
Qed.

Lemma dominated_inv_frame s s' :
  amplitudes s' = amplitudes s -> dataPoints s' = dataPoints s -> max_step s s' ->
  dominated_inv s -> dominated_inv s'.
Proof.
  intros Ea Ed Hm [H1 H2 H3]. split; [congruence | congruence |].
  unfold dominated, curve_amps in *. rewrite Ea, Ed.
  eapply Forall_impl; [exact H3 |]. intros a Ha. cbn beta in *.
  apply (flt_false_mono (maxAmplitude s)); [exact Ha |].
  destruct Hm as [[E _] | Hlt]; [left; exact E | right; exact Hlt].
Qed.

(** What a sampling step of the coarse sweep does to the stored curve:
    nothing, or the sample is appended at index [dataPoints]. *)
Lemma processCoarseSweep_store adc now s :
  currentTestFreq s <= END_FREQ s ->
  (u32 (now - lastSampleTime s) >=? STABILIZE_DELAY) = true ->
  let s' := processCoarseSweep adc now s in
  (freqs s' = freqs s /\ amplitudes s' = amplitudes s /\ dataPoints s' = dataPoints s)
  \/ (dataPoints s < MAX_DATA_POINTS
      /\ freqs s' = <[Z.to_nat (dataPoints s) := currentTestFreq s]> (freqs s)
      /\ amplitudes s' = <[Z.to_nat (dataPoints s) := currAmplitude s']> (amplitudes s)
      /\ dataPoints s' = i32 (dataPoints s + 1)).
Proof.
  intros Hin Hgate s'. subst s'. unfold processCoarseSweep.
  destruct (Z.gtb_spec (currentTestFreq s) (END_FREQ s)) as [? | _]; [lia |].
  rewrite Hgate.
  pose proof (burst_loop_meas adc (Z.to_nat SAMPLES_PER_FREQ) s fzero) as Hm.
  destruct (burst_loop adc _ s fzero) as [s1 sum]. cbn [fst snd] in *.
  destruct Hm as (k & ipp & ipk & ->). st.
  set (cur := fdiv sum (of_Z SAMPLES_PER_FREQ)).
  destruct (fgt cur (maxAmplitude s)); st;
    (destruct (Z.ltb_spec (dataPoints s) MAX_DATA_POINTS) as [Hlt | Hge]; st;
     [destruct ((stepIndex s mod storeEvery s =? 0) || (dataPoints s =? 0)
                || (currentTestFreq s >=? END_FREQ s)); st |]);
    first [left; repeat split; reflexivity | right; repeat split; first [exact Hlt | reflexivity]].
Qed.

Lemma processCoarseSweep_dominated adc now s :
  dominated_inv s -> dominated_inv (processCoarseSweep adc now s).
Proof.
  intros Hinv.
  pose proof (processCoarseSweep_max_step adc now s) as Hmax.
  destruct (Z_gt_le_dec (currentTestFreq s) (END_FREQ s)) as [Hend | Hin].
  { destruct (processCoarseSweep_end_view adc now s Hend) as [Hv _].
    unfold curve_view in Hv. injection Hv as _ _ _ E4 E5 _.
    eapply dominated_inv_frame; eauto. }
  destruct (u32 (now - lastSampleTime s) >=? STABILIZE_DELAY) eqn:Hg;
    [| rewrite processCoarseSweep_wait by assumption; exact Hinv].
  pose proof (processCoarseSweep_store adc now s Hin Hg) as Hst.
  pose proof (processCoarseSweep_sample adc now s Hin Hg) as Hsa.
  cbv zeta in Hst, Hsa. destruct Hsa as (_ & _ & _ & _ & _ & _ & Hcur & Hupd).
  revert Hmax Hst Hcur Hupd. generalize (processCoarseSweep adc now s).
  generalize (fdiv (snd (burst_loop adc (Z.to_nat SAMPLES_PER_FREQ) s fzero))
                (of_Z SAMPLES_PER_FREQ)).
  intros cur s' Hmax Hst Hcur Hupd.
  destruct Hst as [(_ & Ea & Ed) | (Hlt & _ & Ea & Ed)];
    [eapply dominated_inv_frame; eauto |].
  destruct Hinv as [H1 H2 H3]. unfold MAX_DATA_POINTS in *.
  rewrite i32_small in Ed by lia. rewrite Hcur in Ea.
  split.
  - rewrite Ea, length_insert. exact H1.
  - unfold MAX_DATA_POINTS. lia.
  - unfold dominated, curve_amps in *. rewrite Ea, Ed.
    replace (Z.to_nat (dataPoints s + 1)) with (S (Z.to_nat (dataPoints s))) by lia.
    erewrite take_S_r by (apply list_lookup_insert_eq; lia).
    rewrite take_insert_ge by lia.
    apply Forall_app. split.
    + eapply Forall_impl; [exact H3 |]. intros a Ha. cbn beta in *.
      apply (flt_false_mono (maxAmplitude s)); [exact Ha |].
      destruct Hmax as [[E _] | Hl]; [left; exact E | right; exact Hl].
    + constructor; [| constructor].
      destruct (fgt cur (maxAmplitude s)) eqn:Hgt.
      * destruct Hupd as [-> _]. apply flt_irrefl.
      * destruct Hupd as [-> _]. exact Hgt.
Qed.

Lemma loop_dominated adc now s : dominated_inv s -> dominated_inv (loop adc now s).
Proof.
  intros Hinv. unfold loop. destruct (testRunning s); [| exact Hinv].
  destruct (coarsePhase s); [apply processCoarseSweep_dominated, Hinv |].
  destruct (finePhase s); [| exact Hinv].
  pose proof (processFineSweep_view adc now s) as Hv.
  unfold coarse_view in Hv. injection Hv as _ _ _ E4 E5 _ _ _ _.
  eapply dominated_inv_frame; eauto using processFineSweep_max_step.
Qed.

(** X5: Throughout a sweep, coarse and fine, whatever the sensor returns and
    whenever the ticks come, no stored point of the coarse curve exceeds
    the running maximum [maxAmplitude]. *)
Theorem running_max_dominates_curve adc now ticks s :
  length (amplitudes s) = Z.to_nat MAX_DATA_POINTS ->
  dominated (run adc ticks (startTwoPassTest now s)).
Proof.
  intros Hl. apply di_dominated.
  assert (H0 : dominated_inv (startTwoPassTest now s)).
  { destruct (startTwoPassTest_fields now s) as (_ & _ & _ & (D1 & _ & D3 & _) & _).
    split.
    - rewrite D3. exact Hl.
    - rewrite D1. unfold MAX_DATA_POINTS. lia.
    - unfold dominated, curve_amps. rewrite D1. constructor. }
  revert H0. generalize (startTwoPassTest now s). clear.
  induction ticks as [| t ticks IH]; intros s0 H0; [exact H0 |].
  rewrite run_cons. apply IH, loop_dominated, H0.
Qed.

(** ** The upper end of the fine window *)

Lemma added_below_refl en l : added_below en l l.
Proof. exists []. split; [reflexivity | constructor]. Qed.

Lemma added_below_cons en fq l : fq <= en -> added_below en l (SetFreq fq :: l).
Proof. intros H. exists [SetFreq fq]. split; [reflexivity |]. repeat constructor. exact H. Qed.

Lemma added_below_trans en l1 l2 l3 :
  added_below en l1 l2 -> added_below en l2 l3 -> added_below en l1 l3.
Proof.
  intros (c1 & -> & H1) (c2 & -> & H2). exists (c2 ++ c1).
  split; [apply app_assoc | apply Forall_app; split; assumption].
Qed.

Lemma u32_le z : 0 <= z -> u32 z <= z.
Proof. intros H. unfold u32. apply Z.mod_le; lia. Qed.

(** [startFineTarget] clamps the end of the window to [END_FREQ], and
    starts at most at [END_FREQ] when the centre is at most
    [FINE_WINDOW] above it. *)
Lemma startFineTarget_below now i s :
  fine_inv s ->
  fine_inv (startFineTarget now i s)
  /\ added_below (END_FREQ s) (pwmLog s) (pwmLog (startFineTarget now i s)).
Proof.
  intros [He Hb Hc].
  pose proof (startFineTarget_view now i s) as Hv. unfold coarse_view in Hv.
  injection Hv as E1 E2 _ _ _ _ _ _ E9.
  assert (Hci : center (fineTargets s !!! Z.to_nat i) <= END_FREQ s + FINE_WINDOW).
  { rewrite list_lookup_total_alt.
    destruct (fineTargets s !! Z.to_nat i) as [t |] eqn:Et; simpl.
    - rewrite Forall_lookup in Hc. apply (Hc (Z.to_nat i)).
      rewrite list_lookup_fmap, Et. reflexivity.
    - unfold FINE_WINDOW. lia. }
  split.
  - split; rewrite ?E1, ?E2, ?E9; try assumption.
    unfold startFineTarget. destruct (_ || _); [exact He |]. st.
    destruct (Z.gtb_spec (u32 (center (fineTargets s !!! Z.to_nat i) + FINE_WINDOW))
                (END_FREQ s)); lia.
  - unfold startFineTarget. destruct (_ || _); [apply added_below_refl |]. st.
    apply added_below_cons. unfold FINE_WINDOW in *.
    destruct (Z.gtb_spec (center (fineTargets s !!! Z.to_nat i)) 1000) as [Hgt | Hle];
      [| lia].
    match goal with |- u32 ?z <= _ => assert (Hz : 0 <= z) by lia;
      pose proof (u32_le z Hz) end. lia.
Qed.

Lemma fine_inv_frame s s' :
  coarse_view s' = coarse_view s -> fineSweepEnd s' = fineSweepEnd s ->
  fine_inv s -> fine_inv s'.
Proof.
  unfold coarse_view. intros Hv He [H1 H2 H3].
  injection Hv as E1 E2 _ _ _ _ _ _ E9. split; rewrite ?E1, ?E2, ?E9, ?He; assumption.
Qed.

Lemma processFineSweep_below adc now s :
  fine_inv s ->
  fine_inv (processFineSweep adc now s)
  /\ added_below (END_FREQ s) (pwmLog s) (pwmLog (processFineSweep adc now s)).
Proof.
  intros Hinv. unfold processFineSweep.
  destruct (currentFineIndex s >=? fineTargetCount s).
  - match goal with |- context [computeBestHarmonicFromFine ?s0] =>
      destruct (computeBestHarmonicFromFine_harm s0) as (fq & a & ->) end.
    split; [| apply added_below_refl].
    apply (fine_inv_frame s); [reflexivity | reflexivity | exact Hinv].
  - destruct (u32 _ >=? _); [| split; [exact Hinv | apply added_below_refl]].
    pose proof (burst_loop_meas adc (Z.to_nat FINE_SAMPLES_PER_FREQ) s fzero) as Hm.
    destruct (burst_loop adc _ s fzero) as [s1 sum]. cbn [fst] in Hm.
    destruct Hm as (k & ipp & ipk & ->). st.
    set (avg := fdiv sum (of_Z FINE_SAMPLES_PER_FREQ)).
    match goal with |- context [if fgt avg ?b then ?x else ?y] =>
      assert (Hs2 : fine_inv (if fgt avg b then x else y)
                    /\ pwmLog (if fgt avg b then x else y) = pwmLog s
                    /\ END_FREQ (if fgt avg b then x else y) = END_FREQ s);
      [ destruct (fgt avg b); st; [destruct (fgt avg (maxAmplitude s)) |]; st;
        (split; [| split; reflexivity]);
        (apply (fine_inv_frame s); [| reflexivity | exact Hinv]);
        unfold coarse_view; st; rewrite ?fmap_center_alter by reflexivity; reflexivity
      | generalize dependent (if fgt avg b then x else y) ] end.
    intros s2 (Hi2 & Hl2 & He2).
    destruct (Z.gtb_spec (u32 (fineSweepFreq s2 + fineSweepStep s2)) (fineSweepEnd s2))
      as [Hgt | Hle]; st.
    + destruct (i32 (currentFineIndex s2 + 1) <? fineTargetCount s2); st.
      * match goal with |- context [startFineTarget ?n ?i ?s0] =>
          destruct (startFineTarget_below n i s0) as [Hi3 Hl3];
          [apply (fine_inv_frame s2); [reflexivity | reflexivity | exact Hi2] |];
          st_in Hl3; rewrite Hl2, He2 in Hl3; split; [| exact Hl3];
          apply (fine_inv_frame (startFineTarget n i s0));
          [reflexivity | reflexivity | exact Hi3] end.
      * rewrite Hl2. split; [| apply added_below_refl].
        apply (fine_inv_frame s2); [reflexivity | reflexivity | exact Hi2].
    + rewrite Hl2. split.
      * apply (fine_inv_frame s2); [reflexivity | reflexivity | exact Hi2].
      * apply added_below_cons. destruct Hi2 as [He _ _]. lia.
Qed.

(** X6: In the fine phase every frequency programmed into the generator is
    at most [END_FREQ], as long as the window in progress ends inside
    the band and the target centres are at most [FINE_WINDOW] above it
    (they are stored coarse frequencies, which are inside the band). *)
Theorem fine_sweep_never_above_band adc ticks s :
  coarsePhase s = false ->
  fine_inv s ->
  added_below (END_FREQ s) (pwmLog s) (pwmLog (run adc ticks s)).
Proof.
  revert s. induction ticks as [| now ticks IH]; intros s Hc Hinv;
    [apply added_below_refl |].
  rewrite run_cons.
  assert (Hstep : coarsePhase (loop adc now s) = false
                  /\ END_FREQ (loop adc now s) = END_FREQ s
                  /\ fine_inv (loop adc now s)
                  /\ added_below (END_FREQ s) (pwmLog s) (pwmLog (loop adc now s))).
  { pose proof (loop_fine_view adc now s Hc) as Hv.
    unfold coarse_view in Hv. injection Hv as _ E2 _ _ _ _ E7 _ _.
    split; [congruence |]. split; [exact E2 |].
    unfold loop. rewrite Hc.
    destruct (testRunning s); [| split; [exact Hinv | apply added_below_refl]].
    destruct (finePhase s); [apply processFineSweep_below, Hinv |].
    split; [exact Hinv | apply added_below_refl]. }
  destruct Hstep as (Hc' & He' & Hi' & Hl').
  specialize (IH _ Hc' Hi'). rewrite He' in IH.
  eapply added_below_trans; eassumption.
Qed.

(** ** The peak scan *)

Lemma peak_at_widen s m lo hi hi' l :
  hi <= hi' -> Forall (peak_at s m lo hi) l -> Forall (peak_at s m lo hi') l.
Proof.
  intros Hhi Hl. eapply Forall_impl; [exact Hl |].
  intros pk (H1 & H2). split; [lia | exact H2].
Qed.

Lemma find_peaks_acc n : forall i s m acc lo,
  lo <= i ->
  Forall (peak_at s m lo i) acc ->
  StronglySorted Z.lt (peak_idx <$> acc) ->
  let r := find_peaks n i s m acc in
  Forall (peak_at s m lo (i + Z.of_nat n)) r
  /\ StronglySorted Z.lt (peak_idx <$> r)
  /\ (Z.of_nat (length acc) < MAX_DATA_POINTS -> Z.of_nat (length r) <= MAX_DATA_POINTS)
  /\ (Z.of_nat (length r) < MAX_DATA_POINTS ->
      forall j, i <= j < i + Z.of_nat n -> is_peak s m j = true ->
        exists pk, pk ∈ r /\ peak_idx pk = j).
Proof.
  induction n as [| n IH]; intros i s m acc lo Hlo Hacc Hsort; cbn [find_peaks].
  - cbv zeta. replace (i + Z.of_nat 0) with i by lia.
    split; [exact Hacc |]. split; [exact Hsort |]. split; [lia |]. intros _ j Hj. lia.
  - replace (i + Z.of_nat (S n)) with (i + 1 + Z.of_nat n) by lia.
    destruct (is_peak s m i) eqn:Hpk.
    + set (pk := mkPeak i (amplitudes s !!! Z.to_nat i) (freqs s !!! Z.to_nat i)).
      assert (Hacc' : Forall (peak_at s m lo (i + 1)) (acc ++ [pk])).
      { apply Forall_app. split; [apply (peak_at_widen s m lo i); [lia | exact Hacc] |].
        constructor; [| constructor]. unfold peak_at, pk. cbn [peak_idx peak_amp peak_f].
        repeat split; try reflexivity; try lia. exact Hpk. }
      assert (Hsort' : StronglySorted Z.lt (peak_idx <$> (acc ++ [pk]))).
      { rewrite fmap_app. apply StronglySorted_snoc; [exact Hsort |].
        apply Forall_fmap. eapply Forall_impl; [exact Hacc |].
        intros q ((_ & Hq) & _). cbn. lia. }
      destruct (Z.geb_spec (Z.of_nat (length (acc ++ [pk]))) MAX_DATA_POINTS) as [Hfull | Hroom].
      * cbv zeta. split; [apply (peak_at_widen s m lo (i + 1)); [lia | exact Hacc'] |].
        split; [exact Hsort' |].
        split; [rewrite length_app in *; cbn [length] in *; lia | lia].
      * specialize (IH (i + 1) s m (acc ++ [pk]) lo ltac:(lia) Hacc' Hsort').
        cbv zeta in IH. destruct IH as (I1 & I2 & I3 & I4).
        cbv zeta. split; [exact I1 |]. split; [exact I2 |]. split; [intros _; apply I3; lia |].
        intros Hr j Hj Hjp.
        destruct (Z.eq_dec j i) as [-> | Hne]; [| apply I4; [exact Hr | lia | exact Hjp]].
        exists pk. split; [| reflexivity].
        assert (Hsub : forall k i0 acc0, pk ∈ acc0 -> pk ∈ find_peaks k i0 s m acc0).
        { clear. induction k as [| k IHk]; intros i0 acc0 Hin; cbn [find_peaks]; [exact Hin |].
          destruct (is_peak s m i0); [| apply IHk, Hin].
          destruct (_ >=? _); [apply elem_of_app; left; exact Hin |].
          apply IHk, elem_of_app. left. exact Hin. }
        apply Hsub, elem_of_app. right. apply list_elem_of_singleton. reflexivity.
    + specialize (IH (i + 1) s m acc lo ltac:(lia)
                  (peak_at_widen s m lo i (i + 1) acc ltac:(lia) Hacc) Hsort).
      cbv zeta in IH. destruct IH as (I1 & I2 & I3 & I4).
      cbv zeta. split; [exact I1 |]. split; [exact I2 |]. split; [exact I3 |].
      intros Hr j Hj Hjp.
      destruct (Z.eq_dec j i) as [-> | Hne]; [congruence |].
      apply I4; [exact Hr | lia | exact Hjp].
Qed.

(** X7: The peak scan of [prepareFineTargets] over the indices [i .. i+n-1]
    is sound and, unless it fills its 70 cells, complete: every peak it
    returns records the curve at a strict local maximum of at least
    [minPeakAmp] in that range, the peaks come in increasing index
    order, there are at most [MAX_DATA_POINTS] of them, and every such
    maximum of the range is returned. *)
Theorem find_peaks_sound_complete n i s minPeakAmp :
  let r := find_peaks n i s minPeakAmp [] in
  Forall (peak_at s minPeakAmp i (i + Z.of_nat n)) r
  /\ StronglySorted Z.lt (peak_idx <$> r)
  /\ Z.of_nat (length r) <= MAX_DATA_POINTS
  /\ (Z.of_nat (length r) < MAX_DATA_POINTS ->
      forall j, i <= j < i + Z.of_nat n -> is_peak s minPeakAmp j = true ->
        exists pk, pk ∈ r /\ peak_idx pk = j).
Proof.
  pose proof (find_peaks_acc n i s minPeakAmp [] i ltac:(lia)
                ltac:(constructor) ltac:(constructor)) as H.
  cbv zeta in *. destruct H as (H1 & H2 & H3 & H4).
  split; [exact H1 |]. split; [exact H2 |]. split; [| exact H4].
  apply H3. cbn. unfold MAX_DATA_POINTS. lia.
Qed.

(** ** The band menu *)

Lemma menu_step_band m input :
  0 <= bandSelected m < numBands -> 0 <= bandSelected (menu_step m input) < numBands.
Proof.
  intros Hm. unfold menu_step. destruct input as [menuState now].
  change numBands with 3 in *.
  destruct (menuState =? LOW).
  - destruct (negb (buttonWasPressed m)); exact Hm.
  - destruct (buttonWasPressed m); [| exact Hm].
    destruct (u32 (now - pressStartTime m) >=? 700); [exact Hm |].
    destruct (u32 (now - pressStartTime m) >? 20); [| exact Hm].
    cbn [bandSelected]. rewrite i32_small by lia.
    destruct (Z.geb_spec (bandSelected m + 1) 3); lia.
Qed.

Lemma menu_loop_band inputs : forall m,
  0 <= bandSelected m < numBands -> 0 <= bandSelected (menu_loop inputs m) < numBands.
Proof.
  induction inputs as [| input rest IH]; intros m Hm; cbn [menu_loop]; [exact Hm |].
  destruct (bandChosen m); [exact Hm |]. apply IH, menu_step_band, Hm.
Qed.

(** X8: Whatever is read from the START pin, and whenever, the menu of
    [setup()] leaves [bandSelected] inside the table, so the sweep band
    is one of the three entries: it is not inverted, and it leaves room
    for one coarse step and for the classifier's window below 2^32. *)
Theorem setup_selects_a_band inputs :
  let s := setup inputs in
  (START_FREQ s, END_FREQ s) ∈ bands
  /\ 0 < START_FREQ s < END_FREQ s
  /\ END_FREQ s + FREQ_STEP * 4 < 2 ^ 32
  /\ wf_state s.
Proof.
  cbv zeta. unfold setup.
  pose proof (menu_loop_band inputs init_menu ltac:(change numBands with 3; cbn; lia)) as H.
  change numBands with 3 in H.
  revert H. generalize (bandSelected (menu_loop inputs init_menu)). intros sel H.
  assert (Hsel : sel = 0 \/ sel = 1 \/ sel = 2) by lia.
  destruct Hsel as [-> | [-> | ->]];
    (split; [apply (bool_decide_unpack _); vm_compute; exact I |]);
    (split; [vm_compute; split; reflexivity |]);
    (split; [vm_compute; reflexivity |]);
    (split; [reflexivity | reflexivity | reflexivity | | vm_compute; split; congruence]);
    apply (bool_decide_unpack _); vm_compute; exact I.
Qed.

(** ** The START button *)






(** ** The amplitude sampler *)

Lemma codes_S adc fq k n : codes adc fq k (S n) = adc fq k :: codes adc fq (k + 1) n.
Proof.
  unfold codes. cbn [seq map]. rewrite Z.add_0_r. f_equal.
  rewrite <- seq_shift, map_map. apply map_ext. intros j. f_equal. lia.
Qed.

Lemma read_loop_fold adc n : forall fq k imax imin,
  read_loop adc n fq k imax imin
  = (fold_left Z.max (codes adc fq k n) imax, fold_left Z.min (codes adc fq k n) imin,
     k + Z.of_nat n).
Proof.
  induction n as [| n IH]; intros fq k imax imin.
  - cbn. rewrite Z.add_0_r. reflexivity.
  - cbn [read_loop]. rewrite IH, codes_S. cbn [fold_left].
    replace (if adc fq k >? imax then adc fq k else imax) with (Z.max imax (adc fq k))
      by (destruct (Z.gtb_spec (adc fq k) imax); lia).
    replace (if adc fq k <? imin then adc fq k else imin) with (Z.min imin (adc fq k))
      by (destruct (Z.ltb_spec (adc fq k) imin); lia).
    f_equal. lia.
Qed.

Lemma fold_max_spec l : forall a,
  a <= fold_left Z.max l a
  /\ Forall (fun x => x <= fold_left Z.max l a) l
  /\ (fold_left Z.max l a = a \/ fold_left Z.max l a ∈ l).
Proof.
  induction l as [| x l IH]; intros a; cbn [fold_left].
  - split; [lia |]. split; [constructor | left; reflexivity].
  - destruct (IH (Z.max a x)) as (H1 & H2 & H3).
    split; [lia |]. split; [constructor; [lia | exact H2] |].
    destruct H3 as [H3 | H3]; [| right; apply elem_of_cons; right; exact H3].
    destruct (Z.max_spec a x) as [[_ E] | [_ E]]; rewrite E in *.
    + right. rewrite H3. apply elem_of_cons. left. reflexivity.
    + left. exact H3.
Qed.

Lemma fold_min_spec l : forall a,
  fold_left Z.min l a <= a
  /\ Forall (fun x => fold_left Z.min l a <= x) l
  /\ (fold_left Z.min l a = a \/ fold_left Z.min l a ∈ l).
Proof.
  induction l as [| x l IH]; intros a; cbn [fold_left].
  - split; [lia |]. split; [constructor | left; reflexivity].
  - destruct (IH (Z.min a x)) as (H1 & H2 & H3).
    split; [lia |]. split; [constructor; [lia | exact H2] |].
    destruct H3 as [H3 | H3]; [| right; apply elem_of_cons; right; exact H3].
    destruct (Z.min_spec a x) as [[_ E] | [_ E]]; rewrite E in *.
    + left. exact H3.
    + right. rewrite H3. apply elem_of_cons. left. reflexivity.
Qed.

(** X11: One call of [measureCurrent] makes exactly 50 conversions at the
    programmed frequency and, for codes in the 12-bit range, derives both
    currents from the swing between the largest and the smallest of
    them: a swing between 0 and 4095 codes. *)
Theorem measureCurrent_swing adc s :
  (forall k, 0 <= adc (pwmFreq s) k <= 4095) ->
  let cs := codes adc (pwmFreq s) (adcReads s) 50 in
  exists imax imin,
    imax ∈ cs /\ imin ∈ cs
    /\ Forall (fun x => imin <= x <= imax) cs
    /\ 0 <= imax - imin <= 4095
    /\ lastIpp (measureCurrent adc s) = ipp_of_swing (imax - imin)
    /\ lastIpk (measureCurrent adc s) = ipk_of_swing (imax - imin)
    /\ adcReads (measureCurrent adc s) = adcReads s + 50.
Proof.
  intros Hr cs. unfold measureCurrent. rewrite read_loop_fold. fold cs. st.
  assert (Hcs : Forall (fun x => 0 <= x <= 4095) cs).
  { unfold cs, codes. apply Forall_forall. intros x Hx.
    apply list_elem_of_In, in_map_iff in Hx. destruct Hx as (j & <- & _). apply Hr. }
  assert (Hne : exists x, x ∈ cs /\ 0 <= x <= 4095).
  { exists (adc (pwmFreq s) (adcReads s)). split; [| apply Hr].
    unfold cs. rewrite codes_S. apply elem_of_cons. left. reflexivity. }
  destruct (fold_max_spec cs 0) as (M1 & M2 & M3).
  destruct (fold_min_spec cs 4095) as (N1 & N2 & N3).
  revert M1 M2 M3 N1 N2 N3.
  generalize (fold_left Z.max cs 0), (fold_left Z.min cs 4095).
  intros imax imin M1 M2 M3 N1 N2 N3.
  destruct Hne as (x & Hx & Hxr).
  assert (Hmax : imax ∈ cs).
  { destruct M3 as [-> | H]; [| exact H].
    rewrite Forall_forall in M2, Hcs. pose proof (M2 x Hx). pose proof (Hcs x Hx).
    replace 0 with x by lia. exact Hx. }
  assert (Hmin : imin ∈ cs).
  { destruct N3 as [-> | H]; [| exact H].
    rewrite Forall_forall in N2, Hcs. pose proof (N2 x Hx). pose proof (Hcs x Hx).
    replace 4095 with x by lia. exact Hx. }
  exists imax, imin. split; [exact Hmax |]. split; [exact Hmin |].
  rewrite Forall_forall in M2, N2, Hcs.
  split; [apply Forall_forall; intros y Hy; split; [apply N2 | apply M2]; exact Hy |].
  pose proof (Hcs _ Hmax). pose proof (Hcs _ Hmin). pose proof (M2 _ Hmin).
  split; [lia |]. repeat split; reflexivity.
Qed.


(** ** The selection sort of the peaks *)

Lemma insert_middle {A} (l1 l2 : list A) x y :
  <[length l1 := y]> (l1 ++ x :: l2) = l1 ++ y :: l2.
Proof. induction l1 as [| a l1 IH]; cbn; [reflexivity | f_equal; exact IH]. Qed.

Lemma split_two {A} (l : list A) i j :
  (i < j < length l)%nat ->
  exists l1 a l2 b l3,
    l = l1 ++ a :: l2 ++ b :: l3 /\ length l1 = i /\ length (l1 ++ a :: l2) = j.
Proof.
  intros Hij.
  destruct (lookup_lt_is_Some_2 l i ltac:(lia)) as [a Ha].
  destruct (lookup_lt_is_Some_2 l j ltac:(lia)) as [b Hb].
  pose proof (take_drop_middle l i a Ha) as E1.
  assert (Hb' : drop (S i) l !! (j - S i)%nat = Some b).
  { rewrite lookup_drop. replace (S i + (j - S i))%nat with j by lia. exact Hb. }
  pose proof (take_drop_middle _ _ _ Hb') as E2.
  exists (take i l), a, (take (j - S i) (drop (S i) l)), b,
    (drop (S (j - S i)) (drop (S i) l)).
  split; [rewrite E2; symmetry; exact E1 |].
  split; [rewrite length_take; lia |].
  rewrite length_app. cbn [length]. rewrite !length_take, length_drop. lia.
Qed.

Lemma swap_cells_perm (l : list Peak) i j :
  (i < j < length l)%nat -> swap_cells l i j ≡ₚ l.
Proof.
  intros Hij. destruct (split_two l i j Hij) as (l1 & a & l2 & b & l3 & -> & Hi & Hj).
  unfold swap_cells.
  assert (Ea : (l1 ++ a :: l2 ++ b :: l3) !!! i = a).
  { apply list_lookup_total_correct. rewrite <- Hi. apply list_lookup_middle. reflexivity. }
  assert (Eb : (l1 ++ a :: l2 ++ b :: l3) !!! j = b).
  { apply list_lookup_total_correct. rewrite <- Hj.
    change (l1 ++ a :: l2 ++ b :: l3) with (l1 ++ (a :: l2) ++ b :: l3).
    rewrite app_assoc. apply list_lookup_middle. reflexivity. }
  rewrite Ea, Eb. rewrite <- Hi at 1. rewrite insert_middle.
  change (l1 ++ b :: l2 ++ b :: l3) with (l1 ++ (b :: l2) ++ b :: l3).
  rewrite app_assoc.
  replace j with (length (l1 ++ b :: l2))
    by (rewrite <- Hj, !length_app; reflexivity).
  rewrite insert_middle, <- app_assoc. cbn [app].
  apply Permutation_app_head.
  rewrite !(Permutation_middle l2). apply Permutation_app_head, perm_swap.
Qed.

Lemma swap_cells_lookup (l : list Peak) i j q :
  (i < length l)%nat -> (j < length l)%nat -> i <> j ->
  swap_cells l i j !!! q
  = l !!! (if decide (q = i) then j else if decide (q = j) then i else q).
Proof.
  intros Hi Hj Hne. unfold swap_cells.
  destruct (decide (q = i)) as [-> | Hqi].
  - rewrite list_lookup_total_insert_ne by congruence.
    apply list_lookup_total_insert_eq. exact Hi.
  - destruct (decide (q = j)) as [-> | Hqj].
    + apply list_lookup_total_insert_eq. rewrite length_insert. exact Hj.
    + rewrite !list_lookup_total_insert_ne by congruence. reflexivity.
Qed.

(** The inner loop returns the index of a peak that no scanned peak
    exceeds. *)
Lemma sort_best_spec (l : list Peak) lo n : forall j best,
  (lo <= best < j)%nat ->
  (forall q, (lo <= q < j)%nat ->
     flt (peak_amp (l !!! best)) (peak_amp (l !!! q)) = false) ->
  let b := sort_best n j l best in
  (lo <= b < j + n)%nat
  /\ forall q, (lo <= q < j + n)%nat -> flt (peak_amp (l !!! b)) (peak_amp (l !!! q)) = false.
Proof.
  induction n as [| n IH]; intros j best Hb Hq; cbn [sort_best].
  - cbv zeta. split; [lia |]. intros q Hr. apply Hq. lia.
  - cbv zeta. replace (j + S n)%nat with (S j + n)%nat by lia.
    destruct (fgt (peak_amp (l !!! j)) (peak_amp (l !!! best))) eqn:Hgt.
    + apply IH; [lia |]. intros q Hr.
      destruct (decide (q = j)) as [-> | Hne]; [apply flt_irrefl |].
      apply (flt_false_mono (peak_amp (l !!! best))); [apply Hq; lia |].
      right. exact Hgt.
    + apply IH; [lia |]. intros q Hr.
      destruct (decide (q = j)) as [-> | Hne]; [exact Hgt | apply Hq; lia].
Qed.

Lemma sort_from_spec n : forall i l,
  (i + n < length l \/ n = 0)%nat -> settled i l ->
  sort_from n i l ≡ₚ l /\ length (sort_from n i l) = length l
  /\ settled (i + n) (sort_from n i l).
Proof.
  induction n as [| n IH]; intros i l Hn Hs; cbn [sort_from].
  - rewrite Nat.add_0_r. split; [reflexivity |]. split; [reflexivity | exact Hs].
  - assert (Hi : (i + S n < length l)%nat) by lia.
    pose proof (sort_best_spec l i (length l - S i) (S i) i ltac:(lia)) as Hb.
    cbv zeta in Hb. destruct Hb as [Hbr Hbq].
    { intros q Hq. replace q with i by lia. apply flt_irrefl. }
    replace (S i + (length l - S i))%nat with (length l) in * by lia.
    cbv zeta.
    revert Hbr Hbq. generalize (sort_best (length l - S i) (S i) l i). intros b Hbr Hbq.
    change (<[b := l !!! i]> (<[i := l !!! b]> l)) with (swap_cells l i b).
    set (l' := if Nat.eqb b i then l else swap_cells l i b).
    assert (Hl' : l' ≡ₚ l /\ length l' = length l /\ settled (S i) l').
    { unfold l'. destruct (Nat.eqb_spec b i) as [-> | Hne].
      - split; [reflexivity |]. split; [reflexivity |].
        intros p q Hp Hq. destruct (decide (p = i)) as [-> | Hpi];
          [apply Hbq; lia | apply Hs; lia].
      - split; [apply swap_cells_perm; lia |].
        split; [unfold swap_cells; rewrite !length_insert; reflexivity |].
        intros p q Hp Hq.
        assert (Hlen : length (swap_cells l i b) = length l)
          by (unfold swap_cells; rewrite !length_insert; reflexivity).
        rewrite Hlen in Hq.
        rewrite !swap_cells_lookup by lia.
        destruct (decide (p = i)) as [-> | Hpi].
        + destruct (decide (q = i)); [lia |].
          destruct (decide (q = b)); apply Hbq; lia.
        + destruct (decide (p = b)); [lia |].
          destruct (decide (q = i)); [apply Hs; lia |].
          destruct (decide (q = b)); apply Hs; lia. }
    destruct Hl' as (Hp & Hlen & Hset).
    destruct (IH (S i) l' ltac:(lia) Hset) as (I1 & I2 & I3).
    replace (i + S n)%nat with (S i + n)%nat by lia.
    split; [rewrite I1; exact Hp |]. split; [congruence | exact I3].
Qed.

(** X13: The selection sort of [prepareFineTargets] keeps the peaks, as a
    permutation, and orders them by descending amplitude: in its result
    no peak is followed by a strictly stronger one. *)
Theorem sort_peaks_sorted_permutation peaks :
  sort_peaks peaks ≡ₚ peaks
  /\ forall p q, (p < q < length peaks)%nat ->
       flt (peak_amp (sort_peaks peaks !!! p)) (peak_amp (sort_peaks peaks !!! q)) = false.
Proof.
  unfold sort_peaks.
  destruct (sort_from_spec (length peaks - 1) 0 peaks) as (H1 & H2 & H3).
  - destruct peaks; cbn [length]; lia.
  - intros p q Hp. lia.
  - split; [exact H1 |]. intros p q Hpq. apply H3; [lia | rewrite H2; lia].
Qed.

(** ** Termination of the fine phase *)

Lemma startFineTarget_window now i s :
  0 <= i < fineTargetCount s ->
  let c := center (fineTargets s !!! Z.to_nat i) in
  let s' := startFineTarget now i s in
  fineSweepFreq s' = (if c >? FINE_WINDOW then u32 (c - FINE_WINDOW) else START_FREQ s)
  /\ fineSweepEnd s'
     = (if u32 (c + FINE_WINDOW) >? END_FREQ s then END_FREQ s else u32 (c + FINE_WINDOW))
  /\ fineSweepStep s' = FINE_STEP
  /\ currentFineIndex s' = currentFineIndex s
  /\ fineLastSampleTime s' = now.
Proof.
  intros Hi c s'. subst s'. unfold startFineTarget.
  destruct (Z.ltb_spec i 0) as [? | _]; [lia |].
  destruct (Z.geb_spec i (fineTargetCount s)) as [? | _]; [lia |].
  cbn [orb]. st. fold c. repeat split; reflexivity.
Qed.

Lemma fine_view_inv s s' :
  fine_view s' = fine_view s -> fine_run_inv s -> fine_run_inv s'.
Proof.
  unfold fine_view, control_view. intros Hv [H1 H2 H3 H4 H5 H6 H7 H8 H9 H10 H11].
  injection Hv as E1 E2 E3 E4 F1 F2 F3 F4 F5 F6 F7 F8 F9 E6.
  assert (Et : center <$> targets s' = center <$> targets s)
    by (unfold targets; rewrite !fmap_take, E6, F9; reflexivity).
  assert (El : length (fineTargets s') = length (fineTargets s))
    by (rewrite <- (length_fmap center (fineTargets s')), E6, length_fmap; reflexivity).
  split; rewrite ?E1, ?E2, ?E3, ?E4, ?F1, ?F2, ?F3, ?F5, ?F6, ?F9, ?Et, ?El; assumption.
Qed.

Lemma fine_view_left s s' :
  fine_view s' = fine_view s -> fine_ticks_left s' = fine_ticks_left s.
Proof.
  unfold fine_view, control_view. intros Hv.
  injection Hv as E1 E2 E3 E4 F1 F2 F3 F4 F5 F6 F7 F8 F9 E6.
  unfold fine_ticks_left, fine_window_left. rewrite E1, E2, E4, F9. reflexivity.
Qed.

Lemma target_center_range s i :
  fine_run_inv s -> 0 <= i < fineTargetCount s ->
  0 <= center (fineTargets s !!! Z.to_nat i) < 2 ^ 32.
Proof.
  intros [_ _ _ _ H5 _ _ _ _ H10 H11] Hi. unfold MAX_FINE_TARGETS in *.
  destruct (lookup_lt_is_Some_2 (fineTargets s) (Z.to_nat i) ltac:(lia)) as [t Ht].
  rewrite (list_lookup_total_correct _ _ _ Ht).
  rewrite Forall_lookup in H11. apply (H11 (Z.to_nat i)).
  unfold targets. rewrite list_lookup_fmap, lookup_take_lt by lia.
  rewrite Ht. reflexivity.
Qed.

(** A window opened by [startFineTarget] starts inside the word range
    and spans at most 200 steps. *)
Lemma startFineTarget_span now i s :
  0 <= i < fineTargetCount s ->
  0 <= center (fineTargets s !!! Z.to_nat i) < 2 ^ 32 ->
  0 <= START_FREQ s <= END_FREQ s -> END_FREQ s + FINE_STEP < 2 ^ 32 ->
  let s' := startFineTarget now i s in
  0 <= fineSweepFreq s' /\ fineSweepFreq s' + FINE_STEP < 2 ^ 32
  /\ fineSweepEnd s' <= END_FREQ s
  /\ (fine_window_left s' <= 200)%nat.
Proof.
  intros Hi Hc [H9 H9'] H9'' s'.
  destruct (startFineTarget_window now i s Hi) as (W1 & W2 & _).
  fold s' in W1, W2. unfold fine_window_left. rewrite W1, W2.
  set (c := center (fineTargets s !!! Z.to_nat i)) in *.
  unfold FINE_WINDOW, FINE_STEP in *.
  pose proof (u32_range (c + 1000)) as Hr.
  assert (Hle : u32 (c + 1000) <= c + 1000).
  { unfold u32. apply Z.mod_le; lia. }
  assert (Hdiv : forall d, d <= 2000 -> (Z.to_nat (d / 10) <= 200)%nat).
  { intros d Hd. assert (d / 10 <= 200) by (apply Z.div_le_upper_bound; lia). lia. }
  destruct (Z.gtb_spec c 1000) as [Hbig | Hsmall];
    [rewrite (u32_small (c - 1000)) by lia |];
    destruct (Z.gtb_spec (u32 (c + 1000)) (END_FREQ s)) as [Hclamp | Hfit];
    (split; [lia |]); (split; [lia |]); (split; [lia |]); apply Hdiv; lia.
Qed.

(** A sampling tick of the fine phase completes the sweep when no target
    is left, and otherwise brings the completion nearer. *)
Lemma processFineSweep_progress adc now s :
  fine_run_inv s ->
  (u32 (now - fineLastSampleTime s) >=? STABILIZE_DELAY) = true ->
  let s' := processFineSweep adc now s in
  if currentFineIndex s >=? fineTargetCount s
  then testComplete s' = true /\ testRunning s' = false
  else fine_run_inv s' /\ (fine_ticks_left s' < fine_ticks_left s)%nat
       /\ fineLastSampleTime s' = now.
Proof.
  intros Hinv Hg s'. subst s'. unfold processFineSweep.
  destruct (Z.geb_spec (currentFineIndex s) (fineTargetCount s)) as [Hdone | Hmore];
    [st; split; reflexivity |].
  rewrite Hg.
  pose proof (burst_loop_meas adc (Z.to_nat FINE_SAMPLES_PER_FREQ) s fzero) as Hm.
  destruct (burst_loop adc _ s fzero) as [s1 sum]. cbn [fst] in Hm.
  destruct Hm as (k & ipp & ipk & ->). st.
  set (avg := fdiv sum (of_Z FINE_SAMPLES_PER_FREQ)).
  match goal with |- context [if fgt avg ?b then ?x else ?y] =>
    assert (Hs2 : fine_view (if fgt avg b then x else y) = fine_view s);
    [ destruct (fgt avg b); st; [destruct (fgt avg (maxAmplitude s)) |]; st;
      unfold fine_view, control_view; st;
      rewrite ?fmap_center_alter by reflexivity; reflexivity
    | generalize dependent (if fgt avg b then x else y) ] end.
  intros s2 Hv2.
  pose proof (fine_view_inv _ _ Hv2 Hinv) as Hi2.
  pose proof (fine_view_left _ _ Hv2) as Hl2. rewrite <- Hl2.
  assert (Hmore2 : currentFineIndex s2 < fineTargetCount s2).
  { unfold fine_view, control_view in Hv2.
    injection Hv2 as _ _ _ E4 _ _ _ _ _ _ _ _ F9 _. rewrite E4, F9. exact Hmore. }
  clear Hinv Hv2 Hl2 Hmore Hg. revert Hi2 Hmore2. generalize s2. clear.
  intros s Hinv Hmore.
  pose proof Hinv as [H1 H2 H3 H4 H5 H6 [H7 H7'] H8 [[H9 H9'] H9''] H10 H11].
  unfold MAX_FINE_TARGETS, FINE_STEP in *.
  rewrite H6. rewrite (u32_small (fineSweepFreq s + 10)) by lia.
  assert (Hleft : fine_ticks_left s
                  = (Z.to_nat (fineTargetCount s - currentFineIndex s - 1) * 202
                     + fine_window_left s + 1)%nat).
  { unfold fine_ticks_left. destruct (Z.geb_spec (currentFineIndex s) (fineTargetCount s));
      [lia | reflexivity]. }
  destruct (Z.gtb_spec (fineSweepFreq s + 10) (fineSweepEnd s)) as [Hout | Hin]; st.
  - rewrite i32_small by lia.
    set (s0 := set_currentFineIndex (currentFineIndex s + 1) s).
    assert (Hv0 : fine_run_inv s0).
    { subst s0. destruct Hinv. split; st; try assumption. lia. }
    destruct (Z.ltb_spec (currentFineIndex s + 1) (fineTargetCount s)) as [Hnext | Hlast]; st.
    + assert (Hi0 : 0 <= currentFineIndex s + 1 < fineTargetCount s0) by (subst s0; st; lia).
      destruct (startFineTarget_window now _ s0 Hi0) as (_ & _ & W3 & W4 & W5).
      destruct (startFineTarget_span now _ s0 Hi0 (target_center_range s0 _ Hv0 Hi0)
                  ltac:(subst s0; st; lia) ltac:(subst s0; st; unfold FINE_STEP; lia))
        as (S1 & S2 & S3 & S4).
      pose proof (startFineTarget_view now (currentFineIndex s + 1) s0) as Hv.
      pose proof (startFineTarget_control now (currentFineIndex s + 1) s0) as Hc.
      revert W3 W4 W5 S1 S2 S3 S4 Hv Hc.
      generalize (startFineTarget now (currentFineIndex s + 1) s0).
      intros s3 W3 W4 W5 S1 S2 S3 S4 Hv Hc.
      unfold coarse_view in Hv. unfold control_view in Hc. subst s0.
      st_in Hv. st_in Hc. st_in W4. st_in S3.
      injection Hv as _ _ _ _ _ _ V7 V8 V9.
      injection Hc as C1 C2 C3 _ _ C6 _ _ _.
      st.
      assert (Et : center <$> targets s3 = center <$> targets s)
        by (unfold targets; rewrite !fmap_take, V9, V8; reflexivity).
      assert (El : length (fineTargets s3) = length (fineTargets s))
        by (rewrite <- (length_fmap center (fineTargets s3)), V9, length_fmap; reflexivity).
      split; [| split; [| reflexivity]].
      * apply (fine_view_inv s3); [reflexivity |].
        split; unfold MAX_FINE_TARGETS, FINE_STEP in *;
          rewrite ?W4, ?V8, ?C1, ?C2, ?Et, ?El; try assumption; try lia; try congruence; try (split; assumption).
      * rewrite (fine_view_left s3) by reflexivity.
        rewrite Hleft. unfold fine_ticks_left. rewrite W4, V8.
        destruct (Z.geb_spec (currentFineIndex s + 1) (fineTargetCount s)); [lia |].
        replace (fineTargetCount s - currentFineIndex s - 1)
          with (Z.succ (fineTargetCount s - (currentFineIndex s + 1) - 1)) by lia.
        rewrite Z2Nat.inj_succ by lia. lia.
    + split; [| split; [| reflexivity]].
      * apply (fine_view_inv s0); [reflexivity | exact Hv0].
      * rewrite (fine_view_left s0) by reflexivity.
        rewrite Hleft. unfold fine_ticks_left. subst s0. st.
        destruct (Z.geb_spec (currentFineIndex s + 1) (fineTargetCount s)); lia.
  - set (s0 := set_fineSweepFreq (fineSweepFreq s + 10) s).
    split; [| split; [| reflexivity]].
    + apply (fine_view_inv s0); [reflexivity |].
      subst s0. destruct Hinv. split; st; try assumption; unfold FINE_STEP; lia.
    + rewrite (fine_view_left s0) by reflexivity.
      rewrite Hleft. unfold fine_ticks_left, fine_window_left. subst s0. st.
      destruct (Z.geb_spec (currentFineIndex s) (fineTargetCount s)); [lia |].
      unfold FINE_STEP.
      replace (fineSweepEnd s - (fineSweepFreq s + 10))
        with (fineSweepEnd s - fineSweepFreq s + (-1) * 10) by lia.
      rewrite Z.div_add by lia.
      assert (1 <= (fineSweepEnd s - fineSweepFreq s) / 10)
        by (apply Z.div_le_lower_bound; lia).
      lia.
Qed.

(** Paced ticks bring a running fine phase to completion. *)
Lemma run_fine_completes adc ticks : forall s,
  fine_run_inv s -> paced (fineLastSampleTime s) ticks = true ->
  (fine_ticks_left s < length ticks)%nat ->
  testComplete (run adc ticks s) = true /\ testRunning (run adc ticks s) = false.
Proof.
  induction ticks as [| now ticks IH]; intros s Hinv Hp Hn; [cbn [length] in Hn; lia |].
  cbn [paced] in Hp. apply andb_true_iff in Hp as [Hg Hp]. cbn [length] in Hn.
  rewrite run_cons.
  assert (Hloop : loop adc now s = processFineSweep adc now s).
  { unfold loop. rewrite (fr_running s Hinv), (fr_coarse s Hinv), (fr_fine s Hinv).
    reflexivity. }
  rewrite Hloop.
  pose proof (processFineSweep_progress adc now s Hinv Hg) as H. cbv zeta in H.
  revert H. generalize (processFineSweep adc now s). intros s1 H.
  destruct (currentFineIndex s >=? fineTargetCount s).
  - destruct H as [Hc Hr]. rewrite run_idle by exact Hr. split; assumption.
  - destruct H as (Hinv1 & Hlt & Hlast). apply IH; [exact Hinv1 | | lia].
    rewrite Hlast. exact Hp.
Qed.

(** X14: The fine phase terminates: from any state of a running fine phase, on
    a band that does not wrap, paced ticks complete the sweep; no more
    than one tick per frequency left in the window in progress, 202 per
    target still to come, and one to classify are needed, whatever the
    sensor returns. *)
Theorem fine_phase_completes adc ticks s :
  fine_run_inv s -> paced (fineLastSampleTime s) ticks = true ->
  (fine_ticks_left s < length ticks)%nat ->
  let s' := run adc ticks s in
  testComplete s' = true /\ testRunning s' = false.
Proof. intros Hinv Hp Hn. apply run_fine_completes; assumption. Qed.

(** ** Termination of the whole sweep *)

Lemma steps_left_pos s :
  (0 < steps_left s)%nat -> currentTestFreq s <= END_FREQ s.
Proof.
  unfold steps_left, FREQ_STEP. intros Hn.
  destruct (Z_le_gt_dec (currentTestFreq s) (END_FREQ s)) as [? | Hgt]; [assumption |].
  assert ((END_FREQ s + 50 - currentTestFreq s) / 50 <= 0)
    by (apply Z.lt_succ_r, Z.div_lt_upper_bound; lia).
  lia.
Qed.

Lemma steps_left_zero s :
  steps_left s = 0%nat -> currentTestFreq s > END_FREQ s.
Proof.
  unfold steps_left, FREQ_STEP. intros Hn.
  destruct (Z_gt_le_dec (currentTestFreq s) (END_FREQ s)) as [? | Hle]; [assumption |].
  assert (1 <= (END_FREQ s + 50 - currentTestFreq s) / 50)
    by (apply Z.div_le_lower_bound; lia).
  lia.
Qed.

(** A coarse step keeps the arrays at their sizes and the stored words
    in the word range. *)
Lemma processCoarseSweep_wf adc now s :
  wf_state s -> 0 <= currentTestFreq s < 2 ^ 32 -> currentTestFreq s <= END_FREQ s ->
  wf_state (processCoarseSweep adc now s).
Proof.
  intros [H1 H2 H3 H4 H5] Hc Hin. unfold processCoarseSweep.
  destruct (Z.gtb_spec (currentTestFreq s) (END_FREQ s)) as [? | _]; [lia |].
  destruct (u32 _ >=? _); [| split; assumption].
  pose proof (burst_loop_meas adc (Z.to_nat SAMPLES_PER_FREQ) s fzero) as Hm.
  destruct (burst_loop adc _ s fzero) as [s1 sum]. cbn [fst snd] in *.
  destruct Hm as (k & ipp & ipk & ->). st.
  set (cur := fdiv sum (of_Z SAMPLES_PER_FREQ)).
  destruct (fgt cur (maxAmplitude s)); st;
    (destruct (dataPoints s <? MAX_DATA_POINTS); st;
     [destruct ((stepIndex s mod storeEvery s =? 0) || (dataPoints s =? 0)
                || (currentTestFreq s >=? END_FREQ s)); st |]);
    split; st; rewrite ?length_insert; try assumption;
    apply Forall_insert; assumption.
Qed.

Lemma run_coarse_wf adc ticks : forall s,
  wf_state s -> testRunning s = true -> coarsePhase s = true ->
  0 <= currentTestFreq s -> END_FREQ s + FREQ_STEP < 2 ^ 32 ->
  paced (lastSampleTime s) ticks = true ->
  (length ticks <= steps_left s)%nat ->
  wf_state (run adc ticks s).
Proof.
  induction ticks as [| now ticks IH]; intros s Hwf Hrun Hc Hlo Hhi Hp Hn; [exact Hwf |].
  cbn [paced] in Hp. apply andb_true_iff in Hp as [Hg Hp]. cbn [length] in Hn.
  rewrite run_cons.
  assert (Hloop : loop adc now s = processCoarseSweep adc now s)
    by (unfold loop; rewrite Hrun, Hc; reflexivity).
  rewrite Hloop.
  pose proof (steps_left_pos s ltac:(lia)) as Hin.
  pose proof (processCoarseSweep_wf adc now s Hwf
                ltac:(unfold FREQ_STEP in *; lia) Hin) as Hwf1.
  destruct (steps_left_sample adc now s ltac:(lia) Hlo Hhi Hg)
    as (Hv & Hcur & _ & Hlast & Hsteps).
  revert Hwf1 Hv Hcur Hlast Hsteps. generalize (processCoarseSweep adc now s).
  intros s1 Hwf1 Hv Hcur Hlast Hsteps.
  unfold control_view in Hv. injection Hv as _ E2 E3 _ E5 _ _ _ _.
  apply IH; try assumption; try congruence; unfold FREQ_STEP in *; lia.
Qed.

Lemma paced_app last l1 t l2 :
  paced last (l1 ++ t :: l2) = true -> paced last l1 = true /\ paced t l2 = true.
Proof.
  revert last. induction l1 as [| x l1 IH]; intros last H; cbn [app paced] in *.
  - apply andb_true_iff in H as [_ H]. split; [reflexivity | exact H].
  - apply andb_true_iff in H as [Hx H]. destruct (IH _ H) as [H1 H2].
    rewrite Hx, H1. split; [reflexivity | exact H2].
Qed.

(** The state in which the fine phase is entered. *)
Lemma enter_fine_inv now p r t0 :
  accept_inv r t0 p -> center t0 = r -> 0 <= r < 2 ^ 32 ->
  testRunning p = true -> coarsePhase p = false ->
  0 <= START_FREQ p <= END_FREQ p -> END_FREQ p + FREQ_STEP < 2 ^ 32 ->
  let s2 := set_finePhase true (startFineTarget now 0 (set_currentFineIndex 0 p)) in
  fine_run_inv s2 /\ (fine_ticks_left s2 <= 605)%nat /\ fineLastSampleTime s2 = now.
Proof.
  intros [A1 A2 A3 A4 A5 A6] Hc0 Hr Hrun Hco Hband Hhi.
  set (s0 := set_currentFineIndex 0 p).
  assert (Hi0 : 0 <= 0 < fineTargetCount s0) by (subst s0; st; lia).
  assert (Hc : 0 <= center (fineTargets s0 !!! Z.to_nat 0) < 2 ^ 32).
  { subst s0. st. change (Z.to_nat 0) with 0%nat.
    rewrite (list_lookup_total_correct _ _ _ A5), Hc0. exact Hr. }
  destruct (startFineTarget_window now 0 s0 Hi0) as (_ & _ & W3 & W4 & W5).
  destruct (startFineTarget_span now 0 s0 Hi0 Hc ltac:(subst s0; st; lia)
              ltac:(subst s0; st; unfold FINE_STEP, FREQ_STEP in *; lia))
    as (S1 & S2 & S3 & S4).
  pose proof (startFineTarget_view now 0 s0) as Hv.
  pose proof (startFineTarget_control now 0 s0) as Hcv.
  revert W3 W4 W5 S1 S2 S3 S4 Hv Hcv. generalize (startFineTarget now 0 s0).
  intros s3 W3 W4 W5 S1 S2 S3 S4 Hv Hcv.
  unfold coarse_view in Hv. unfold control_view in Hcv. subst s0.
  st_in Hv. st_in Hcv. st_in W4. st_in S3.
  injection Hv as _ _ _ _ _ _ V7 V8 V9.
  injection Hcv as C1 C2 C3 _ _ C6 _ _ _.
  assert (Et : center <$> targets s3 = center <$> targets p)
    by (unfold targets; rewrite !fmap_take, V9, V8; reflexivity).
  assert (El : length (fineTargets s3) = length (fineTargets p))
    by (rewrite <- (length_fmap center (fineTargets s3)), V9, length_fmap; reflexivity).
  cbv zeta. unfold MAX_FINE_TARGETS, FINE_STEP, FREQ_STEP in *.
  split; [| split; [| st; exact W5]].
  - split; st; unfold targets; st; fold (targets s3);
      rewrite ?W4, ?V8, ?C1, ?C2, ?Et, ?El; try assumption; try lia; try congruence;
      try (split; [assumption | unfold FINE_STEP; lia]).
    + unfold MAX_FINE_TARGETS. lia.
    + apply Forall_fmap. exact A4.
  - unfold fine_ticks_left, fine_window_left in *. st. rewrite W4, V8.
    destruct (0 >=? fineTargetCount p); lia.
Qed.

(** X15: A sweep always terminates: on a well-formed controller and a band
    with [0 <= START_FREQ <= END_FREQ] that does not wrap, a sweep
    started at [now] is complete after at most
    [(END_FREQ - START_FREQ) / FREQ_STEP + 608] paced ticks, whatever the
    sensor returns: the coarse samples, the tick that ends the coarse
    phase, at most 3 windows of at most 202 ticks, and the classification. *)
Theorem sweep_completes adc now ticks s :
  wf_state s ->
  0 <= START_FREQ s <= END_FREQ s -> END_FREQ s + FREQ_STEP < 2 ^ 32 ->
  paced now ticks = true ->
  (Z.to_nat ((END_FREQ s - START_FREQ s) / FREQ_STEP) + 608 <= length ticks)%nat ->
  let s' := run adc ticks (startTwoPassTest now (set_testRunning true s)) in
  testComplete s' = true /\ testRunning s' = false.
Proof.
  intros Hwf Hband Hhi Hp Hlen.
  destruct (startTwoPassTest_fields now (set_testRunning true s))
    as ((_ & R2 & _) & (C1 & _ & C3 & _) & (F1 & F2 & F3 & _ & F5)
        & (_ & D2 & D3 & _ & D5) & _).
  st_in C3. st_in F1. st_in F2. st_in D2. st_in D3. st_in D5.
  assert (Hwf0 : wf_state (startTwoPassTest now (set_testRunning true s))).
  { destruct Hwf as [H1 H2 H3 H4 H5].
    split; rewrite ?R2, ?D2, ?D3, ?D5; try assumption. lia. }
  cbv zeta. revert R2 C1 C3 F1 F2 F3 F5 Hwf0.
  generalize (startTwoPassTest now (set_testRunning true s)).
  intros s0 _ C1 C3 F1 F2 F3 F5 Hwf0. st_in F3.
  assert (Hleft : steps_left s0
                  = S (Z.to_nat ((END_FREQ s - START_FREQ s) / FREQ_STEP))).
  { unfold steps_left. rewrite F2, F3. unfold FREQ_STEP in *.
    replace (END_FREQ s + 50 - START_FREQ s) with (END_FREQ s - START_FREQ s + 1 * 50) by lia.
    rewrite Z.div_add by lia.
    assert (0 <= (END_FREQ s - START_FREQ s) / 50) by (apply Z.div_pos; lia). lia. }
  rewrite <- (take_drop (steps_left s0) ticks) in Hp |- *.
  assert (Hl1 : length (take (steps_left s0) ticks) = steps_left s0)
    by (rewrite length_take; lia).
  assert (Hl2 : (607 <= length (drop (steps_left s0) ticks))%nat)
    by (rewrite length_drop; lia).
  revert Hp Hl1 Hl2.
  generalize (take (steps_left s0) ticks), (drop (steps_left s0) ticks).
  intros t1 [| t t2] Hp Hl1 Hl2; [cbn [length] in Hl2; lia |].
  cbn [length] in Hl2.
  apply paced_app in Hp as [Hp1 Hp2].
  rewrite run_app, run_cons.
  pose proof (run_coarse_samples adc t1 s0 C3 C1) as H.
  pose proof (run_coarse_wf adc t1 s0 Hwf0 C3 C1) as Hwf1.
  rewrite F2, F3, F5 in H, Hwf1.
  specialize (H ltac:(lia) Hhi Hp1 ltac:(lia)). cbv zeta in H.
  specialize (Hwf1 ltac:(lia) Hhi Hp1 ltac:(lia)).
  revert H Hwf1. generalize (run adc t1 s0). intros s1 (Hv & _ & _ & Hsteps) Hwf1.
  pose proof (steps_left_zero s1 ltac:(lia)) as Hend.
  unfold control_view in Hv. injection Hv as E1 E2 E3 _ E5 _ _ _ _.
  assert (Hloop : loop adc t s1 = processCoarseSweep adc t s1)
    by (unfold loop; rewrite E3, C3, E5, C1; reflexivity).
  rewrite Hloop.
  destruct (processCoarseSweep_transition adc t s1 Hend) as [Hfine Hnone].
  destruct (Z.eq_dec (resonantFreq s1) 0) as [Hr | Hr];
    [| destruct (Z_lt_le_dec (dataPoints s1) 3) as [Hd | Hd]].
  - rewrite Hnone by (left; exact Hr). rewrite run_idle by reflexivity.
    split; reflexivity.
  - rewrite Hnone by (right; exact Hd). rewrite run_idle by reflexivity.
    split; reflexivity.
  - rewrite Hfine by (split; assumption). clear Hfine Hnone Hloop.
    set (sx := set_coarsePhase false (stopPWM s1)).
    assert (Hwfx : wf_state sx)
      by (apply (wf_state_frame s1); [reflexivity .. | exact Hwf1]).
    pose proof (prepareFineTargets_inv sx Hwfx ltac:(subst sx; st; exact Hr)
                  ltac:(subst sx; st; exact Hd)) as Hacc.
    destruct (prepareFineTargets_shape sx) as (tg & c & Hshape).
    assert (Hflags : testRunning (prepareFineTargets sx) = true
                     /\ coarsePhase (prepareFineTargets sx) = false
                     /\ START_FREQ (prepareFineTargets sx) = START_FREQ s
                     /\ END_FREQ (prepareFineTargets sx) = END_FREQ s).
    { rewrite Hshape. subst sx. st. repeat split; congruence. }
    destruct Hflags as (G1 & G2 & G3 & G4).
    assert (Hres : 0 <= resonantFreq sx < 2 ^ 32) by (apply Hwfx).
    revert Hacc G1 G2 G3 G4. generalize (prepareFineTargets sx). intros p Hacc G1 G2 G3 G4.
    destruct (enter_fine_inv t p _ _ Hacc eq_refl Hres G1 G2
                ltac:(rewrite G3, G4; exact Hband) ltac:(rewrite G4; exact Hhi))
      as (Hinv & Hticks & Hlast).
    revert Hinv Hticks Hlast.
    generalize (set_finePhase true (startFineTarget t 0 (set_currentFineIndex 0 p))).
    intros s2 Hinv Hticks Hlast.
    apply run_fine_completes; [exact Hinv | rewrite Hlast; exact Hp2 | lia].
Qed.

(** * Witnesses of the further properties *)

Lemma generator_after_coarse_phase_witness :
  pwmDuty (run (sensor edge_swing) [46080; 46095] fine_entry) = 128.
Proof.
  pose proof (generator_after_coarse_phase (sensor edge_swing) 46065 [46080; 46095]
                five_points) as H.
  cbv zeta in H. destruct H as (_ & H); [simpl; lia |].
  destruct H as (H & _); [split; simpl; lia |]. exact H.
Defined.

Lemma coarse_sweep_takes_total_steps_witness :
  let s0 := startTwoPassTest 0 (set_testRunning true short_band) in
  totalSteps s0 = 3
  /\ adcReads (run (sensor edge_swing) [15; 30; 45] s0) = 3000.
Proof.
  pose proof (coarse_sweep_takes_total_steps (sensor edge_swing) 0 [15; 30; 45]
                short_band) as H.
  cbv zeta in H. destruct H as (H1 & _ & H2 & _).
  - simpl. lia.
  - simpl. unfold FREQ_STEP. lia.
  - reflexivity.
  - reflexivity.
  - split; [exact H1 | exact H2].
Defined.

Lemma running_max_dominates_curve_witness :
  let s' := run (sensor edge_swing) [15; 30; 45]
              (startTwoPassTest 0 (set_testRunning true short_band)) in
  dominated s' /\ dataPoints s' = 3.
Proof.
  split; [| vm_compute; reflexivity].
  apply (running_max_dominates_curve (sensor edge_swing) 0 [15; 30; 45]
           (set_testRunning true short_band)).
  reflexivity.
Defined.

Lemma fine_sweep_never_above_band_witness :
  added_below (END_FREQ fine_entry) (pwmLog fine_entry)
    (pwmLog (run (sensor edge_swing) [46080; 46095] fine_entry)).
Proof.
  apply (fine_sweep_never_above_band (sensor edge_swing) [46080; 46095] fine_entry).
  - vm_compute. reflexivity.
  - split.
    + apply Z.leb_le. vm_compute. reflexivity.
    + split; apply Z.leb_le; vm_compute; reflexivity.
    + apply (bool_decide_unpack _). vm_compute. exact I.
Defined.

Lemma find_peaks_sound_complete_witness :
  exists pk, pk ∈ find_peaks 3 1 five_points (lit 3 10) [] /\ peak_idx pk = 3.
Proof.
  destruct (find_peaks_sound_complete 3 1 five_points (lit 3 10)) as (_ & _ & _ & H).
  apply H.
  - vm_compute. reflexivity.
  - simpl. lia.
  - vm_compute. reflexivity.
Defined.



Lemma measureCurrent_swing_witness :
  adcReads (measureCurrent (fun _ _ => 2048) short_band) = adcReads short_band + 50.
Proof.
  destruct (measureCurrent_swing (fun _ _ => 2048) short_band)
    as (imax & imin & _ & _ & _ & _ & _ & _ & H).
  - intros k. simpl. lia.
  - exact H.
Defined.


Lemma sort_peaks_sorted_permutation_witness :
  flt (peak_amp (sort_peaks three_peaks !!! 0%nat))
      (peak_amp (sort_peaks three_peaks !!! 2%nat)) = false.
Proof.
  destruct (sort_peaks_sorted_permutation three_peaks) as [_ H].
  apply H. simpl. lia.
Defined.

Lemma fine_phase_completes_witness :
  testComplete (run (sensor edge_swing) (ticks_every 46065 606) fine_entry) = true.
Proof.
  destruct (fine_phase_completes (sensor edge_swing) (ticks_every 46065 606) fine_entry)
    as [H _].
  - split.
    + vm_compute. reflexivity.
    + vm_compute. reflexivity.
    + vm_compute. reflexivity.
    + apply Z.leb_le. vm_compute. reflexivity.
    + apply Z.leb_le. vm_compute. reflexivity.
    + vm_compute. reflexivity.
    + split; [apply Z.leb_le | apply Z.ltb_lt]; vm_compute; reflexivity.
    + apply Z.leb_le. vm_compute. reflexivity.
    + split; [split; apply Z.leb_le | apply Z.ltb_lt]; vm_compute; reflexivity.
    + vm_compute. reflexivity.
    + apply (bool_decide_unpack _). vm_compute. exact I.
  - vm_compute. reflexivity.
  - apply Nat.ltb_lt. vm_compute. reflexivity.
  - exact H.
Defined.

Lemma sweep_completes_witness :
  testComplete (run (sensor edge_swing) (ticks_every 0 610)
                  (startTwoPassTest 0 (set_testRunning true short_band))) = true.
Proof.
  destruct (sweep_completes (sensor edge_swing) 0 (ticks_every 0 610) short_band)
    as [H _].
  - split.
    + reflexivity.
    + reflexivity.
    + reflexivity.
    + apply (bool_decide_unpack _). vm_compute. exact I.
    + simpl. lia.
  - simpl. lia.
  - simpl. unfold FREQ_STEP. lia.
  - vm_compute. reflexivity.
  - apply Nat.leb_le. vm_compute. reflexivity.
  - exact H.
Defined.
